(** * Canny edge detection (canny-go): a shallow embedding and its properties

    The development follows the Go sources: the detection pipeline
    [CannyEdgeDetect] with its stages and helpers, and from main.go
    [GrayPixel], the ratio check and the conversions between grids and
    images.

    Numeric model.
    - [uint8] and [int] values are integers ([Z]); a [uint8] is kept in
      [0, 256) by the functions that construct one.
    - [float64] values that take part in arithmetic are rationals ([Q]) with
      exact operations.  Every such value of the pipeline is a dyadic rational
      with a small numerator (pixel intensities, Sobel and binomial weights,
      their products and sums), and binary64 arithmetic is exact on those.
      [math.Sqrt] only occurs under a conversion to [uint8]; the pair is
      modelled by the integer square root of the integer part, which is what
      truncating the correctly rounded root yields on the values that occur.
      A conversion of a value above 255 is implementation dependent in Go; the
      gc compiler truncates to the low eight bits, which is what [uint8_of_Z]
      does.
    - the two thresholds are binary64 values ([PrimFloat.float]): the ratios,
      their product with the maximum and the comparisons of
      [doublethreshold] are those of the hardware.
    - direction angles are real numbers ([R]): [math.Atan] is the real
      arctangent and [math.Pi] is [PI].
    - an [image.Gray] is its pixel buffer with its stride and bounds, a
      colour is the four values that [RGBA()] returns, and a file name is the
      list of its bytes.

    Effects.
    - a panic is an explicit error value: every function that can panic
      returns a [result], and the first panic of a loop aborts it;
    - the stages that write into the grid in place ([doublethreshold],
      [edgeTracking]) take the grid and return the new one; they are only
      ever applied to a grid that the previous stage has just built, so no
      other reference to it exists;
    - a [mapset.Set] is the list of its members, and iterating over it yields
      them in the order of the list.  Go leaves that order open; the grid
      that [edgeTracking] returns is the same for every order
      ([edgeTracking_order_irrelevant]). *)

From Stdlib Require Import PrimFloat.
From Stdlib Require FloatOps FloatAxioms SpecFloat Uint63.
From Stdlib Require Import ZArith QArith Qround Qreals List Bool Lia Permutation.
From Stdlib Require Import Reals Lra.
Import ListNotations.

Local Open Scope Z_scope.

(** ** Panics *)

Inductive panic : Type :=
| IndexOutOfRange      (* runtime error: index out of range *)
| OddLengthRequired    (* "length must be odd number", "size of kernel must be odd" *)
| DimensionMismatch    (* "dimensions of pixel and direction array must match" *)
| InvalidDirection     (* "invalid value for direction, out of range [-90, 90]" *)
| VectorLengthMismatch (* "length of given vectors must be equal" *)
| MatrixDimMismatch    (* "invalid matrix dimensions for convolution operation" *)
| MatShape.            (* gonum: mat.ErrShape and friends *)

Inductive result (A : Type) : Type :=
| Ok (v : A)
| Panic (e : panic).

Arguments Ok {A} v.
Arguments Panic {A} e.

Definition bind {A B : Type} (m : result A) (k : A -> result B) : result B :=
  match m with
  | Ok v => k v
  | Panic e => Panic e
  end.

Notation "x <- m ;; k" := (bind m (fun x => k))
  (at level 61, m at next level, right associativity).
Notation "' pat <- m ;; k" := (bind m (fun x => match x with pat => k end))
  (at level 61, pat pattern, m at next level, right associativity).

(** A loop that appends one value per iteration: the first panic aborts it. *)
Fixpoint mapM {A B : Type} (f : A -> result B) (l : list A) : result (list B) :=
  match l with
  | [] => Ok []
  | x :: l' => v <- f x ;; vs <- mapM f l' ;; Ok (v :: vs)
  end.

(** A loop that updates an accumulator. *)
Fixpoint foldM {A S : Type} (f : S -> A -> result S) (s : S) (l : list A) : result S :=
  match l with
  | [] => Ok s
  | x :: l' => s' <- f s x ;; foldM f s' l'
  end.

(** The integers [lo, lo+1, ..., lo+n-1]: the values of a loop counter. *)
Definition zrange (lo : Z) (n : nat) : list Z :=
  map (fun k => lo + Z.of_nat k) (seq 0 n).

(** [for i := lo; i < hi; i++] *)
Definition upto (lo hi : Z) : list Z := zrange lo (Z.to_nat (hi - lo)).

(** [for i := lo; i <= hi; i++] *)
Definition through (lo hi : Z) : list Z := zrange lo (Z.to_nat (hi - lo + 1)).

Definition len {A : Type} (l : list A) : Z := Z.of_nat (length l).

(** [l[i]] on a slice: panics outside [0, len l). *)
Definition index {A : Type} (l : list A) (i : Z) : result A :=
  if i <? 0 then Panic IndexOutOfRange
  else match nth_error l (Z.to_nat i) with
       | Some v => Ok v
       | None => Panic IndexOutOfRange
       end.

(** [l[i] = v] on a slice. *)
Fixpoint set_nth {A : Type} (l : list A) (n : nat) (v : A) : list A :=
  match l, n with
  | [], _ => []
  | _ :: l', O => v :: l'
  | x :: l', S n' => x :: set_nth l' n' v
  end.

Definition update {A : Type} (l : list A) (i : Z) (v : A) : result (list A) :=
  _ <- index l i ;; Ok (set_nth l (Z.to_nat i) v).

(** ** Pixels and grids (main.go) *)

Definition uint8 (z : Z) : Prop := 0 <= z < 256.

(** The conversion to [uint8] of an integer value (the integer part of a
    float64): the low eight bits. *)
Definition uint8_of_Z (z : Z) : Z := z mod 256.

Module GrayPixel.
Record t : Type := mk { y : Z; a : Z }.
End GrayPixel.
Abbreviation GrayPixel := GrayPixel.t.

Definition grid : Type := list (list GrayPixel).

(** [pixels[y][x]] *)
Definition at2 {A : Type} (g : list (list A)) (y x : Z) : result A :=
  row <- index g y ;; index row x.

(** [pixels[y][x].y = v] *)
Definition setY (pixels : grid) (y x : Z) (v : Z) : result grid :=
  row <- index pixels y ;;
  p <- index row x ;;
  row' <- update row x (GrayPixel.mk v (GrayPixel.a p)) ;;
  update pixels y row'.

(** [uint8(math.Sqrt(v))] for a rational [v >= 0]. *)
Definition uint8_sqrt (v : Q) : Z := uint8_of_Z (Z.sqrt (Qfloor v)).

(** Go's [abs] helper. *)
Definition abs (x : Z) : Z := if x <? 0 then - x else x.

(** ** gonum matrices and vectors, as far as the program uses them *)

Record Dense : Type := mkDense { rows : Z; cols : Z; data : list Q }.

(** [mat.NewDense(r, c, data)]: panics unless [r, c > 0] and [len(data) = r*c]. *)
Definition NewDense (r c : Z) (d : list Q) : result Dense :=
  if (r <=? 0) || (c <=? 0) then Panic MatShape
  else if negb (len d =? r * c) then Panic MatShape
  else Ok (mkDense r c d).

Definition Dims (m : Dense) : Z * Z := (rows m, cols m).

(** [m.At(i, j)] *)
Definition At (m : Dense) (i j : Z) : result Q :=
  if (i <? 0) || (rows m <=? i) then Panic MatShape
  else if (j <? 0) || (cols m <=? j) then Panic MatShape
  else index (data m) (i * cols m + j).

(** A [mat.VecDense] is its list of entries. *)
Definition VecDense : Type := list Q.

(** [mat.NewVecDense(n, data)]: panics unless [n > 0] and [len(data) = n]. *)
Definition NewVecDense (n : Z) (d : list Q) : result VecDense :=
  if n <=? 0 then Panic MatShape
  else if negb (len d =? n) then Panic MatShape
  else Ok d.

Inductive direction : Type := HORIZONTAL | VERTICAL.

Definition SOBEL_X : list Q := map inject_Z [1; 0; -1; 2; 0; -2; 1; 0; -1].
Definition SOBEL_Y : list Q := map inject_Z [1; 2; 1; 0; 0; 0; -1; -2; -1].

(** ** Sampling *)

Definition getSorroundingPixelMatrix (pixels : grid) (posY posX : Z) (length : Z)
  : result Dense :=
  if Z.rem length 2 =? 0 then Panic OddLengthRequired
  else
    let padding := Z.quot length 2 in
    let minX := posX - padding in
    let minY := posY - padding in
    let maxX := posX + padding in
    let maxY := posY + padding in
    let height := len pixels in
    row0 <- index pixels 0 ;;
    let width := len row0 in
    values <-
      mapM (fun y =>
        let curY :=
          if y <? 0 then posY + abs y
          else if y >=? height then let overlap := y - height + 1 in posY - overlap
          else y in
        mapM (fun x =>
          let curX :=
            if x <? 0 then posX + abs x
            else if x >=? width then let overlap := x - width + 1 in posX - overlap
            else x in
          currentPixel <- at2 pixels curY curX ;;
          Ok (inject_Z (GrayPixel.y currentPixel)))
        (through minX maxX))
      (through minY maxY) ;;
    NewDense length length (concat values).

Definition getPixelVector (pixels : grid) (posY posX : Z) (length : Z) (dir : direction)
  : result VecDense :=
  if Z.rem length 2 =? 0 then Panic OddLengthRequired
  else
    let padding := Z.quot length 2 in
    values <-
      match dir with
      | HORIZONTAL =>
          let minX := posX - padding in
          let maxX := posX + padding in
          mapM (fun i =>
            row <- index pixels posY ;;
            let rowLength := len row in
            currentPixel <-
              (if i <? 0 then at2 pixels posY (posX + abs i)
               else if i >=? rowLength then
                 let overlap := i - rowLength + 1 in at2 pixels posY (posX - overlap)
               else at2 pixels posY i) ;;
            Ok (inject_Z (GrayPixel.y currentPixel)))
          (through minX maxX)
      | VERTICAL =>
          let minY := posY - padding in
          let maxY := posY + padding in
          mapM (fun i =>
            let columnLength := len pixels in
            currentPixel <-
              (if i <? 0 then at2 pixels (posY + abs i) posX
               else if i >=? columnLength then
                 let overlap := i - columnLength + 1 in at2 pixels (posY - overlap) posX
               else at2 pixels i posX) ;;
            Ok (inject_Z (GrayPixel.y currentPixel)))
          (through minY maxY)
      end ;;
    NewVecDense (len values) values.

(** ** Convolution *)

Definition innerProduct (pixels kernel : VecDense) : result Q :=
  if negb (len pixels =? len kernel) then Panic VectorLengthMismatch
  else
    foldM (fun result i =>
             p <- index pixels i ;;
             k <- index kernel i ;;
             Ok (result + p * k)%Q)
          (0 : Q) (upto 0 (len pixels)).

Definition convolve (m1 m2 : Dense) : result Q :=
  let '(row_1, col_1) := Dims m1 in
  let '(row_2, col_2) := Dims m2 in
  if negb (row_1 =? row_2) || negb (col_1 =? col_2) then Panic MatrixDimMismatch
  else
    let '(rows, cols) := Dims m1 in
    foldM (fun result y =>
             foldM (fun result x =>
                      v1 <- At m1 y x ;;
                      v2 <- At m2 y x ;;
                      Ok (result + v1 * v2)%Q)
                   result (upto 0 cols))
          (0 : Q) (upto 0 rows).

(** ** Gaussian blur *)

(** [combin.Binomial(n, k)] *)
Fixpoint binomial (n k : nat) : Z :=
  match n, k with
  | _, O => 1
  | O, S _ => 0
  | S n', S k' => binomial n' k' + binomial n' k
  end.

Definition getPascalTriangleRow (index : Z) : result VecDense :=
  let size := index + 1 in
  let values :=
    map (fun i => inject_Z (binomial (Z.to_nat index) (Z.to_nat i))) (upto 0 size) in
  NewVecDense size values.

Definition normalizeVec (v : VecDense) : VecDense :=
  let sum := fold_left Qplus v (0 : Q) in
  map (fun w => (1 / sum) * w)%Q v.

Definition gaussianBlur (pixels : grid) (kernelSize : Z) : result grid :=
  if Z.rem kernelSize 2 =? 0 then Panic OddLengthRequired
  else
    kernel <- getPascalTriangleRow (kernelSize - 1) ;;
    let kernel := normalizeVec kernel in
    mapM (fun y =>
      row <- index pixels y ;;
      mapM (fun x =>
        vecVert <- getPixelVector pixels y x (len kernel) VERTICAL ;;
        vecHor <- getPixelVector pixels y x (len kernel) HORIZONTAL ;;
        verticalSum <- innerProduct vecVert kernel ;;
        horizontalSum <- innerProduct vecHor kernel ;;
        let combinedRes :=
          uint8_sqrt (verticalSum * verticalSum + horizontalSum * horizontalSum) in
        Ok (GrayPixel.mk combinedRes 255))
      (upto 0 (len row)))
    (upto 0 (len pixels)).

(** ** Gradient *)

(** The direction, in degrees, of a pair of Sobel responses. *)
Definition gradientAngle (sobelRes_X sobelRes_Y : Q) : R :=
  let angle :=
    if Qeq_bool sobelRes_X 0 || Qeq_bool sobelRes_Y 0 then 0%R
    else atan (Q2R (sobelRes_Y / sobelRes_X)) in
  (angle * (180 / PI))%R.

Definition sobel (pixels : grid) : result (grid * list (list R)) :=
  sobel_X <- NewDense 3 3 SOBEL_X ;;
  sobel_Y <- NewDense 3 3 SOBEL_Y ;;
  rowsOut <-
    mapM (fun y =>
      row <- index pixels y ;;
      cells <-
        mapM (fun x =>
          imagePane <- getSorroundingPixelMatrix pixels y x 3 ;;
          sobelRes_X <- convolve imagePane sobel_X ;;
          sobelRes_Y <- convolve imagePane sobel_Y ;;
          let combinedRes := uint8_sqrt (sobelRes_X ^ 2 + sobelRes_Y ^ 2) in
          Ok (GrayPixel.mk combinedRes 255, gradientAngle sobelRes_X sobelRes_Y))
        (upto 0 (len row)) ;;
      Ok (map fst cells, map snd cells))
    (upto 0 (len pixels)) ;;
  Ok (map fst rowsOut, map snd rowsOut).

(** ** Non-maximum suppression *)

Definition Rgeb (u v : R) : bool := if Rge_dec u v then true else false.
Definition Rltb (u v : R) : bool := if Rlt_dec u v then true else false.
Definition Rleb (u v : R) : bool := if Rle_dec u v then true else false.

(** The two neighbour coordinates [(pY, pX, qY, qX)] selected by a direction. *)
Definition gradientNeighbours (dirVal : R) (x y : Z) : result (Z * Z * Z * Z) :=
  if Rgeb dirVal (-90) && Rltb dirVal (-67.5) then Ok (y - 1, x, y + 1, x)
  else if Rgeb dirVal (-67.5) && Rltb dirVal (-22.5) then Ok (y - 1, x + 1, y + 1, x - 1)
  else if Rgeb dirVal (-22.5) && Rltb dirVal 22.5 then Ok (y, x + 1, y, x - 1)
  else if Rgeb dirVal 22.5 && Rltb dirVal 67.5 then Ok (y + 1, x + 1, y - 1, x - 1)
  else if Rgeb dirVal 67.5 && Rleb dirVal 90 then Ok (y + 1, x, y - 1, x)
  else Panic InvalidDirection.

(** The reads that follow the selection: a coordinate outside the grid falls
    back on the centre's. *)
Definition readNeighbours (pixels : grid) (height width : Z) (x y : Z)
  (n : Z * Z * Z * Z) : result (GrayPixel * GrayPixel) :=
  let '(pY, pX, qY, qX) := n in
  let pY := if (pY <? 0) || (pY >=? height) then y else pY in
  let pX := if (pX <? 0) || (pX >=? width) then x else pX in
  let qY := if (qY <? 0) || (qY >=? height) then y else qY in
  let qX := if (qX <? 0) || (qX >=? width) then x else qX in
  p <- at2 pixels pY pX ;;
  q <- at2 pixels qY qX ;;
  Ok (p, q).

Definition getPixelInGradientDirection (pixels : grid) (directions : list (list R))
  (x y : Z) : result (GrayPixel * GrayPixel) :=
  let height := len pixels in
  row0 <- index pixels 0 ;;
  let width := len row0 in
  dirVal <- at2 directions y x ;;
  n <- gradientNeighbours dirVal x y ;;
  readNeighbours pixels height width x y n.

Definition nonMaximumSuppression (pixels : grid) (directions : list (list R))
  : result grid :=
  mismatch <-
    (if negb (len pixels =? len directions) then Ok true
     else
       row0 <- index pixels 0 ;;
       drow0 <- index directions 0 ;;
       Ok (negb (len row0 =? len drow0))) ;;
  if (mismatch : bool) then Panic DimensionMismatch
  else
    mapM (fun y =>
      row0 <- index pixels 0 ;;
      mapM (fun x =>
        r <- at2 pixels y x ;;
        '(p, q) <- getPixelInGradientDirection pixels directions x y ;;
        if (GrayPixel.y p >? GrayPixel.y r) || (GrayPixel.y q >? GrayPixel.y r)
        then Ok (GrayPixel.mk 0 255)
        else Ok r)
      (upto 0 (len row0)))
    (upto 0 (len pixels)).

(** ** Coordinate sets (image.Point, mapset.Set) *)

Record Point : Type := mkPoint { X : Z; Y : Z }.

Definition Point_eqb (p q : Point) : bool := (X p =? X q) && (Y p =? Y q).

(** A set is a list of its members; [Add] keeps it free of duplicates.  The
    order of the list is the order in which [Iterator] yields the members. *)
Module mapset.
Definition Set_ : Type := list Point.
Definition NewSet : Set_ := [].
Definition Contains (s : Set_) (p : Point) : bool := existsb (Point_eqb p) s.
Definition Add (s : Set_) (p : Point) : Set_ := if Contains s p then s else s ++ [p].
Definition Intersect (s t : Set_) : Set_ := filter (Contains t) s.
Definition Cardinality (s : Set_) : Z := len s.
End mapset.

(** ** Double threshold *)

(** [float64(v)] for a [uint8] value. *)
Definition float64_of_uint8 (v : Z) : float := of_uint63 (Uint63.of_Z v).

(** [u > v] on float64. *)
Definition fgtb (u v : float) : bool := (v <? u)%float.

Definition doublethreshold (pixels : grid) (high low : float)
  : result (grid * mapset.Set_ * mapset.Set_) :=
  let strong := mapset.NewSet in
  let weak := mapset.NewSet in
  foldM (fun st y =>
    row0 <- index (fst (fst st)) 0 ;;
    foldM (fun st x =>
      let '(pixels, strong, weak) := st in
      px <- at2 pixels y x ;;
      let pixVal := float64_of_uint8 (GrayPixel.y px) in
      if fgtb pixVal high then Ok (pixels, mapset.Add strong (mkPoint x y), weak)
      else if fgtb high pixVal && fgtb pixVal low
      then Ok (pixels, strong, mapset.Add weak (mkPoint x y))
      else
        pixels <- setY pixels y x 0 ;;
        Ok (pixels, strong, weak))
    st (upto 0 (len row0)))
  (pixels, strong, weak) (upto 0 (len pixels)).

(** ** Hysteresis *)

Definition getAdjacentPixels (pixels : grid) (x y : Z) : result mapset.Set_ :=
  let result := mapset.NewSet in
  let height := len pixels in
  row0 <- index pixels 0 ;;
  let width := len row0 in
  let minX := Z.max 0 (x - 1) in
  let minY := Z.max 0 (y - 1) in
  let maxX := Z.min width (x + 1) in
  let maxY := Z.min height (y + 1) in
  Ok (fold_left (fun result i =>
        fold_left (fun result j =>
          if negb (i =? y) && negb (j =? x) then mapset.Add result (mkPoint j i)
          else result)
        (upto minX maxX) result)
      (upto minY maxY) result).

(** [weak] is traversed in the order of its list. *)
Definition edgeTracking (pixels : grid) (strong weak : mapset.Set_)
  : result (grid * mapset.Set_) :=
  foldM (fun st weakPoint =>
    let '(pixels, strong) := st in
    neighbours <- getAdjacentPixels pixels (X weakPoint) (Y weakPoint) ;;
    let strong :=
      if mapset.Cardinality (mapset.Intersect strong neighbours) >? 0
      then mapset.Add strong weakPoint else strong in
    let x := X weakPoint in
    let y := Y weakPoint in
    pixels <- setY pixels y x 0 ;;
    Ok (pixels, strong))
  (pixels, strong) weak.

(** ** The pipeline *)

Definition maxPixelValue (pixels : grid) : result Z :=
  foldM (fun max y =>
    row0 <- index pixels 0 ;;
    foldM (fun max x =>
      px <- at2 pixels y x ;;
      let pixVal := GrayPixel.y px in
      Ok (if pixVal >? max then pixVal else max))
    max (upto 0 (len row0)))
  0 (upto 0 (len pixels)).

Definition CannyEdgeDetect (pixels : grid) (blur : bool) (minRatio maxRatio : float)
  : result grid :=
  pixels <- (if blur then gaussianBlur pixels 5 else Ok pixels) ;;
  '(pixels, angles) <- sobel pixels ;;
  pixels <- nonMaximumSuppression pixels angles ;;
  max <- maxPixelValue pixels ;;
  let high := (maxRatio * float64_of_uint8 max)%float in
  let low := (minRatio * float64_of_uint8 max)%float in
  '(pixels, strong, weak) <- doublethreshold pixels high low ;;
  '(pixels, _) <- edgeTracking pixels strong weak ;;
  Ok pixels.

(** main.go *)
Definition isValidRatioValue (x : float) : bool := (0 <=? x)%float && (x <=? 1)%float.

(** ** Images and colours (image, image/color), as far as main.go uses them *)

(** What [Color.RGBA()] returns: four [uint32] values. *)
Record Color : Type := mkColor { red : Z; green : Z; blue : Z; alpha : Z }.

(** [color.Gray{v}.RGBA()] *)
Definition GrayRGBA (v : Z) : Color :=
  let y := Z.lor v (Z.shiftl v 8) in mkColor y y y 65535.

(** [color.GrayModel.Convert(c).(color.Gray).Y]: the luma of the colour, in
    [uint32] arithmetic, converted to [uint8]. *)
Definition grayModel (c : Color) : Z :=
  let y := Z.shiftr ((19595 * red c + 38470 * green c + 7471 * blue c + Z.shiftl 1 15)
                     mod 2 ^ 32) 24 in
  uint8_of_Z y.

Definition rgbaToGrayPixel (pixel : Color) : GrayPixel :=
  let a := alpha pixel in
  let gray := grayModel pixel in
  GrayPixel.mk gray (uint8_of_Z (Z.shiftr a 8)).

Record Rectangle : Type := mkRectangle { Min : Point; Max : Point }.

(** [image.Rect]: the corners are put in order. *)
Definition Rect (x0 y0 x1 y1 : Z) : Rectangle :=
  let '(x0, x1) := if x0 >? x1 then (x1, x0) else (x0, x1) in
  let '(y0, y1) := if y0 >? y1 then (y1, y0) else (y0, y1) in
  mkRectangle (mkPoint x0 y0) (mkPoint x1 y1).

Definition Dx (r : Rectangle) : Z := X (Max r) - X (Min r).
Definition Dy (r : Rectangle) : Z := Y (Max r) - Y (Min r).

(** [p.In(r)] *)
Definition PointIn (p : Point) (r : Rectangle) : bool :=
  (X (Min r) <=? X p) && (X p <? X (Max r)) && (Y (Min r) <=? Y p) && (Y p <? Y (Max r)).

(** [image.Gray] *)
Record Gray : Type := mkGray { Pix : list Z; Stride : Z; Bounds : Rectangle }.

(** [image.NewGray(r)] *)
Definition NewGray (r : Rectangle) : Gray :=
  mkGray (repeat 0 (Z.to_nat (Dx r * Dy r))) (Dx r) r.

Definition PixOffset (p : Gray) (x y : Z) : Z :=
  (y - Y (Min (Bounds p))) * Stride p + (x - X (Min (Bounds p))) * 1.

(** [p.SetGray(x, y, color.Gray{v})]: nothing happens outside the bounds. *)
Definition SetGray (p : Gray) (x y : Z) (v : Z) : result Gray :=
  if negb (PointIn (mkPoint x y) (Bounds p)) then Ok p
  else
    pix <- update (Pix p) (PixOffset p x y) v ;;
    Ok (mkGray pix (Stride p) (Bounds p)).

(** [p.At(x, y).RGBA()] on an [*image.Gray]. *)
Definition GrayAt (p : Gray) (x y : Z) : result Color :=
  if negb (PointIn (mkPoint x y) (Bounds p)) then Ok (GrayRGBA 0)
  else v <- index (Pix p) (PixOffset p x y) ;; Ok (GrayRGBA v).

Definition getImageFromArray (pixels : grid) : result Gray :=
  row0 <- index pixels 0 ;;
  let bounds := Rect 0 0 (len row0) (len pixels) in
  let img := NewGray bounds in
  foldM (fun img y =>
    row <- index pixels y ;;
    foldM (fun img x =>
      p <- at2 pixels y x ;;
      SetGray img x y (GrayPixel.y p))
    img (upto 0 (len row)))
  img (upto 0 (len pixels)).

(** [getPixelArray], from the decoded image on; the image is given by its
    bounds and its [At] method. *)
Definition getPixelArray (bounds : Rectangle) (at_ : Z -> Z -> result Color) : result grid :=
  let height := Y (Max bounds) in
  let width := X (Max bounds) in
  mapM (fun y =>
    mapM (fun x =>
      pixel <- at_ x y ;;
      let grayPixel := rgbaToGrayPixel pixel in
      Ok grayPixel)
    (upto 0 width))
  (upto 0 height).

(** ** File names (path/filepath), as far as main.go uses them

    A Go string is the sequence of its bytes. *)

Definition gostring : Type := list Z.

(** The bytes of the string [png]. *)
Definition png : gostring := [112; 110; 103].

Section Ext.

(** [os.IsPathSeparator], which depends on the platform. *)
Variable IsPathSeparator : Z -> bool.

(** The loop of [filepath.Ext], from the last byte down; [suffix] is
    [path[i+1:]], and 46 is the dot. *)
Fixpoint extScan (revPrefix : list Z) (suffix : gostring) : gostring :=
  match revPrefix with
  | [] => []
  | c :: rest =>
      if IsPathSeparator c then []
      else if c =? 46 then c :: suffix
      else extScan rest (c :: suffix)
  end.

Definition Ext (path : gostring) : gostring := extScan (rev path) [].

Inductive encoder : Type :=
| PngEncode
| JpegEncode (quality : Z).

(** The encoder that [writeImage] calls for an output path. *)
Definition writeImage_encoder (path : gostring) : encoder :=
  let ext := Ext path in
  if list_eq_dec Z.eq_dec ext png then PngEncode
  else JpegEncode 95.

End Ext.

(** * Loop bodies, stages and shapes

    Names for parts of the functions above, so that statements can refer to
    them.  Each is tied to the function it comes from by an equation proved
    below. *)

(** A grid of [h] rows, each of [w] cells. *)
Definition rect {A : Type} (g : list (list A)) (h w : Z) : Prop :=
  len g = h /\ forall row, In row g -> len row = w.

(** The intensity read at a cell, as a float64. *)
Definition intensityAt (pixels : grid) (y x : Z) : result Q :=
  currentPixel <- at2 pixels y x ;; Ok (inject_Z (GrayPixel.y currentPixel)).

(** The index that the accessors read on an axis of [n] cells for the window
    position [i] of a window centred at [pos]: the three-way branch of
    [getSorroundingPixelMatrix] and [getPixelVector]. *)
Definition sampledIndex (pos n i : Z) : Z :=
  if i <? 0 then pos + abs i
  else if i >=? n then let overlap := i - n + 1 in pos - overlap
  else i.

(** The nest [for y < n { row := rowOf y; for x < len(row) { append (cell y x) } }]. *)
Definition gridLoop {A B : Type} (rowOf : Z -> result (list A))
  (cell : Z -> Z -> result B) (n : Z) : result (list (list B)) :=
  mapM (fun y => row <- rowOf y ;; mapM (cell y) (upto 0 (len row))) (upto 0 n).

Definition sobel_X : Dense := mkDense 3 3 SOBEL_X.

Definition sobel_Y : Dense := mkDense 3 3 SOBEL_Y.

(** The pair of responses at a cell. *)
Definition sobelResponse (pixels : grid) (y x : Z) : result (Q * Q) :=
  imagePane <- getSorroundingPixelMatrix pixels y x 3 ;;
  sobelRes_X <- convolve imagePane sobel_X ;;
  sobelRes_Y <- convolve imagePane sobel_Y ;;
  Ok (sobelRes_X, sobelRes_Y).

Definition sobelField (pixels : grid) : result (list (list (Q * Q))) :=
  gridLoop (index pixels) (sobelResponse pixels) (len pixels).

Definition sobelPixel (r : Q * Q) : GrayPixel :=
  GrayPixel.mk (uint8_sqrt (fst r ^ 2 + snd r ^ 2)) 255.

Definition sobelAngle (r : Q * Q) : R := gradientAngle (fst r) (snd r).

(** The body of the loop nest, for the cell [(x, y)]. *)
Definition nmsCell (pixels : grid) (directions : list (list R)) (y x : Z)
  : result GrayPixel :=
  r <- at2 pixels y x ;;
  '(p, q) <- getPixelInGradientDirection pixels directions x y ;;
  if (GrayPixel.y p >? GrayPixel.y r) || (GrayPixel.y q >? GrayPixel.y r)
  then Ok (GrayPixel.mk 0 255)
  else Ok r.

Definition nmsCellHorizontal (pixels : grid) (y x : Z) : result GrayPixel :=
  r <- at2 pixels y x ;;
  '(p, q) <- (row0 <- index pixels 0 ;;
              readNeighbours pixels (len pixels) (len row0) x y (y, x + 1, y, x - 1)) ;;
  if (GrayPixel.y p >? GrayPixel.y r) || (GrayPixel.y q >? GrayPixel.y r)
  then Ok (GrayPixel.mk 0 255)
  else Ok r.

Definition nmsHorizontal (pixels : grid) : result grid :=
  gridLoop (fun _ => index pixels 0) (nmsCellHorizontal pixels) (len pixels).

Definition degenerate (r : Q * Q) : bool := Qeq_bool (fst r) 0 || Qeq_bool (snd r) 0.

(** The body of the loop nest at [(x, y)]. *)
Definition thresholdCell (high low : float) (y : Z)
  (st : grid * mapset.Set_ * mapset.Set_) (x : Z)
  : result (grid * mapset.Set_ * mapset.Set_) :=
  let '(pixels, strong, weak) := st in
  px <- at2 pixels y x ;;
  let pixVal := float64_of_uint8 (GrayPixel.y px) in
  if fgtb pixVal high then Ok (pixels, mapset.Add strong (mkPoint x y), weak)
  else if fgtb high pixVal && fgtb pixVal low
  then Ok (pixels, strong, mapset.Add weak (mkPoint x y))
  else
    pixels <- setY pixels y x 0 ;;
    Ok (pixels, strong, weak).

(** The body of the loop over the weak coordinates. *)
Definition trackPoint (st : grid * mapset.Set_) (weakPoint : Point)
  : result (grid * mapset.Set_) :=
  let '(pixels, strong) := st in
  neighbours <- getAdjacentPixels pixels (X weakPoint) (Y weakPoint) ;;
  let strong :=
    if mapset.Cardinality (mapset.Intersect strong neighbours) >? 0
    then mapset.Add strong weakPoint else strong in
  pixels <- setY pixels (Y weakPoint) (X weakPoint) 0 ;;
  Ok (pixels, strong).

(** The grid handed to the double threshold: blur (if asked), gradient,
    non-maximum suppression. *)
Definition suppressedMagnitudes (pixels : grid) (blur : bool) : result grid :=
  pixels <- (if blur then gaussianBlur pixels 5 else Ok pixels) ;;
  '(pixels, angles) <- sobel pixels ;;
  nonMaximumSuppression pixels angles.

(** The rest of the pipeline. *)
Definition thresholdAndTrack (pixels : grid) (minRatio maxRatio : float) : result grid :=
  max <- maxPixelValue pixels ;;
  let high := (maxRatio * float64_of_uint8 max)%float in
  let low := (minRatio * float64_of_uint8 max)%float in
  '(pixels, strong, weak) <- doublethreshold pixels high low ;;
  '(pixels, _) <- edgeTracking pixels strong weak ;;
  Ok pixels.

(** The 5-tap kernel: row 4 of Pascal's triangle over 16. *)
Definition kernel5 : VecDense := normalizeVec (map inject_Z [1; 4; 6; 4; 1]).

Definition blurCell (pixels : grid) (kernel : VecDense) (y x : Z) : result GrayPixel :=
  vecVert <- getPixelVector pixels y x (len kernel) VERTICAL ;;
  vecHor <- getPixelVector pixels y x (len kernel) HORIZONTAL ;;
  verticalSum <- innerProduct vecVert kernel ;;
  horizontalSum <- innerProduct vecHor kernel ;;
  let combinedRes :=
    uint8_sqrt (verticalSum * verticalSum + horizontalSum * horizontalSum) in
  Ok (GrayPixel.mk combinedRes 255).

(** The partial sums [C(n,0) + ... + C(n,m)] of a row of Pascal's triangle. *)
Fixpoint binomialSum (n m : nat) : Z :=
  match m with
  | O => binomial n 0
  | S m' => binomialSum n m' + binomial n m
  end.

(** * The vocabulary of the statements *)

(** The index that mirroring about the edge cell gives: [k] past the first
    cell is [k] after it, [k] past the last cell is [k] before it. *)
Definition mirrorFromEdge (n i : Z) : Z :=
  if i <? 0 then 0 + (0 - i)
  else if i >=? n then (n - 1) - (i - (n - 1))
  else i.

(** The claim as the specification words it, for the horizontal window of
    [getPixelVector]: every window position reads the cell that mirroring
    about the edge cell selects. *)
Definition vectorMirrorsEdge (pixels : grid) (posY posX length : Z) : Prop :=
  exists v row,
    index pixels posY = Ok row /\
    getPixelVector pixels posY posX length HORIZONTAL = Ok v /\
    forall k, 0 <= k < length ->
      exists p,
        at2 pixels posY (mirrorFromEdge (len row) (posX - Z.quot length 2 + k)) = Ok p /\
        index v k = Ok (inject_Z (GrayPixel.y p)).

(** What the accessors do: positions are resolved by [sampledIndex], on each
    axis by itself. *)
Definition accessorsReadSampled (pixels : grid) (h w posY posX length pad : Z) : Prop :=
  (exists m, getSorroundingPixelMatrix pixels posY posX length = Ok m /\
     Dims m = (length, length) /\
     forall r c, 0 <= r < length -> 0 <= c < length ->
       exists p, at2 pixels (sampledIndex posY h (posY - pad + r))
                            (sampledIndex posX w (posX - pad + c)) = Ok p /\
                 At m r c = Ok (inject_Z (GrayPixel.y p))) /\
  (exists v, getPixelVector pixels posY posX length HORIZONTAL = Ok v /\ len v = length /\
     forall k, 0 <= k < length ->
       exists p, at2 pixels posY (sampledIndex posX w (posX - pad + k)) = Ok p /\
                 index v k = Ok (inject_Z (GrayPixel.y p))) /\
  (exists v, getPixelVector pixels posY posX length VERTICAL = Ok v /\ len v = length /\
     forall k, 0 <= k < length ->
       exists p, at2 pixels (sampledIndex posY h (posY - pad + k)) posX = Ok p /\
                 index v k = Ok (inject_Z (GrayPixel.y p))).

(** The three cases of [sampledIndex] on an axis of [n] cells, centre [pos]:
    [k] past the first cell reads [pos + k], [k] past the last cell reads
    [pos - k], a position on the axis reads itself; the first two are the
    mirror image about the edge cell exactly when the centre is that cell. *)
Definition sampledIndexRule (pos n : Z) : Prop :=
  (forall k, 0 < k -> sampledIndex pos n (0 - k) = pos + k) /\
  (forall k, 0 < k -> sampledIndex pos n ((n - 1) + k) = pos - k) /\
  (forall i, 0 <= i < n -> sampledIndex pos n i = i) /\
  (forall k, 0 < k -> (sampledIndex pos n (0 - k) = mirrorFromEdge n (0 - k) <-> pos = 0)) /\
  (forall k, 0 < k ->
     (sampledIndex pos n ((n - 1) + k) = mirrorFromEdge n ((n - 1) + k) <-> pos = n - 1)).

Definition uniform (pixels : grid) (v : Z) : Prop :=
  forall row p, In row pixels -> In p row -> GrayPixel.y p = v.

(** The claim for one input: the stage returns a magnitude grid, zero at
    every pixel. *)
Definition gradientIsZero (pixels : grid) : Prop :=
  exists mag dirs, sobel pixels = Ok (mag, dirs) /\
    forall row p, In row mag -> In p row -> GrayPixel.y p = 0.

(** The property of a magnitude grid and a direction field that C7 claims:
    all directions lie in the range and the range panic cannot be raised. *)
Definition directionsValid (mag : grid) (dirs : list (list R)) : Prop :=
  (forall y x d, at2 dirs y x = Ok d -> (-90 <= d <= 90)%R) /\
  (forall x y, getPixelInGradientDirection mag dirs x y <> Panic InvalidDirection) /\
  nonMaximumSuppression mag dirs <> Panic InvalidDirection.

(** What holds of every pixel [o] of the output at [(x, y)], where [r] is the
    input pixel there and [p], [q] the two neighbours selected by the
    direction. *)
Definition nmsPixelRule (pixels : grid) (directions : list (list R)) (out : grid) : Prop :=
  forall y x o, at2 out y x = Ok o ->
    exists r p q,
      at2 pixels y x = Ok r /\
      getPixelInGradientDirection pixels directions x y = Ok (p, q) /\
      ((GrayPixel.y p > GrayPixel.y r \/ GrayPixel.y q > GrayPixel.y r) /\
         o = GrayPixel.mk 0 255
       \/
       (GrayPixel.y p <= GrayPixel.y r /\ GrayPixel.y q <= GrayPixel.y r) /\ o = r) /\
      (GrayPixel.y o = 0 \/ GrayPixel.y o = GrayPixel.y r) /\
      (uint8 (GrayPixel.y r) -> GrayPixel.y o <= GrayPixel.y r).

(** The three outcomes for the pixel [p] found at [(x, y)] of the input, in
    terms of the grid and the two sets that the stage returns. *)
Definition keptStrong (out : grid * mapset.Set_ * mapset.Set_) (x y : Z) (p : GrayPixel) :=
  let '(pixels', strong, weak) := out in
  In (mkPoint x y) strong /\ ~ In (mkPoint x y) weak /\ at2 pixels' y x = Ok p.

Definition keptWeak (out : grid * mapset.Set_ * mapset.Set_) (x y : Z) (p : GrayPixel) :=
  let '(pixels', strong, weak) := out in
  In (mkPoint x y) weak /\ ~ In (mkPoint x y) strong /\ at2 pixels' y x = Ok p.

Definition zeroed (out : grid * mapset.Set_ * mapset.Set_) (x y : Z) (p : GrayPixel) :=
  let '(pixels', strong, weak) := out in
  ~ In (mkPoint x y) strong /\ ~ In (mkPoint x y) weak /\
  at2 pixels' y x = Ok (GrayPixel.mk 0 (GrayPixel.a p)).

(** The branch taken for a magnitude [m], with the comparisons of the source. *)
Definition thresholdOutcome (high low : float) (out : grid * mapset.Set_ * mapset.Set_)
  (x y : Z) (p : GrayPixel) : Prop :=
  let m := float64_of_uint8 (GrayPixel.y p) in
  if fgtb m high then keptStrong out x y p
  else if fgtb high m && fgtb m low then keptWeak out x y p
  else zeroed out x y p.

(** The state of the loops when the cells in [done] have been visited. *)
Definition thresholdInv (pixels : grid) (h w : Z) (high low : float)
  (done : Z -> Z -> Prop) (st : grid * mapset.Set_ * mapset.Set_) : Prop :=
  rect (fst (fst st)) h w /\
  (forall pt, In pt (snd (fst st)) \/ In pt (snd st) ->
     exists p, at2 pixels (Y pt) (X pt) = Ok p) /\
  forall x y p, at2 pixels y x = Ok p ->
    (~ done x y ->
       at2 (fst (fst st)) y x = Ok p /\
       ~ In (mkPoint x y) (snd (fst st)) /\ ~ In (mkPoint x y) (snd st)) /\
    (done x y -> thresholdOutcome high low st x y p).

(** The claim's last clause, for one input: a magnitude equal to either
    threshold is zeroed and belongs to neither set. *)
Definition boundaryIsSuppressed (pixels : grid) (high low : float) : Prop :=
  exists out, doublethreshold pixels high low = Ok out /\
    forall x y p, at2 pixels y x = Ok p ->
      (float64_of_uint8 (GrayPixel.y p) =? high)%float = true \/
      (float64_of_uint8 (GrayPixel.y p) =? low)%float = true ->
      zeroed out x y p.

(** The classification of the pixel [p] at [(x, y)], by the float64
    comparisons of its magnitude [m]: Strong when [m > high]; Weak when
    [high > m] and [m > low]; zeroed otherwise. *)
Definition thresholdRule (high low : float) (out : grid * mapset.Set_ * mapset.Set_)
  (x y : Z) (p : GrayPixel) : Prop :=
  let m := float64_of_uint8 (GrayPixel.y p) in
  (fgtb m high = true /\ keptStrong out x y p) \/
  (fgtb m high = false /\ fgtb high m = true /\ fgtb m low = true /\ keptWeak out x y p) \/
  (fgtb m high = false /\ (fgtb high m = false \/ fgtb m low = false) /\ zeroed out x y p).

Definition exclusiveOutcomes (out : grid * mapset.Set_ * mapset.Set_)
  (x y : Z) (p : GrayPixel) : Prop :=
  ~ (keptStrong out x y p /\ keptWeak out x y p) /\
  ~ (keptStrong out x y p /\ zeroed out x y p) /\
  ~ (keptWeak out x y p /\ zeroed out x y p).

Definition thresholdPartition (pixels : grid) (high low : float)
  (out : grid * mapset.Set_ * mapset.Set_) : Prop :=
  (forall pt, In pt (snd (fst out)) \/ In pt (snd out) ->
     exists p, at2 pixels (Y pt) (X pt) = Ok p) /\
  forall x y p, at2 pixels y x = Ok p ->
    let m := float64_of_uint8 (GrayPixel.y p) in
    thresholdRule high low out x y p /\
    exclusiveOutcomes out x y p /\
    ((m =? high)%float = true -> zeroed out x y p) /\
    ((m =? low)%float = true -> fgtb m high = false -> zeroed out x y p) /\
    ((m =? low)%float = true -> fgtb m high = true -> keptStrong out x y p).

(** The claim for one input: the returned grid is binary. *)
Definition binaryOutput (pixels : grid) (blur : bool) (minRatio maxRatio : float) : Prop :=
  isValidRatioValue minRatio = true -> isValidRatioValue maxRatio = true ->
  forall out, CannyEdgeDetect pixels blur minRatio maxRatio = Ok out ->
    forall row p, In row out -> In p row -> GrayPixel.y p = 0 \/ GrayPixel.y p = 255.

(** What the pipeline returns, relative to the grid [nms] of suppressed
    magnitudes and their maximum: the pixels strictly above
    [maxRatio * max], unchanged, and intensity 0 elsewhere; so every
    returned pixel is the suppressed pixel at its coordinate, or that pixel
    with intensity 0. *)
Definition strongKeptElseZero (pixels : grid) (blur : bool) (maxRatio : float) (out : grid)
  : Prop :=
  exists nms max,
    suppressedMagnitudes pixels blur = Ok nms /\
    maxPixelValue nms = Ok max /\
    len out = len nms /\
    (forall x y o, at2 out y x = Ok o ->
       exists p, at2 nms y x = Ok p /\ (o = p \/ o = GrayPixel.mk 0 (GrayPixel.a p))) /\
    forall x y p, at2 nms y x = Ok p ->
      let high := (maxRatio * float64_of_uint8 max)%float in
      let m := float64_of_uint8 (GrayPixel.y p) in
      (fgtb m high = true -> at2 out y x = Ok p) /\
      (fgtb m high = false -> at2 out y x = Ok (GrayPixel.mk 0 (GrayPixel.a p))).

Definition allOpaque (g : grid) : Prop :=
  forall row p, In row g -> In p row -> GrayPixel.a p = 255.

(** The 8-connected neighbourhood of [(x, y)], clipped to a grid of
    [width] by [height] cells. *)
Definition adjacent8 (width height x y : Z) (pt : Point) : bool :=
  negb (Point_eqb pt (mkPoint x y)) &&
  (Z.abs (X pt - x) <=? 1) && (Z.abs (Y pt - y) <=? 1) &&
  (0 <=? X pt) && (X pt <? width) && (0 <=? Y pt) && (Y pt <? height).

(** [m] is the largest intensity of the grid, or 0 when no intensity is
    positive. *)
Definition isMaximumOf (pixels : grid) (m : Z) : Prop :=
  0 <= m /\
  (forall y x p, at2 pixels y x = Ok p -> GrayPixel.y p <= m) /\
  (m = 0 \/ exists y x p, at2 pixels y x = Ok p /\ GrayPixel.y p = m).

(** A set that holds the upper-left diagonal neighbour of [(x, y)] and
    nothing else. *)
Definition upperLeftOnly (width height x y : Z) (s : mapset.Set_) : Prop :=
  (forall pt, In pt s <->
     pt = mkPoint (x - 1) (y - 1) /\ 1 <= x <= width /\ 1 <= y <= height) /\
  mapset.Cardinality s <= 1.

(** [strong'] extends [strong] by weak coordinates only, each with its
    upper-left diagonal neighbour in [strong']. *)
Definition grownWithin (strong weak strong' : mapset.Set_) : Prop :=
  forall pt,
    (In pt strong -> In pt strong') /\
    (In pt strong' ->
       In pt strong \/ (In pt weak /\ In (mkPoint (X pt - 1) (Y pt - 1)) strong')).

(** The intensity at [(y, x)]; 0 where the grid has no pixel. *)
Definition intensity (pixels : grid) (y x : Z) : Z :=
  match at2 pixels y x with Ok p => GrayPixel.y p | Panic _ => 0 end.

(** The horizontal Sobel sum of a neighbourhood [I dy dx]: the left column
    minus the right column, with weights 1, 2, 1. *)
Definition sobelSumX (I : Z -> Z -> Z) : Z :=
  (I (-1) (-1) + 2 * I 0 (-1) + I 1 (-1)) - (I (-1) 1 + 2 * I 0 1 + I 1 1).

(** The vertical Sobel sum: the top row minus the bottom row. *)
Definition sobelSumY (I : Z -> Z -> Z) : Z :=
  (I (-1) (-1) + 2 * I (-1) 0 + I (-1) 1) - (I 1 (-1) + 2 * I 1 0 + I 1 1).

(** The neighbourhood that the gradient stage reads around [(y, x)]. *)
Definition window (pixels : grid) (h w y x : Z) (dy dx : Z) : Z :=
  intensity pixels (sampledIndex y h (y + dy)) (sampledIndex x w (x + dx)).

Definition onBorder (h w y x : Z) : Prop := x = 0 \/ x = w - 1 \/ y = 0 \/ y = h - 1.

Definition atCorner (h w y x : Z) : Prop := (x = 0 \/ x = w - 1) /\ (y = 0 \/ y = h - 1).

(** Every intensity is 0. *)
Definition blank (g : grid) : Prop :=
  forall row p, In row g -> In p row -> GrayPixel.y p = 0.

(** Every pixel of the grid is [q]. *)
Definition allPixels (g : grid) (q : GrayPixel) : Prop :=
  forall row p, In row g -> In p row -> p = q.

(** A kernel of [n + 1] weights that sum to 1, each positive, equal to its
    mirror image and to [C(n, i) / 2^n]. *)
Definition gaussianKernel (kernel : VecDense) (n : Z) : Prop :=
  len kernel = n + 1 /\
  (fold_left Qplus kernel 0 == 1)%Q /\
  forall i, 0 <= i <= n ->
    exists q, index kernel i = Ok q /\ index kernel (n - i) = Ok q /\ (0 < q)%Q /\
      (q == inject_Z (binomial (Z.to_nat n) (Z.to_nat i)) / inject_Z (2 ^ n))%Q.

(** The pixel [r] at [(y, x)] is at least as bright as every pixel of the
    grid next to it. *)
Definition localMaximum (pixels : grid) (y x : Z) (r : GrayPixel) : Prop :=
  forall y' x' p, Z.abs (y' - y) <= 1 -> Z.abs (x' - x) <= 1 ->
    at2 pixels y' x' = Ok p -> GrayPixel.y p <= GrayPixel.y r.

(** Where the 5-tap blur returns and where it panics. *)
Definition blurDomain (pixels : grid) (h w : Z) : Prop :=
  (3 <= h /\ 3 <= w ->
     exists out, gaussianBlur pixels 5 = Ok out /\ rect out h w /\ allOpaque out) /\
  (h < 3 \/ w < 3 -> gaussianBlur pixels 5 = Panic IndexOutOfRange).

(** Where the gradient stage returns and where it panics. *)
Definition sobelDomain (pixels : grid) (h w : Z) : Prop :=
  (2 <= h /\ 2 <= w ->
     exists mag dirs, sobel pixels = Ok (mag, dirs) /\ rect mag h w /\ rect dirs h w /\
       allOpaque mag) /\
  (h = 1 \/ w = 1 -> sobel pixels = Panic IndexOutOfRange).

(** Both runs of hysteresis return, with one and the same grid. *)
Definition sameGridFor (pixels : grid) (strong1 strong2 weak1 weak2 : mapset.Set_) : Prop :=
  exists out s1 s2,
    edgeTracking pixels strong1 weak1 = Ok (out, s1) /\
    edgeTracking pixels strong2 weak2 = Ok (out, s2).

(** The grid with every alpha replaced by 255. *)
Definition opaqueCopy (pixels : grid) : grid :=
  map (map (fun p => GrayPixel.mk (GrayPixel.y p) 255)) pixels.

(** Every intensity is a [uint8]. *)
Definition uint8Grid (pixels : grid) : Prop :=
  forall row p, In row pixels -> In p row -> uint8 (GrayPixel.y p).

(** Writing a grid into an image and reading the image back. *)
Definition roundTrip (pixels : grid) : Prop :=
  exists img, getImageFromArray pixels = Ok img /\
    getPixelArray (Bounds img) (GrayAt img) = Ok (opaqueCopy pixels).

(** The state of the image when the cells in [done] have been written. *)
Definition imageInv (pixels : grid) (h w : Z) (done : Z -> Z -> Prop) (img : Gray) : Prop :=
  Bounds img = mkRectangle (mkPoint 0 0) (mkPoint w h) /\
  Stride img = w /\ len (Pix img) = w * h /\
  forall y x p, done y x -> at2 pixels y x = Ok p ->
    index (Pix img) (y * w + x) = Ok (GrayPixel.y p).

(** The grid that hysteresis leaves: intensity 0 at the weak coordinates,
    the input pixel elsewhere. *)
Definition weakZeroed (pixels : grid) (weak : mapset.Set_) (out : grid) : Prop :=
  forall x y p, at2 pixels y x = Ok p ->
    (In (mkPoint x y) weak -> at2 out y x = Ok (GrayPixel.mk 0 (GrayPixel.a p))) /\
    (~ In (mkPoint x y) weak -> at2 out y x = Ok p).

(** * Example grids *)

Definition px (v : Z) : GrayPixel := GrayPixel.mk v 255.

Definition row5 : grid := [[px 10; px 20; px 30; px 40; px 50]].

Definition spot3 : grid :=
  [[px 0; px 0; px 0]; [px 0; px 255; px 0]; [px 0; px 0; px 0]].

Definition flat2 : grid := [[px 9; px 9]; [px 9; px 9]].

(** A vertical step edge: two dark columns and a bright one. *)
Definition edge3 : grid :=
  [[px 0; px 0; px 40]; [px 0; px 0; px 40]; [px 0; px 0; px 40]].

Definition edge3_field : list (list (Q * Q)) :=
  [[(0 # 1, 0 # 1); (-160 # 1, 0 # 1); (0 # 1, 0 # 1)];
   [(0 # 1, 0 # 1); (-160 # 1, 0 # 1); (0 # 1, 0 # 1)];
   [(0 # 1, 0 # 1); (-160 # 1, 0 # 1); (0 # 1, 0 # 1)]]%Q.

(** The magnitudes of [edge3], before and after suppression. *)
Definition edge3_nms : grid :=
  [[px 0; px 160; px 0]; [px 0; px 160; px 0]; [px 0; px 160; px 0]].

(** An input with alpha values other than 255. *)
Definition edge3_translucent : grid :=
  [[GrayPixel.mk 0 7; GrayPixel.mk 0 0; GrayPixel.mk 40 128];
   [GrayPixel.mk 0 255; GrayPixel.mk 0 90; GrayPixel.mk 40 1];
   [GrayPixel.mk 0 3; GrayPixel.mk 0 200; GrayPixel.mk 40 64]].

Definition spot3_tracked : grid :=
  [[px 0; px 0; px 0]; [px 0; GrayPixel.mk 0 255; px 0]; [px 0; px 0; px 0]].

(** The binary64 values of the literals [0.2] and [0.6]. *)
Definition ratio_0_2 : float := 0x1.999999999999ap-3.

Definition ratio_0_6 : float := 0x1.3333333333333p-1.

Definition blank3 : grid :=
  [[px 0; px 0; px 0]; [px 0; px 0; px 0]; [px 0; px 0; px 0]].

Definition blank3_field : list (list (Q * Q)) :=
  [[(0 # 1, 0 # 1); (0 # 1, 0 # 1); (0 # 1, 0 # 1)];
   [(0 # 1, 0 # 1); (0 # 1, 0 # 1); (0 # 1, 0 # 1)];
   [(0 # 1, 0 # 1); (0 # 1, 0 # 1); (0 # 1, 0 # 1)]]%Q.

(** The scenario as the claim states it: the centre comes out at 255, the
    eight border pixels at 0. *)
Definition spotSurvives : Prop :=
  exists out, CannyEdgeDetect spot3 false ratio_0_2 ratio_0_6 = Ok out /\
    (exists c, at2 out 1 1 = Ok c /\ GrayPixel.y c = 255) /\
    forall x y p, (x, y) <> (1, 1) -> at2 out y x = Ok p -> GrayPixel.y p = 0.

(** A flat 3x3 image. *)
Definition flat3 : grid :=
  [[px 100; px 100; px 100]; [px 100; px 100; px 100]; [px 100; px 100; px 100]].

(** * Properties *)

(** ** The error monad and loops *)

Lemma bind_Ok {A B : Type} (m : result A) (k : A -> result B) (v : B) :
  bind m k = Ok v -> exists u, m = Ok u /\ k u = Ok v.
Proof.
  destruct m as [u|e]; simpl; intros H; [eauto | discriminate].
Qed.

Lemma bind_Panic {A B : Type} (m : result A) (k : A -> result B) (e : panic) :
  bind m k = Panic e -> m = Panic e \/ exists u, m = Ok u /\ k u = Panic e.
Proof.
  destruct m as [u|e']; simpl; intros H; [right; eauto | left; congruence].
Qed.

(** Splits a hypothesis [bind m k = Ok v] into its two steps. *)
Ltac inv_bind H :=
  let u := fresh "u" in
  let Hm := fresh "Hm" in
  apply bind_Ok in H; destruct H as (u & Hm & H).

Lemma mapM_ext {A B : Type} (f g : A -> result B) (l : list A) :
  (forall x, In x l -> f x = g x) -> mapM f l = mapM g l.
Proof.
  induction l as [|x l IH]; simpl; intros H; [reflexivity|].
  rewrite (H x) by auto. rewrite IH by auto. reflexivity.
Qed.

Lemma mapM_Forall2 {A B : Type} (f : A -> result B) (l : list A) (vs : list B) :
  mapM f l = Ok vs <-> Forall2 (fun x v => f x = Ok v) l vs.
Proof.
  revert vs; induction l as [|x l IH]; simpl; intros vs.
  - split; intros H; [injection H as <-; constructor | inversion H; reflexivity].
  - split; intros H.
    + inv_bind H. inv_bind H. injection H as <-.
      constructor; [assumption | apply IH; assumption].
    + inversion H as [|? v ? vs' Hx Hl]; subst.
      rewrite Hx; simpl. apply IH in Hl. rewrite Hl. reflexivity.
Qed.

Lemma mapM_length {A B : Type} (f : A -> result B) (l : list A) (vs : list B) :
  mapM f l = Ok vs -> length vs = length l.
Proof.
  intros H; apply mapM_Forall2 in H. symmetry; eapply Forall2_length; eassumption.
Qed.

Lemma mapM_Panic {A B : Type} (f : A -> result B) (l : list A) (e : panic) :
  mapM f l = Panic e -> exists x, In x l /\ f x = Panic e.
Proof.
  induction l as [|x l IH]; simpl; intros H; [discriminate|].
  apply bind_Panic in H as [H | (v & Hv & H)]; [exists x; auto|].
  apply bind_Panic in H as [H | (vs & _ & H)]; [|discriminate].
  destruct (IH H) as (x' & Hin & Hx'). exists x'; auto.
Qed.

Lemma mapM_total {A B : Type} (f : A -> result B) (l : list A) :
  (forall x, In x l -> exists v, f x = Ok v) -> exists vs, mapM f l = Ok vs.
Proof.
  induction l as [|x l IH]; simpl; intros H; [eauto|].
  destruct (H x) as (v & Hv); [auto|]. destruct IH as (vs & Hvs); [auto|].
  rewrite Hv, Hvs; simpl; eauto.
Qed.

Lemma mapM_In {A B : Type} (f : A -> result B) (l : list A) (vs : list B) (v : B) :
  mapM f l = Ok vs -> In v vs -> exists x, In x l /\ f x = Ok v.
Proof.
  intros H; apply mapM_Forall2 in H. induction H as [|x w l vs Hx _ IH]; simpl.
  - intros [].
  - intros [<- | Hin]; [exists x; auto|].
    destruct (IH Hin) as (x' & ? & ?); exists x'; auto.
Qed.

(** A loop whose body ends in a pure step. *)
Lemma mapM_fmap {A B C : Type} (f : A -> result B) (g : B -> C) (l : list A) :
  mapM (fun x => v <- f x ;; Ok (g v)) l = (vs <- mapM f l ;; Ok (map g vs)).
Proof.
  induction l as [|x l IH]; simpl; [reflexivity|].
  destruct (f x) as [v|e]; simpl; [|reflexivity].
  rewrite IH. destruct (mapM f l); reflexivity.
Qed.

Lemma foldM_ext {A S : Type} (f g : S -> A -> result S) (l : list A) (s : S) :
  (forall s x, In x l -> f s x = g s x) -> foldM f s l = foldM g s l.
Proof.
  revert s; induction l as [|x l IH]; simpl; intros s H; [reflexivity|].
  rewrite (H s x) by auto. destruct (g s x); simpl; [apply IH; auto | reflexivity].
Qed.

Lemma foldM_app {A S : Type} (f : S -> A -> result S) (l1 l2 : list A) (s : S) :
  foldM f s (l1 ++ l2) = (s' <- foldM f s l1 ;; foldM f s' l2).
Proof.
  revert s; induction l1 as [|x l1 IH]; simpl; intros s; [reflexivity|].
  destruct (f s x); simpl; [apply IH | reflexivity].
Qed.

(** ** Loop counters and slices *)

Lemma zrange_In (lo : Z) (n : nat) (i : Z) :
  In i (zrange lo n) <-> lo <= i < lo + Z.of_nat n.
Proof.
  unfold zrange. rewrite in_map_iff. split.
  - intros (k & <- & Hk). apply in_seq in Hk. lia.
  - intros H. exists (Z.to_nat (i - lo)). split; [lia|]. apply in_seq. lia.
Qed.

Lemma upto_In (lo hi i : Z) : In i (upto lo hi) <-> lo <= i < hi.
Proof. unfold upto. rewrite zrange_In. lia. Qed.

Lemma through_In (lo hi i : Z) : In i (through lo hi) <-> lo <= i <= hi.
Proof. unfold through. rewrite zrange_In. lia. Qed.

Lemma zrange_length (lo : Z) (n : nat) : length (zrange lo n) = n.
Proof. unfold zrange. rewrite length_map, length_seq. reflexivity. Qed.

Lemma zrange_nth (lo : Z) (n k : nat) :
  (k < n)%nat -> nth_error (zrange lo n) k = Some (lo + Z.of_nat k).
Proof.
  intros H. unfold zrange. rewrite nth_error_map, nth_error_seq.
  destruct (Nat.ltb_spec k n); [reflexivity | lia].
Qed.

Lemma zrange_succ (lo : Z) (n : nat) : zrange lo (S n) = zrange lo n ++ [lo + Z.of_nat n].
Proof. unfold zrange. rewrite seq_S, map_app. reflexivity. Qed.

Lemma index_Ok {A : Type} (l : list A) (i : Z) (v : A) :
  index l i = Ok v <-> 0 <= i /\ nth_error l (Z.to_nat i) = Some v.
Proof.
  unfold index. destruct (Z.ltb_spec i 0).
  - split; [discriminate | lia].
  - destruct (nth_error l (Z.to_nat i)) as [w|]; split.
    + intros [= ->]; auto.
    + intros [_ [= ->]]; reflexivity.
    + discriminate.
    + intros [_ ?]; discriminate.
Qed.

Lemma index_bounds {A : Type} (l : list A) (i : Z) (v : A) :
  index l i = Ok v -> 0 <= i < len l.
Proof.
  intros H; apply index_Ok in H as [H0 H]. split; [assumption|].
  assert (Hlt : (Z.to_nat i < length l)%nat) by (apply nth_error_Some; congruence).
  unfold len; lia.
Qed.

Lemma index_total {A : Type} (l : list A) (i : Z) :
  0 <= i < len l -> exists v, index l i = Ok v.
Proof.
  unfold len; intros H. destruct (nth_error l (Z.to_nat i)) as [v|] eqn:E.
  - exists v. apply index_Ok; split; [lia | assumption].
  - apply nth_error_None in E. lia.
Qed.

Lemma index_Panic {A : Type} (l : list A) (i : Z) (e : panic) :
  index l i = Panic e -> e = IndexOutOfRange.
Proof.
  unfold index. destruct (i <? 0); [congruence|].
  destruct (nth_error l (Z.to_nat i)); congruence.
Qed.

Lemma index_In {A : Type} (l : list A) (i : Z) (v : A) : index l i = Ok v -> In v l.
Proof. intros H; apply index_Ok in H as [_ H]. eapply nth_error_In; eassumption. Qed.

Lemma In_index {A : Type} (l : list A) (v : A) : In v l -> exists i, index l i = Ok v.
Proof.
  intros H. apply In_nth_error in H as (n & Hn). exists (Z.of_nat n).
  apply index_Ok. rewrite Nat2Z.id. split; [lia | assumption].
Qed.

Lemma index_map {A B : Type} (g : A -> B) (l : list A) (i : Z) :
  index (map g l) i = (v <- index l i ;; Ok (g v)).
Proof.
  unfold index. destruct (i <? 0); [reflexivity|].
  rewrite nth_error_map. destruct (nth_error l (Z.to_nat i)); reflexivity.
Qed.

Lemma len_nonneg {A : Type} (l : list A) : 0 <= len l.
Proof. unfold len; lia. Qed.

Lemma len_map {A B : Type} (g : A -> B) (l : list A) : len (map g l) = len l.
Proof. unfold len. rewrite length_map. reflexivity. Qed.

Lemma Forall2_nth_r {A B : Type} (P : A -> B -> Prop) (l : list A) (vs : list B) :
  Forall2 P l vs ->
  forall n v, nth_error vs n = Some v -> exists x, nth_error l n = Some x /\ P x v.
Proof.
  induction 1 as [|x w l vs Hx _ IH]; intros n v Hn.
  - destruct n; discriminate.
  - destruct n as [|n]; simpl in *; [injection Hn as <-; eauto | eauto].
Qed.

Lemma Forall2_nth_l {A B : Type} (P : A -> B -> Prop) (l : list A) (vs : list B) :
  Forall2 P l vs ->
  forall n x, nth_error l n = Some x -> exists v, nth_error vs n = Some v /\ P x v.
Proof.
  induction 1 as [|x w l vs Hx _ IH]; intros n u Hn.
  - destruct n; discriminate.
  - destruct n as [|n]; simpl in *; [injection Hn as <-; eauto | eauto].
Qed.

(** What a counting loop has appended at position [i] is the value of its
    body at [i]. *)
Lemma mapM_upto_index {B : Type} (f : Z -> result B) (n : Z) (vs : list B) :
  mapM f (upto 0 n) = Ok vs ->
  forall i v, index vs i = Ok v <-> (0 <= i < n /\ f i = Ok v).
Proof.
  intros H i v. apply mapM_Forall2 in H. split.
  - intros Hi. pose proof (index_bounds _ _ _ Hi) as Hb.
    apply index_Ok in Hi as [_ Hi].
    destruct (Forall2_nth_r _ _ _ H _ _ Hi) as (j & Hj & Hf).
    assert (Hlen : length (upto 0 n) = length vs) by (eapply Forall2_length; eassumption).
    unfold upto in Hj, Hlen. rewrite zrange_length in Hlen.
    rewrite zrange_nth in Hj by (unfold len in Hb; lia).
    injection Hj as <-. rewrite Z2Nat.id in Hf by lia.
    split; [unfold len in Hb; lia | exact Hf].
  - intros [Hb Hf].
    assert (Hj : nth_error (upto 0 n) (Z.to_nat i) = Some i).
    { unfold upto. rewrite zrange_nth by lia. f_equal; lia. }
    destruct (Forall2_nth_l _ _ _ H _ _ Hj) as (w & Hw & Hfw).
    apply index_Ok. split; [lia|]. congruence.
Qed.

Lemma mapM_upto_len {B : Type} (f : Z -> result B) (n : Z) (vs : list B) :
  mapM f (upto 0 n) = Ok vs -> len vs = Z.max 0 n.
Proof.
  intros H. apply mapM_length in H. unfold len, upto in *.
  rewrite zrange_length in H. lia.
Qed.

(** ** Convolution *)

Lemma Qmult_comm_eq (u v : Q) : (u * v)%Q = (v * u)%Q.
Proof.
  destruct u as [un ud], v as [vn vd]. unfold Qmult; simpl.
  f_equal; [apply Z.mul_comm | apply Pos.mul_comm].
Qed.

(** Entries read at the same place of two matrices of one shape: the reads
    fail together or not at all, whichever comes first. *)
Lemma At_pair_comm (m1 m2 : Dense) (i j : Z) (acc : Q) :
  rows m1 = rows m2 -> cols m1 = cols m2 ->
  (v1 <- At m1 i j ;; v2 <- At m2 i j ;; Ok (acc + v1 * v2)%Q) =
  (v2 <- At m2 i j ;; v1 <- At m1 i j ;; Ok (acc + v2 * v1)%Q).
Proof.
  intros Hr Hc. unfold At. rewrite Hr, Hc.
  destruct ((i <? 0) || (rows m2 <=? i)); [reflexivity|].
  destruct ((j <? 0) || (cols m2 <=? j)); [reflexivity|].
  destruct (index (data m1) (i * cols m2 + j)) as [v1|e1] eqn:E1;
    destruct (index (data m2) (i * cols m2 + j)) as [v2|e2] eqn:E2; simpl.
  - rewrite Qmult_comm_eq. reflexivity.
  - reflexivity.
  - reflexivity.
  - apply index_Panic in E1, E2. congruence.
Qed.

(** C9. Convolution is commutative: [convolve A B] and [convolve B A] are the
    same outcome for all matrices, the same sum of elementwise products when
    the shapes agree and the same panic when they do not. *)
Theorem convolve_comm (A B : Dense) : convolve A B = convolve B A.
Proof.
  unfold convolve, Dims.
  destruct (Z.eqb_spec (rows A) (rows B)) as [Hr|Hr];
    destruct (Z.eqb_spec (cols A) (cols B)) as [Hc|Hc]; simpl.
  - rewrite (proj2 (Z.eqb_eq _ _) (eq_sym Hr)), (proj2 (Z.eqb_eq _ _) (eq_sym Hc)).
    simpl. rewrite <- Hr, <- Hc.
    apply foldM_ext; intros acc i _.
    apply foldM_ext; intros acc' j _.
    apply At_pair_comm; assumption.
  - rewrite (proj2 (Z.eqb_eq _ _) (eq_sym Hr)). simpl.
    destruct (Z.eqb_spec (cols B) (cols A)); [congruence | reflexivity].
  - destruct (Z.eqb_spec (rows B) (rows A)); [congruence | reflexivity].
  - destruct (Z.eqb_spec (rows B) (rows A)); [congruence | reflexivity].
Qed.

(** The sum is defined on well-formed operands of one shape. *)
Lemma foldM_total {A S : Type} (f : S -> A -> result S) (l : list A) :
  (forall s x, In x l -> exists s', f s x = Ok s') ->
  forall s, exists s', foldM f s l = Ok s'.
Proof.
  induction l as [|x l IH]; simpl; intros H s; [eauto|].
  destruct (H s x) as (s1 & Hs1); [auto|]. rewrite Hs1; simpl. apply IH; auto.
Qed.

Lemma At_total (m : Dense) (i j : Z) :
  len (data m) = rows m * cols m -> 0 <= i < rows m -> 0 <= j < cols m ->
  exists v, At m i j = Ok v.
Proof.
  intros Hlen Hi Hj. unfold At.
  destruct (Z.ltb_spec i 0); [lia|]. destruct (Z.leb_spec (rows m) i); [lia|].
  destruct (Z.ltb_spec j 0); [lia|]. destruct (Z.leb_spec (cols m) j); [lia|].
  simpl. apply index_total. rewrite Hlen. nia.
Qed.

Lemma convolve_total (A B : Dense) :
  Dims A = Dims B ->
  len (data A) = rows A * cols A -> len (data B) = rows B * cols B ->
  exists v, convolve A B = Ok v.
Proof.
  unfold Dims; intros [= Hr Hc] HA HB. unfold convolve, Dims.
  rewrite Hr, Hc, !Z.eqb_refl. simpl.
  apply foldM_total; intros acc i Hi. apply foldM_total; intros acc' j Hj.
  apply upto_In in Hi, Hj.
  destruct (@At_total A i j) as (v1 & ->); [assumption | lia | lia |].
  destruct (@At_total B i j) as (v2 & ->); [assumption | lia | lia |].
  simpl; eauto.
Qed.

(** ** Sampling with padding *)

Lemma zrange_shift (lo : Z) (n : nat) : zrange lo n = map (fun k => lo + k) (zrange 0 n).
Proof.
  unfold zrange. rewrite map_map. apply map_ext. intros k; lia.
Qed.

Lemma through_upto (lo hi : Z) : through lo hi = map (fun k => lo + k) (upto 0 (hi - lo + 1)).
Proof.
  unfold through, upto. rewrite zrange_shift. do 2 f_equal. lia.
Qed.

Lemma mapM_map {A B C : Type} (f : B -> result C) (h : A -> B) (l : list A) :
  mapM f (map h l) = mapM (fun x => f (h x)) l.
Proof.
  induction l as [|x l IH]; simpl; [reflexivity|]. rewrite IH. reflexivity.
Qed.

Lemma mapM_through_index {B : Type} (f : Z -> result B) (lo hi : Z) (vs : list B) :
  mapM f (through lo hi) = Ok vs ->
  forall k v, index vs k = Ok v <-> (0 <= k < hi - lo + 1 /\ f (lo + k) = Ok v).
Proof.
  rewrite through_upto, mapM_map. intros H k v.
  apply (mapM_upto_index (fun k => f (lo + k)) _ _ H).
Qed.

Lemma mapM_through_len {B : Type} (f : Z -> result B) (lo hi : Z) (vs : list B) :
  mapM f (through lo hi) = Ok vs -> len vs = Z.max 0 (hi - lo + 1).
Proof.
  rewrite through_upto, mapM_map. apply mapM_upto_len.
Qed.

Lemma index_nil {A : Type} (i : Z) : index (@nil A) i = Panic IndexOutOfRange.
Proof. unfold index. destruct (i <? 0); [reflexivity|]. destruct (Z.to_nat i); reflexivity. Qed.

Lemma index_app_l {A : Type} (l1 l2 : list A) (i : Z) :
  i < len l1 -> index (l1 ++ l2) i = index l1 i.
Proof.
  unfold index, len. intros H. destruct (Z.ltb_spec i 0); [reflexivity|].
  rewrite nth_error_app1 by lia. reflexivity.
Qed.

Lemma index_app_r {A : Type} (l1 l2 : list A) (i : Z) :
  len l1 <= i -> index (l1 ++ l2) i = index l2 (i - len l1).
Proof.
  unfold index, len. intros H.
  destruct (Z.ltb_spec i 0); [lia|]. destruct (Z.ltb_spec (i - Z.of_nat (length l1)) 0); [lia|].
  rewrite nth_error_app2 by lia.
  replace (Z.to_nat (i - Z.of_nat (length l1))) with (Z.to_nat i - length l1)%nat by lia.
  reflexivity.
Qed.

Lemma index_cons_0 {A : Type} (x : A) (l : list A) : index (x :: l) 0 = Ok x.
Proof. reflexivity. Qed.

Lemma index_cons_S {A : Type} (x : A) (l : list A) (i : Z) :
  0 < i -> index (x :: l) i = index l (i - 1).
Proof.
  intros H. change (x :: l) with ([x] ++ l). rewrite index_app_r; [reflexivity|].
  unfold len; simpl; lia.
Qed.

(** Row-major storage: cell [(r, c)] of rows of equal length [w]. *)
Lemma index_concat {A : Type} (vss : list (list A)) (w r c : Z) :
  (forall row, In row vss -> len row = w) -> 0 <= c < w -> 0 <= r ->
  index (concat vss) (r * w + c) = at2 vss r c.
Proof.
  intros Hw Hc. revert r. induction vss as [|row vss IH]; intros r Hr; simpl.
  - unfold at2. rewrite !index_nil. reflexivity.
  - assert (Hrow : len row = w) by (apply Hw; left; reflexivity).
    destruct (Z.eq_dec r 0) as [->|Hr0].
    + unfold at2. rewrite index_cons_0. simpl. apply index_app_l. lia.
    + rewrite index_app_r by nia. unfold at2. rewrite index_cons_S by lia.
      rewrite Hrow. replace (r * w + c - w) with ((r - 1) * w + c) by lia.
      apply IH; [intros; apply Hw; right; assumption | lia].
Qed.

Lemma len_concat {A : Type} (vss : list (list A)) (w : Z) :
  (forall row, In row vss -> len row = w) -> len (concat vss) = len vss * w.
Proof.
  unfold len. induction vss as [|row vss IH]; intros Hw; [reflexivity|].
  simpl concat. simpl length. rewrite length_app, Nat2Z.inj_add, Nat2Z.inj_succ.
  specialize (IH (fun r H => Hw r (or_intror H))).
  specialize (Hw row (or_introl eq_refl)). lia.
Qed.

Lemma at2_total {A : Type} (g : list (list A)) (h w y x : Z) :
  rect g h w -> 0 <= y < h -> 0 <= x < w -> exists p, at2 g y x = Ok p.
Proof.
  intros [Hh Hw] Hy Hx. unfold at2.
  destruct (@index_total _ g y) as (row & Hrow); [lia|]. rewrite Hrow; simpl.
  apply index_total. rewrite (Hw row); [lia|]. eapply index_In; eassumption.
Qed.

Lemma at2_bounds {A : Type} (g : list (list A)) (h w y x : Z) (p : A) :
  rect g h w -> at2 g y x = Ok p -> 0 <= y < h /\ 0 <= x < w.
Proof.
  intros [Hh Hw] H. unfold at2 in H. inv_bind H.
  pose proof (index_bounds _ _ _ Hm). pose proof (index_bounds _ _ _ H).
  rewrite (Hw u) in *; [lia|]. eapply index_In; eassumption.
Qed.

Lemma at2_In {A : Type} (g : list (list A)) (y x : Z) (p : A) :
  at2 g y x = Ok p -> exists row, In row g /\ In p row.
Proof.
  unfold at2; intros H. inv_bind H. exists u; split; eapply index_In; eassumption.
Qed.

Lemma In_at2 {A : Type} (g : list (list A)) (row : list A) (p : A) :
  In row g -> In p row -> exists y x, at2 g y x = Ok p.
Proof.
  intros Hr Hp. destruct (In_index _ _ Hr) as (y & Hy). destruct (In_index _ _ Hp) as (x & Hx).
  exists y, x. unfold at2. rewrite Hy; simpl. exact Hx.
Qed.

Lemma rect_row0 {A : Type} (g : list (list A)) (h w : Z) :
  rect g h w -> 0 < h -> exists row0, index g 0 = Ok row0 /\ len row0 = w.
Proof.
  intros [Hh Hw] H. destruct (@index_total _ g 0) as (row0 & H0); [lia|].
  exists row0; split; [assumption|]. apply Hw. eapply index_In; eassumption.
Qed.

Lemma abs_neg (i : Z) : i < 0 -> abs i = - i.
Proof. unfold abs. destruct (Z.ltb_spec i 0); lia. Qed.

(** With a window no wider than the axis allows, the index read is a cell. *)
Lemma sampledIndex_bounds (pos n pad i : Z) :
  0 <= pos < n -> 0 <= pad < n -> pos - pad <= i <= pos + pad ->
  0 <= sampledIndex pos n i < n.
Proof.
  intros Hpos Hpad Hi. unfold sampledIndex.
  destruct (Z.ltb_spec i 0); [rewrite abs_neg by assumption; lia|].
  destruct (Z.geb_spec i n); simpl; lia.
Qed.

(** Past the first cell by [k] the index read is [pos + k]; past the last
    cell by [k] it is [pos - k]; inside the axis it is the position itself. *)
Lemma sampledIndex_low (pos n k : Z) : 0 < k -> sampledIndex pos n (0 - k) = pos + k.
Proof.
  intros H. unfold sampledIndex. destruct (Z.ltb_spec (0 - k) 0); [|lia].
  rewrite abs_neg by assumption; lia.
Qed.

Lemma sampledIndex_high (pos n k : Z) :
  0 <= n -> 0 < k -> sampledIndex pos n ((n - 1) + k) = pos - k.
Proof.
  intros Hn H. unfold sampledIndex. destruct (Z.ltb_spec (n - 1 + k) 0); [lia|].
  destruct (Z.geb_spec (n - 1 + k) n); simpl; lia.
Qed.

Lemma sampledIndex_inside (pos n i : Z) : 0 <= i < n -> sampledIndex pos n i = i.
Proof.
  intros H. unfold sampledIndex. destruct (Z.ltb_spec i 0); [lia|].
  destruct (Z.geb_spec i n); simpl; lia.
Qed.

(** The two rules agree exactly when the centre lies on the edge passed. *)
Lemma sampledIndex_mirror_low (pos n i : Z) :
  i < 0 -> (sampledIndex pos n i = mirrorFromEdge n i <-> pos = 0).
Proof.
  intros H. unfold sampledIndex, mirrorFromEdge.
  destruct (Z.ltb_spec i 0); [|lia]. rewrite abs_neg by assumption. lia.
Qed.

Lemma sampledIndex_mirror_high (pos n i : Z) :
  0 <= n <= i -> (sampledIndex pos n i = mirrorFromEdge n i <-> pos = n - 1).
Proof.
  intros H. unfold sampledIndex, mirrorFromEdge.
  destruct (Z.ltb_spec i 0); [lia|]. destruct (Z.geb_spec i n); simpl; lia.
Qed.

Lemma getSorroundingPixelMatrix_sampled (pixels : grid) (posY posX length : Z) :
  getSorroundingPixelMatrix pixels posY posX length =
  if Z.rem length 2 =? 0 then Panic OddLengthRequired
  else
    row0 <- index pixels 0 ;;
    values <-
      mapM (fun y =>
        mapM (fun x =>
          intensityAt pixels (sampledIndex posY (len pixels) y) (sampledIndex posX (len row0) x))
        (through (posX - Z.quot length 2) (posX + Z.quot length 2)))
      (through (posY - Z.quot length 2) (posY + Z.quot length 2)) ;;
    NewDense length length (concat values).
Proof. reflexivity. Qed.

Lemma getPixelVector_sampled (pixels : grid) (posY posX length : Z) (dir : direction) :
  getPixelVector pixels posY posX length dir =
  if Z.rem length 2 =? 0 then Panic OddLengthRequired
  else
    values <-
      match dir with
      | HORIZONTAL =>
          mapM (fun i =>
            row <- index pixels posY ;;
            intensityAt pixels posY (sampledIndex posX (len row) i))
          (through (posX - Z.quot length 2) (posX + Z.quot length 2))
      | VERTICAL =>
          mapM (fun i => intensityAt pixels (sampledIndex posY (len pixels) i) posX)
          (through (posY - Z.quot length 2) (posY + Z.quot length 2))
      end ;;
    NewVecDense (len values) values.
Proof.
  unfold getPixelVector, intensityAt. destruct (Z.rem length 2 =? 0); [reflexivity|].
  f_equal. destruct dir; apply mapM_ext; intros i _; unfold sampledIndex.
  - destruct (index pixels posY) as [row|e]; simpl; [|reflexivity].
    destruct (i <? 0); [reflexivity|]. destruct (i >=? len row); reflexivity.
  - destruct (i <? 0); [reflexivity|]. destruct (i >=? len pixels); reflexivity.
Qed.

Lemma odd_length (length pad : Z) :
  0 <= pad -> length = 2 * pad + 1 -> (Z.rem length 2 =? 0) = false /\ Z.quot length 2 = pad.
Proof.
  intros Hp ->. rewrite Z.rem_mod_nonneg, Z.quot_div_nonneg by lia.
  split; [apply Z.eqb_neq|]; Z.to_euclidean_division_equations; lia.
Qed.

(** The square window: it is defined once the padding fits on both axes, and
    its entry [(r, c)] is the intensity of the cell that [sampledIndex]
    selects on each axis, independently. *)
Lemma getSorroundingPixelMatrix_spec (pixels : grid) (h w posY posX length pad : Z) :
  rect pixels h w -> 0 <= posY < h -> 0 <= posX < w ->
  length = 2 * pad + 1 -> 0 <= pad -> pad < h -> pad < w ->
  exists m, getSorroundingPixelMatrix pixels posY posX length = Ok m /\
    Dims m = (length, length) /\ len (data m) = length * length /\
    forall r c, 0 <= r < length -> 0 <= c < length ->
      exists p, at2 pixels (sampledIndex posY h (posY - pad + r))
                           (sampledIndex posX w (posX - pad + c)) = Ok p /\
                At m r c = Ok (inject_Z (GrayPixel.y p)).
Proof.
  intros Hrect Hy Hx Hlen Hpad Hph Hpw.
  destruct (odd_length length pad Hpad Hlen) as [Hrem Hquot].
  destruct (rect_row0 _ _ _ Hrect) as (row0 & Hrow0 & Hw0); [lia|].
  rewrite getSorroundingPixelMatrix_sampled, Hrem, Hquot, Hrow0. cbn [bind].
  rewrite Hw0, (proj1 Hrect).
  assert (Hcell : forall y x, posY - pad <= y <= posY + pad -> posX - pad <= x <= posX + pad ->
            exists p, at2 pixels (sampledIndex posY h y) (sampledIndex posX w x) = Ok p /\
                      intensityAt pixels (sampledIndex posY h y) (sampledIndex posX w x)
                      = Ok (inject_Z (GrayPixel.y p))).
  { intros y x Hy' Hx'.
    destruct (@at2_total _ pixels h w (sampledIndex posY h y) (sampledIndex posX w x))
      as (p & Hp); [assumption | apply sampledIndex_bounds with pad; lia
                    | apply sampledIndex_bounds with pad; lia |].
    exists p; split; [assumption|]. unfold intensityAt. rewrite Hp. reflexivity. }
  destruct (@mapM_total _ _
              (fun y => mapM (fun x => intensityAt pixels (sampledIndex posY h y)
                                                   (sampledIndex posX w x))
                             (through (posX - pad) (posX + pad)))
              (through (posY - pad) (posY + pad))) as (values & Hvalues).
  { intros y Hy'. apply through_In in Hy'. apply mapM_total. intros x Hx'.
    apply through_In in Hx'. destruct (Hcell y x) as (p & _ & ->); eauto. }
  rewrite Hvalues. cbn [bind].
  assert (Hrows : forall row, In row values -> len row = length).
  { intros row Hin. destruct (mapM_In _ _ _ _ Hvalues Hin) as (y & _ & Hrow).
    apply mapM_through_len in Hrow. lia. }
  assert (Hnrows : len values = length).
  { apply mapM_through_len in Hvalues. lia. }
  assert (Hdata : len (concat values) = length * length).
  { rewrite (len_concat _ _ Hrows). rewrite Hnrows. reflexivity. }
  unfold NewDense. destruct (Z.leb_spec length 0); [lia|]. simpl.
  rewrite Hdata, Z.eqb_refl. simpl.
  eexists; split; [reflexivity|]. split; [reflexivity|]. split; [assumption|].
  intros r c Hr Hc. destruct (Hcell (posY - pad + r) (posX - pad + c)) as (p & Hp & Hcellp);
    [lia | lia |].
  exists p; split; [assumption|].
  unfold At; simpl. destruct (Z.ltb_spec r 0); [lia|]. destruct (Z.leb_spec length r); [lia|].
  destruct (Z.ltb_spec c 0); [lia|]. destruct (Z.leb_spec length c); [lia|]. simpl.
  rewrite (index_concat _ _ _ _ Hrows) by lia. unfold at2.
  destruct (@index_total _ values r) as (row & Hrow); [lia|]. rewrite Hrow. simpl.
  pose proof (proj1 (mapM_through_index _ _ _ _ Hvalues r row) Hrow) as [_ Hrowdef].
  apply (mapM_through_index _ _ _ _ Hrowdef). split; [lia | assumption].
Qed.

(** The directional windows. *)
Lemma getPixelVector_spec (pixels : grid) (h w posY posX length pad : Z) (dir : direction) :
  rect pixels h w -> 0 <= posY < h -> 0 <= posX < w ->
  length = 2 * pad + 1 -> 0 <= pad -> pad < h -> pad < w ->
  exists v, getPixelVector pixels posY posX length dir = Ok v /\ len v = length /\
    forall k, 0 <= k < length ->
      exists p,
        match dir with
        | HORIZONTAL => at2 pixels posY (sampledIndex posX w (posX - pad + k))
        | VERTICAL => at2 pixels (sampledIndex posY h (posY - pad + k)) posX
        end = Ok p /\
        index v k = Ok (inject_Z (GrayPixel.y p)).
Proof.
  intros Hrect Hy Hx Hlen Hpad Hph Hpw.
  destruct (odd_length length pad Hpad Hlen) as [Hrem Hquot].
  rewrite getPixelVector_sampled, Hrem, Hquot.
  destruct (@index_total _ pixels posY) as (row & Hrow); [rewrite (proj1 Hrect); lia|].
  assert (Hwrow : len row = w) by (apply (proj2 Hrect); eapply index_In; eassumption).
  destruct dir.
  - assert (Hcell : forall i, posX - pad <= i <= posX + pad ->
              exists p, at2 pixels posY (sampledIndex posX w i) = Ok p /\
                        (row <- index pixels posY ;;
                         intensityAt pixels posY (sampledIndex posX (len row) i))
                        = Ok (inject_Z (GrayPixel.y p))).
    { intros i Hi.
      destruct (@at2_total _ pixels h w posY (sampledIndex posX w i)) as (p & Hp);
        [assumption | lia | apply sampledIndex_bounds with pad; lia |].
      exists p; split; [assumption|]. rewrite Hrow. cbn [bind]. unfold intensityAt.
      rewrite Hwrow, Hp. reflexivity. }
    match goal with |- exists v, (values <- mapM ?f ?l ;; _) = _ /\ _ =>
      destruct (@mapM_total _ _ f l) as (v & Hv) end.
    { intros i Hi. apply through_In in Hi. destruct (Hcell i Hi) as (p & _ & ->); eauto. }
    assert (Hlv : len v = length) by (apply mapM_through_len in Hv; lia).
    exists v. rewrite Hv. cbn [bind]. unfold NewVecDense. rewrite Hlv, Z.eqb_refl.
    destruct (Z.leb_spec length 0); [lia|]. cbn [negb].
    split; [reflexivity|]. split; [reflexivity|].
    intros k Hk. destruct (Hcell (posX - pad + k)) as (p & Hp & Hc); [lia|].
    exists p; split; [assumption|].
    apply (mapM_through_index _ _ _ _ Hv). split; [lia | assumption].
  - rewrite (proj1 Hrect).
    assert (Hcell : forall i, posY - pad <= i <= posY + pad ->
              exists p, at2 pixels (sampledIndex posY h i) posX = Ok p /\
                        intensityAt pixels (sampledIndex posY h i) posX
                        = Ok (inject_Z (GrayPixel.y p))).
    { intros i Hi.
      destruct (@at2_total _ pixels h w (sampledIndex posY h i) posX) as (p & Hp);
        [assumption | apply sampledIndex_bounds with pad; lia | lia |].
      exists p; split; [assumption|]. unfold intensityAt. rewrite Hp. reflexivity. }
    match goal with |- exists v, (values <- mapM ?f ?l ;; _) = _ /\ _ =>
      destruct (@mapM_total _ _ f l) as (v & Hv) end.
    { intros i Hi. apply through_In in Hi. destruct (Hcell i Hi) as (p & _ & ->); eauto. }
    assert (Hlv : len v = length) by (apply mapM_through_len in Hv; lia).
    exists v. rewrite Hv. cbn [bind]. unfold NewVecDense. rewrite Hlv, Z.eqb_refl.
    destruct (Z.leb_spec length 0); [lia|]. cbn [negb].
    split; [reflexivity|]. split; [reflexivity|].
    intros k Hk. destruct (Hcell (posY - pad + k)) as (p & Hp & Hc); [lia|].
    exists p; split; [assumption|].
    apply (mapM_through_index _ _ _ _ Hv). split; [lia | assumption].
Qed.

(** *** C3: which cell stands in for a window position outside the grid *)

(** C3, as stated, fails: in the row [10 20 30 40 50] the five-cell window
    centred at column 1 starts one cell before the row; mirroring about the
    edge reads column 1 (20), the accessor reads column 2 (30). *)
Lemma vectorMirrorsEdge_counterexample : ~ vectorMirrorsEdge row5 0 1 5.
Proof.
  intros (v & row & Hrow & Hv & H).
  vm_compute in Hrow. injection Hrow as <-.
  vm_compute in Hv. injection Hv as <-.
  destruct (H 0) as (p & Hp & Hk); [lia|].
  vm_compute in Hp. injection Hp as <-.
  vm_compute in Hk. discriminate Hk.
Qed.

(** C3 (amended). For a rectangular grid, a centre in bounds and an odd window
    whose padding fits on both axes, the accessors are defined and read, for
    a window position [k] past an edge, the cell [k] away from the centre
    (towards the inside), not [k] away from the edge; the two coincide when
    the centre lies on that edge.  Each axis is resolved by itself. *)
Theorem accessors_read_sampled (pixels : grid) (h w posY posX length pad : Z) :
  rect pixels h w -> 0 <= posY < h -> 0 <= posX < w ->
  length = 2 * pad + 1 -> 0 <= pad -> pad < h -> pad < w ->
  accessorsReadSampled pixels h w posY posX length pad /\
  sampledIndexRule posY h /\ sampledIndexRule posX w.
Proof.
  intros Hrect Hy Hx Hlen Hpad Hph Hpw.
  assert (Hrule : forall pos n, 0 <= n -> sampledIndexRule pos n).
  { intros pos n Hn. repeat split.
    - intros k Hk; apply sampledIndex_low; assumption.
    - intros k Hk; apply sampledIndex_high; assumption.
    - intros i Hi; apply sampledIndex_inside; assumption.
    - apply sampledIndex_mirror_low; lia.
    - apply sampledIndex_mirror_low; lia.
    - apply sampledIndex_mirror_high; lia.
    - apply sampledIndex_mirror_high; lia. }
  split; [|split; apply Hrule; lia].
  split; [|split].
  - destruct (getSorroundingPixelMatrix_spec pixels h w posY posX length pad)
      as (m & Hm & Hd & _ & Hcells); try assumption.
    exists m; auto.
  - apply (getPixelVector_spec pixels h w posY posX length pad HORIZONTAL); assumption.
  - apply (getPixelVector_spec pixels h w posY posX length pad VERTICAL); assumption.
Qed.

Lemma rect_spot3 : rect spot3 3 3.
Proof.
  split; [reflexivity|]. intros row [<-|[<-|[<-|[]]]]; reflexivity.
Qed.

Lemma accessors_read_sampled_witness :
  accessorsReadSampled spot3 3 3 0 0 3 1 /\ sampledIndexRule 0 3 /\ sampledIndexRule 0 3.
Proof.
  apply (accessors_read_sampled spot3 3 3 0 0 3 1);
    [exact rect_spot3 | lia | lia | reflexivity | lia | lia | lia].
Defined.

(** ** Loops over the cells of a grid *)

Lemma gridLoop_at {A B : Type} (rowOf : Z -> result (list A)) (cell : Z -> Z -> result B)
  (n : Z) (out : list (list B)) :
  gridLoop rowOf cell n = Ok out ->
  forall y x v, at2 out y x = Ok v <->
    (0 <= y < n /\ exists row, rowOf y = Ok row /\ 0 <= x < len row /\ cell y x = Ok v).
Proof.
  unfold gridLoop. intros H y x v. unfold at2. split.
  - intros Hv. inv_bind Hv. apply (mapM_upto_index _ _ _ H) in Hm as [Hy Hrow].
    inv_bind Hrow. split; [assumption|]. exists u0. split; [assumption|].
    apply (mapM_upto_index _ _ _ Hrow) in Hv. tauto.
  - intros (Hy & row & Hrow & Hx & Hc).
    destruct (mapM_total (cell y) (upto 0 (len row))) as (vs & Hvs).
    { intros x' Hx'. apply upto_In in Hx'.
      assert (Hout : exists outrow, index out y = Ok outrow).
      { apply index_total. rewrite (mapM_upto_len _ _ _ H). lia. }
      destruct Hout as (outrow & Hout).
      pose proof (proj1 (mapM_upto_index _ _ _ H y outrow) Hout) as [_ Hdef].
      rewrite Hrow in Hdef. cbn [bind] in Hdef.
      destruct (index_total outrow x') as (v' & Hv').
      { rewrite (mapM_upto_len _ _ _ Hdef). lia. }
      exists v'. apply (mapM_upto_index _ _ _ Hdef). assumption. }
    assert (Hyrow : index out y = Ok vs).
    { apply (mapM_upto_index _ _ _ H). split; [assumption|]. rewrite Hrow. exact Hvs. }
    rewrite Hyrow. cbn [bind]. apply (mapM_upto_index _ _ _ Hvs). tauto.
Qed.

Lemma gridLoop_row {A B : Type} (rowOf : Z -> result (list A)) (cell : Z -> Z -> result B)
  (n : Z) (out : list (list B)) :
  gridLoop rowOf cell n = Ok out ->
  forall y outrow, index out y = Ok outrow ->
    0 <= y < n /\ exists row, rowOf y = Ok row /\ len outrow = len row.
Proof.
  unfold gridLoop. intros H y outrow Hrow.
  apply (mapM_upto_index _ _ _ H) in Hrow as [Hy Hdef]. split; [assumption|].
  inv_bind Hdef. exists u. split; [assumption|].
  rewrite (mapM_upto_len _ _ _ Hdef). pose proof (len_nonneg u). lia.
Qed.

Lemma gridLoop_len {A B : Type} (rowOf : Z -> result (list A)) (cell : Z -> Z -> result B)
  (n : Z) (out : list (list B)) :
  gridLoop rowOf cell n = Ok out -> len out = Z.max 0 n.
Proof. apply mapM_upto_len. Qed.

Lemma gridLoop_rect {A B : Type} (rowOf : Z -> result (list A)) (cell : Z -> Z -> result B)
  (n w : Z) (out : list (list B)) :
  0 <= n -> (forall y row, 0 <= y < n -> rowOf y = Ok row -> len row = w) ->
  gridLoop rowOf cell n = Ok out -> rect out n w.
Proof.
  intros Hn Hw H. split; [rewrite (gridLoop_len _ _ _ _ H); lia|].
  intros outrow Hin. destruct (In_index _ _ Hin) as (y & Hy).
  destruct (gridLoop_row _ _ _ _ H _ _ Hy) as (Hyb & row & Hrow & ->). eauto.
Qed.

Lemma gridLoop_total {A B : Type} (rowOf : Z -> result (list A)) (cell : Z -> Z -> result B)
  (n : Z) :
  (forall y, 0 <= y < n -> exists row, rowOf y = Ok row /\
     forall x, 0 <= x < len row -> exists v, cell y x = Ok v) ->
  exists out, gridLoop rowOf cell n = Ok out.
Proof.
  intros H. apply mapM_total. intros y Hy. apply upto_In in Hy.
  destruct (H y Hy) as (row & -> & Hcells). cbn [bind].
  apply mapM_total. intros x Hx. apply upto_In in Hx. auto.
Qed.

Lemma at2_map {A B : Type} (g : A -> B) (gr : list (list A)) (y x : Z) :
  at2 (map (map g) gr) y x = (v <- at2 gr y x ;; Ok (g v)).
Proof.
  unfold at2. rewrite index_map. destruct (index gr y); [|reflexivity].
  cbn [bind]. apply index_map.
Qed.

Lemma rect_map {A B : Type} (g : A -> B) (gr : list (list A)) (h w : Z) :
  rect gr h w -> rect (map (map g) gr) h w.
Proof.
  intros [Hh Hw]. split; [rewrite len_map; assumption|].
  intros row Hin. apply in_map_iff in Hin as (r & <- & Hr). rewrite len_map. auto.
Qed.

(** ** Gradient stage *)

(** [sobel] computes the responses of every cell and reads the magnitude
    grid and the direction field off them. *)
Lemma sobel_field (pixels : grid) :
  sobel pixels =
  (field <- sobelField pixels ;;
   Ok (map (map sobelPixel) field, map (map sobelAngle) field)).
Proof.
  unfold sobel.
  change (NewDense 3 3 SOBEL_X) with (Ok sobel_X).
  change (NewDense 3 3 SOBEL_Y) with (Ok sobel_Y). cbn [bind].
  unfold sobelField, gridLoop.
  rewrite (mapM_ext _
    (fun y => rs <- (row <- index pixels y ;;
                     mapM (sobelResponse pixels y) (upto 0 (len row))) ;;
              Ok ((fun rs => (map sobelPixel rs, map sobelAngle rs)) rs))).
  - rewrite mapM_fmap.
    destruct (mapM _ (upto 0 (len pixels))) as [field|e]; [|reflexivity].
    cbn [bind]. rewrite !map_map. reflexivity.
  - intros y _. destruct (index pixels y) as [row|e]; [|reflexivity]. cbn [bind].
    rewrite (mapM_ext _
      (fun x => r <- sobelResponse pixels y x ;; Ok (sobelPixel r, sobelAngle r))).
    + rewrite mapM_fmap.
      destruct (mapM (sobelResponse pixels y) (upto 0 (len row))) as [rs|e]; [|reflexivity].
      cbn [bind]. rewrite !map_map. reflexivity.
    + intros x _. unfold sobelResponse.
      destruct (getSorroundingPixelMatrix pixels y x 3) as [m|e]; [|reflexivity]. cbn [bind].
      destruct (convolve m sobel_X) as [gx|e]; [|reflexivity]. cbn [bind].
      destruct (convolve m sobel_Y) as [gy|e]; reflexivity.
Qed.

(** The stage is defined on every rectangular grid with at least two rows
    and two columns, and keeps the shape. *)
Lemma sobelResponse_total (pixels : grid) (h w y x : Z) :
  rect pixels h w -> 2 <= h -> 2 <= w -> 0 <= y < h -> 0 <= x < w ->
  exists r, sobelResponse pixels y x = Ok r.
Proof.
  intros Hrect Hh Hw Hy Hx. unfold sobelResponse.
  destruct (getSorroundingPixelMatrix_spec pixels h w y x 3 1)
    as (m & -> & Hd & Hdata & _); try assumption; try lia.
  cbn [bind]. unfold Dims in Hd. injection Hd as Hr Hc.
  destruct (convolve_total m sobel_X) as (gx & ->);
    [unfold Dims; rewrite Hr, Hc; reflexivity | rewrite Hr, Hc; assumption | reflexivity |].
  destruct (convolve_total m sobel_Y) as (gy & ->);
    [unfold Dims; rewrite Hr, Hc; reflexivity | rewrite Hr, Hc; assumption | reflexivity |].
  cbn [bind]. eauto.
Qed.

Lemma sobelField_total (pixels : grid) (h w : Z) :
  rect pixels h w -> 2 <= h -> 2 <= w ->
  exists field, sobelField pixels = Ok field /\ rect field h w.
Proof.
  intros Hrect Hh Hw. pose proof Hrect as [Hlen Hrows].
  destruct (gridLoop_total (index pixels) (sobelResponse pixels) (len pixels)) as (field & Hf).
  { intros y Hy. destruct (index_total pixels y Hy) as (row & Hrow).
    exists row. split; [assumption|]. intros x Hx.
    apply (sobelResponse_total pixels h w); try assumption; try lia.
    rewrite <- (Hrows row); [assumption | eapply index_In; eassumption]. }
  exists field. split; [assumption|]. rewrite <- Hlen.
  apply (gridLoop_rect (index pixels) (sobelResponse pixels) (len pixels) w field
           (len_nonneg pixels)); [|exact Hf].
  intros y row _ Hrow. apply Hrows. eapply index_In; eassumption.
Qed.

Lemma sobel_total (pixels : grid) (h w : Z) :
  rect pixels h w -> 2 <= h -> 2 <= w ->
  exists mag dirs, sobel pixels = Ok (mag, dirs) /\ rect mag h w /\ rect dirs h w.
Proof.
  intros Hrect Hh Hw. destruct (sobelField_total pixels h w Hrect Hh Hw) as (field & Hf & Hr).
  rewrite sobel_field, Hf. cbn [bind]. do 2 eexists. split; [reflexivity|].
  split; apply rect_map; assumption.
Qed.

(** What [sobel] returns, cell by cell. *)
Lemma sobel_cells (pixels mag : grid) (dirs : list (list R)) :
  sobel pixels = Ok (mag, dirs) ->
  exists field, sobelField pixels = Ok field /\
    mag = map (map sobelPixel) field /\ dirs = map (map sobelAngle) field.
Proof.
  rewrite sobel_field. intros H. inv_bind H. injection H as <- <-. eauto.
Qed.

(** *** C8: a flat field has no gradient *)

Ltac eval_kernel K :=
  repeat match goal with
  | |- context [At K ?i ?j] =>
      let t := eval vm_compute in (At K i j) in change (At K i j) with t
  end.

(** A window of nine equal values has no response to either Sobel kernel:
    the weights of each sum to zero. *)
Lemma convolve_flat (m : Dense) (q : Q) (K : Dense) :
  K = sobel_X \/ K = sobel_Y ->
  rows m = 3 -> cols m = 3 ->
  (forall r c, 0 <= r < 3 -> 0 <= c < 3 -> At m r c = Ok q) ->
  exists s, convolve m K = Ok s /\ (s == 0)%Q.
Proof.
  intros HK Hr Hc HAt. unfold convolve, Dims. rewrite Hr, Hc.
  assert (HdK : rows K = 3 /\ cols K = 3) by (destruct HK; subst K; split; reflexivity).
  destruct HdK as [-> ->]. cbn [Z.eqb Pos.eqb negb orb].
  change (upto 0 3) with [0; 1; 2]. cbn [foldM].
  rewrite !HAt by lia. cbn [bind].
  destruct HK; subst K.
  - eval_kernel sobel_X. cbn [bind]. eexists; split; [reflexivity | ring].
  - eval_kernel sobel_Y. cbn [bind]. eexists; split; [reflexivity | ring].
Qed.

Lemma sobelResponse_uniform (pixels : grid) (h w v y x : Z) (r : Q * Q) :
  rect pixels h w -> 2 <= h -> 2 <= w -> uniform pixels v ->
  0 <= y < h -> 0 <= x < w ->
  sobelResponse pixels y x = Ok r -> (fst r == 0)%Q /\ (snd r == 0)%Q.
Proof.
  intros Hrect Hh Hw Hu Hy Hx. unfold sobelResponse.
  destruct (getSorroundingPixelMatrix_spec pixels h w y x 3 1)
    as (m & -> & Hd & _ & Hcells); try assumption; try lia.
  cbn [bind]. unfold Dims in Hd. injection Hd as Hr Hc.
  assert (HAt : forall r c, 0 <= r < 3 -> 0 <= c < 3 -> At m r c = Ok (inject_Z v)).
  { intros r' c' Hr' Hc'. destruct (Hcells r' c' Hr' Hc') as (p & Hp & ->).
    destruct (at2_In _ _ _ _ Hp) as (row & Hrow & Hin). rewrite (Hu row p Hrow Hin).
    reflexivity. }
  destruct (convolve_flat m (inject_Z v) sobel_X (or_introl eq_refl) Hr Hc HAt) as (gx & -> & Hgx).
  destruct (convolve_flat m (inject_Z v) sobel_Y (or_intror eq_refl) Hr Hc HAt) as (gy & -> & Hgy).
  cbn [bind]. intros [= <-]. split; assumption.
Qed.

Lemma sobelPixel_zero (r : Q * Q) :
  (fst r == 0)%Q -> (snd r == 0)%Q -> GrayPixel.y (sobelPixel r) = 0.
Proof.
  intros HX HY. unfold sobelPixel, uint8_sqrt. cbn [GrayPixel.y].
  assert (E : (fst r ^ 2 + snd r ^ 2 == 0)%Q) by (rewrite HX, HY; reflexivity).
  rewrite E. reflexivity.
Qed.

(** C8, as stated, fails on a grid with a single row or column: the 3x3
    window of the gradient stage reads one cell past the centre, which such
    a grid does not have, and the stage panics with an index out of range. *)
Lemma gradientIsZero_counterexample : ~ gradientIsZero [[px 7]].
Proof.
  intros (mag & dirs & H & _). rewrite sobel_field in H.
  assert (E : sobelField [[px 7]] = Panic IndexOutOfRange) by (vm_compute; reflexivity).
  rewrite E in H. discriminate H.
Qed.

(** C8 (amended). For every rectangular grid with at least two rows and two
    columns whose pixels all have the same intensity, the gradient stage
    returns a magnitude grid of the same shape that is 0 at every pixel. *)
Theorem sobel_uniform_zero (pixels : grid) (h w v : Z) :
  rect pixels h w -> 2 <= h -> 2 <= w -> uniform pixels v ->
  exists mag dirs, sobel pixels = Ok (mag, dirs) /\ rect mag h w /\
    forall row p, In row mag -> In p row -> GrayPixel.y p = 0.
Proof.
  intros Hrect Hh Hw Hu.
  destruct (sobel_total pixels h w Hrect Hh Hw) as (mag & dirs & Hs & Hrm & _).
  exists mag, dirs. split; [assumption|]. split; [assumption|].
  destruct (sobel_cells _ _ _ Hs) as (field & Hf & -> & _).
  intros row p Hrow Hp. destruct (In_at2 _ _ _ Hrow Hp) as (y & x & Hat).
  rewrite at2_map in Hat. inv_bind Hat. injection Hat as <-.
  apply (gridLoop_at _ _ _ _ Hf) in Hm as (Hy & prow & Hprow & Hx & Hresp).
  pose proof Hrect as [Hlen Hrows].
  assert (Hwrow : len prow = w) by (apply Hrows; eapply index_In; eassumption).
  destruct (sobelResponse_uniform pixels h w v y x u Hrect Hh Hw Hu) as [HX HY];
    [lia | lia | assumption |].
  apply sobelPixel_zero; assumption.
Qed.

Lemma sobel_uniform_zero_witness :
  exists mag dirs, sobel flat2 = Ok (mag, dirs) /\ rect mag 2 2 /\
    forall row p, In row mag -> In p row -> GrayPixel.y p = 0.
Proof.
  apply (sobel_uniform_zero flat2 2 2 9); [ | lia | lia | ].
  - split; [reflexivity|]. intros row [<-|[<-|[]]]; reflexivity.
  - intros row p [<-|[<-|[]]] [<-|[<-|[]]]; reflexivity.
Defined.

(** *** C7: directions stay within [-90, 90] *)

Local Open Scope R_scope.

Lemma gradientAngle_range (gx gy : Q) : -90 <= gradientAngle gx gy <= 90.
Proof.
  unfold gradientAngle.
  destruct (Qeq_bool gx 0 || Qeq_bool gy 0).
  - rewrite Rmult_0_l. lra.
  - set (t := Q2R (gy / gx)). pose proof (atan_bound t) as [Hlo Hhi].
    pose proof PI_RGT_0 as Hpi.
    assert (Hk : 0 < 180 / PI) by (apply Rdiv_lt_0_compat; lra).
    assert (E : PI / 2 * (180 / PI) = 90) by (field; lra).
    pose proof (Rmult_lt_compat_r (180 / PI) _ _ Hk Hlo) as H1.
    pose proof (Rmult_lt_compat_r (180 / PI) _ _ Hk Hhi) as H2.
    replace (- PI / 2 * (180 / PI)) with (- (PI / 2 * (180 / PI))) in H1 by (field; lra).
    rewrite E in H1, H2. lra.
Qed.

(** A direction may only be zero or strictly inside the range. *)
Lemma gradientAngle_zero (gx gy : Q) :
  Qeq_bool gx 0 || Qeq_bool gy 0 = true -> gradientAngle gx gy = 0.
Proof.
  intros H. unfold gradientAngle. rewrite H. apply Rmult_0_l.
Qed.

Ltac split_Rdec :=
  repeat match goal with
  | |- context [Rge_dec ?u ?v] => destruct (Rge_dec u v)
  | |- context [Rlt_dec ?u ?v] => destruct (Rlt_dec u v)
  | |- context [Rle_dec ?u ?v] => destruct (Rle_dec u v)
  end.

Lemma gradientNeighbours_total (dirVal : R) (x y : Z) :
  -90 <= dirVal <= 90 -> exists n, gradientNeighbours dirVal x y = Ok n.
Proof.
  intros H. unfold gradientNeighbours, Rgeb, Rltb, Rleb.
  split_Rdec; cbn [andb]; try (eexists; reflexivity); exfalso; lra.
Qed.

Lemma gradientNeighbours_horizontal (dirVal : R) (x y : Z) :
  -22.5 <= dirVal < 22.5 ->
  gradientNeighbours dirVal x y = Ok (y, (x + 1)%Z, y, (x - 1)%Z).
Proof.
  intros H. unfold gradientNeighbours, Rgeb, Rltb, Rleb.
  split_Rdec; cbn [andb]; try reflexivity; exfalso; lra.
Qed.

Local Close Scope R_scope.

Lemma at2_Panic {A : Type} (g : list (list A)) (y x : Z) (e : panic) :
  at2 g y x = Panic e -> e = IndexOutOfRange.
Proof.
  unfold at2. intros H. apply bind_Panic in H as [H | (row & _ & H)];
    eapply index_Panic; eassumption.
Qed.

Lemma readNeighbours_Panic (pixels : grid) (height width x y : Z) (n : Z * Z * Z * Z)
  (e : panic) :
  readNeighbours pixels height width x y n = Panic e -> e = IndexOutOfRange.
Proof.
  destruct n as [[[pY pX] qY] qX]. unfold readNeighbours. intros H.
  apply bind_Panic in H as [H | (p & _ & H)]; [eapply at2_Panic; eassumption|].
  apply bind_Panic in H as [H | (q & _ & H)]; [eapply at2_Panic; eassumption|].
  discriminate H.
Qed.

Lemma directions_in_range_valid (mag : grid) (dirs : list (list R)) :
  (forall y x d, at2 dirs y x = Ok d -> (-90 <= d <= 90)%R) -> directionsValid mag dirs.
Proof.
  intros Hrange.
  assert (Hg : forall x y, getPixelInGradientDirection mag dirs x y <> Panic InvalidDirection).
  { intros x y H. unfold getPixelInGradientDirection in H.
    apply bind_Panic in H as [H | (row0 & _ & H)]; [apply index_Panic in H; discriminate|].
    apply bind_Panic in H as [H | (d & Hd & H)]; [apply at2_Panic in H; discriminate|].
    destruct (gradientNeighbours_total d x y (Hrange _ _ _ Hd)) as (n & Hn).
    rewrite Hn in H. cbn [bind] in H. apply readNeighbours_Panic in H. discriminate. }
  split; [assumption|]. split; [assumption|].
  intros H. unfold nonMaximumSuppression in H.
  apply bind_Panic in H as [H | (mismatch & _ & H)].
  - destruct (negb (len mag =? len dirs)); [discriminate|].
    apply bind_Panic in H as [H | (row0 & _ & H)]; [apply index_Panic in H; discriminate|].
    apply bind_Panic in H as [H | (drow0 & _ & H)]; [apply index_Panic in H; discriminate|].
    discriminate.
  - destruct mismatch; [discriminate|].
    apply mapM_Panic in H as (y & _ & H).
    apply bind_Panic in H as [H | (row0 & _ & H)]; [apply index_Panic in H; discriminate|].
    apply mapM_Panic in H as (x & _ & H).
    apply bind_Panic in H as [H | (r & _ & H)]; [apply at2_Panic in H; discriminate|].
    apply bind_Panic in H as [H | ([p q] & _ & H)]; [exact (Hg x y H)|].
    destruct ((GrayPixel.y p >? GrayPixel.y r) || (GrayPixel.y q >? GrayPixel.y r));
      discriminate.
Qed.

(** C7. Every direction that the gradient stage produces lies in
    [-90, 90] degrees, and on the stage's output neither the neighbour
    selection nor non-maximum suppression as a whole can raise the
    out-of-range panic. *)
Theorem sobel_directions_valid (pixels mag : grid) (dirs : list (list R)) :
  sobel pixels = Ok (mag, dirs) -> directionsValid mag dirs.
Proof.
  intros H. apply directions_in_range_valid. intros y x d Hd.
  destruct (sobel_cells _ _ _ H) as (field & _ & _ & ->).
  rewrite at2_map in Hd. inv_bind Hd. injection Hd as <-.
  apply gradientAngle_range.
Qed.

Lemma sobelField_edge3 : sobelField edge3 = Ok edge3_field.
Proof. vm_compute. reflexivity. Qed.

Lemma sobel_edge3 :
  sobel edge3 = Ok (map (map sobelPixel) edge3_field, map (map sobelAngle) edge3_field).
Proof. rewrite sobel_field, sobelField_edge3. reflexivity. Qed.

Lemma sobel_directions_valid_witness :
  directionsValid (map (map sobelPixel) edge3_field) (map (map sobelAngle) edge3_field).
Proof.
  apply (sobel_directions_valid edge3). exact sobel_edge3.
Defined.

(** ** Non-maximum suppression *)

Lemma nonMaximumSuppression_loop (pixels : grid) (directions : list (list R)) :
  nonMaximumSuppression pixels directions =
  (mismatch <-
    (if negb (len pixels =? len directions) then Ok true
     else
       row0 <- index pixels 0 ;;
       drow0 <- index directions 0 ;;
       Ok (negb (len row0 =? len drow0))) ;;
   if (mismatch : bool) then Panic DimensionMismatch
   else gridLoop (fun _ => index pixels 0) (nmsCell pixels directions) (len pixels)).
Proof. reflexivity. Qed.

Lemma nonMaximumSuppression_Ok (pixels : grid) (directions : list (list R)) (out : grid) :
  nonMaximumSuppression pixels directions = Ok out ->
  gridLoop (fun _ => index pixels 0) (nmsCell pixels directions) (len pixels) = Ok out.
Proof.
  rewrite nonMaximumSuppression_loop. intros H. inv_bind H.
  destruct u; [discriminate | exact H].
Qed.

(** The output has one row per input row, each as long as the first input row. *)
Lemma nonMaximumSuppression_shape (pixels : grid) (directions : list (list R)) (out : grid) :
  nonMaximumSuppression pixels directions = Ok out ->
  len out = len pixels /\
  forall row, In row out -> exists row0, index pixels 0 = Ok row0 /\ len row = len row0.
Proof.
  intros H. apply nonMaximumSuppression_Ok in H. split.
  - rewrite (gridLoop_len _ _ _ _ H). pose proof (len_nonneg pixels). lia.
  - intros row Hin. destruct (In_index _ _ Hin) as (y & Hy).
    destruct (gridLoop_row _ _ _ _ H _ _ Hy) as (_ & row0 & Hrow0 & Hlen). eauto.
Qed.

(** *** C6: suppression never raises a magnitude *)

Lemma nonMaximumSuppression_pixels (pixels : grid) (directions : list (list R)) (out : grid) :
  nonMaximumSuppression pixels directions = Ok out -> nmsPixelRule pixels directions out.
Proof.
  intros H. apply nonMaximumSuppression_Ok in H. intros y x o Ho.
  apply (gridLoop_at _ _ _ _ H) in Ho as (_ & _ & _ & _ & Hcell).
  unfold nmsCell in Hcell. inv_bind Hcell. rename u into r. inv_bind Hcell.
  destruct u as [p q]. exists r, p, q. split; [assumption|]. split; [assumption|].
  destruct (Z.gtb_spec (GrayPixel.y p) (GrayPixel.y r)) as [Hp|Hp];
    destruct (Z.gtb_spec (GrayPixel.y q) (GrayPixel.y r)) as [Hq|Hq];
    cbn [orb] in Hcell; injection Hcell as <-; cbn [GrayPixel.y];
    (split; [|split]); try (left; split; [lia | reflexivity]);
    try (right; split; [lia | reflexivity]); try (left; reflexivity);
    try (right; reflexivity); unfold uint8; lia.
Qed.

(** C6. Whenever non-maximum suppression returns a grid, each of its pixels
    is either the input pixel unchanged, or intensity 0 (alpha 255) when one
    of the two selected neighbours is strictly brighter than the input pixel;
    so no magnitude is increased. *)
Theorem nms_never_increases (pixels : grid) (directions : list (list R)) (out : grid) :
  nonMaximumSuppression pixels directions = Ok out ->
  len out = len pixels /\ nmsPixelRule pixels directions out.
Proof.
  intros H. split.
  - apply (nonMaximumSuppression_shape _ _ _ H).
  - apply nonMaximumSuppression_pixels. exact H.
Qed.

(** *** Evaluating the stage where every direction selects the horizontal
    neighbours *)

Lemma nms_horizontal (pixels : grid) (directions : list (list R)) (h w : Z) :
  rect pixels h w -> rect directions h w -> 0 < h ->
  (forall y x d, at2 directions y x = Ok d -> (-22.5 <= d < 22.5)%R) ->
  nonMaximumSuppression pixels directions = nmsHorizontal pixels.
Proof.
  intros Hp Hd Hh Hdirs. rewrite nonMaximumSuppression_loop.
  destruct (rect_row0 _ _ _ Hp Hh) as (row0 & Hrow0 & Hw0).
  destruct (rect_row0 _ _ _ Hd Hh) as (drow0 & Hdrow0 & Hdw0).
  rewrite (proj1 Hp), (proj1 Hd), Z.eqb_refl. cbn [negb].
  rewrite Hrow0, Hdrow0. cbn [bind]. rewrite Hw0, Hdw0, Z.eqb_refl. cbn [negb].
  unfold nmsHorizontal, gridLoop. rewrite (proj1 Hp).
  apply mapM_ext. intros y Hy. apply upto_In in Hy. rewrite Hrow0. cbn [bind].
  apply mapM_ext. intros x Hx. apply upto_In in Hx.
  unfold nmsCell, nmsCellHorizontal.
  destruct (at2 pixels y x) as [r|e]; [|reflexivity]. cbn [bind].
  unfold getPixelInGradientDirection. rewrite Hrow0. cbn [bind].
  destruct (at2_total directions h w y x Hd) as (d & Hdv); [lia | lia |].
  rewrite Hdv. cbn [bind].
  rewrite (gradientNeighbours_horizontal d x y (Hdirs _ _ _ Hdv)). reflexivity.
Qed.

Lemma sobelAngle_degenerate (field : list (list (Q * Q))) :
  forallb (forallb degenerate) field = true ->
  forall y x d, at2 (map (map sobelAngle) field) y x = Ok d -> (-22.5 <= d < 22.5)%R.
Proof.
  intros Hall y x d Hd. rewrite at2_map in Hd. inv_bind Hd. injection Hd as <-.
  destruct (at2_In _ _ _ _ Hm) as (row & Hrow & Hin).
  rewrite forallb_forall in Hall. specialize (Hall row Hrow).
  rewrite forallb_forall in Hall. specialize (Hall u Hin).
  unfold sobelAngle. rewrite (gradientAngle_zero _ _ Hall). lra.
Qed.

Lemma rect_edge3_field : rect edge3_field 3 3.
Proof. split; [reflexivity|]. intros row [<-|[<-|[<-|[]]]]; reflexivity. Qed.

Lemma nms_edge3 :
  nonMaximumSuppression (map (map sobelPixel) edge3_field) (map (map sobelAngle) edge3_field)
  = Ok edge3_nms.
Proof.
  rewrite (nms_horizontal _ _ 3 3).
  - vm_compute. reflexivity.
  - apply rect_map, rect_edge3_field.
  - apply rect_map, rect_edge3_field.
  - lia.
  - apply sobelAngle_degenerate. vm_compute. reflexivity.
Qed.

Lemma nms_never_increases_witness :
  len edge3_nms = len (map (map sobelPixel) edge3_field) /\
  nmsPixelRule (map (map sobelPixel) edge3_field) (map (map sobelAngle) edge3_field) edge3_nms.
Proof.
  apply (nms_never_increases _ _ edge3_nms). exact nms_edge3.
Defined.

(** ** Counting loops with an invariant *)

Lemma foldM_zrange_total {S : Type} (P : Z -> S -> Prop) (f : S -> Z -> result S) (k : nat) :
  forall s0, P 0 s0 ->
  (forall i s, 0 <= i < Z.of_nat k -> P i s -> exists s', f s i = Ok s' /\ P (i + 1) s') ->
  exists s, foldM f s0 (zrange 0 k) = Ok s /\ P (Z.of_nat k) s.
Proof.
  induction k as [|k IH]; intros s0 H0 Hstep.
  - exists s0. split; [reflexivity | exact H0].
  - destruct (IH s0 H0) as (s & Hs & HP).
    { intros i s Hi. apply Hstep. lia. }
    destruct (Hstep (Z.of_nat k) s) as (s' & Hs' & HP'); [lia | assumption |].
    exists s'. rewrite zrange_succ, foldM_app, Hs. cbn [bind foldM].
    rewrite Z.add_0_l, Hs'. cbn [bind]. split; [reflexivity|].
    rewrite Nat2Z.inj_succ. exact HP'.
Qed.

(** [for i := 0; i < n; i++] with invariant [P i] before iteration [i]. *)
Lemma foldM_upto_total {S : Type} (P : Z -> S -> Prop) (f : S -> Z -> result S) (n : Z) :
  0 <= n ->
  forall s0, P 0 s0 ->
  (forall i s, 0 <= i < n -> P i s -> exists s', f s i = Ok s' /\ P (i + 1) s') ->
  exists s, foldM f s0 (upto 0 n) = Ok s /\ P n s.
Proof.
  intros Hn s0 H0 Hstep. unfold upto. rewrite Z.sub_0_r.
  destruct (foldM_zrange_total P f (Z.to_nat n) s0 H0) as (s & Hs & HP).
  - intros i s Hi. apply Hstep. lia.
  - exists s. split; [assumption|]. rewrite Z2Nat.id in HP by assumption. exact HP.
Qed.

(** ** Writing one pixel *)

Lemma set_nth_length {A : Type} (l : list A) (n : nat) (v : A) :
  length (set_nth l n v) = length l.
Proof.
  revert n; induction l as [|x l IH]; intros [|n]; simpl; auto.
Qed.

Lemma set_nth_same {A : Type} (l : list A) (n : nat) (v : A) :
  (n < length l)%nat -> nth_error (set_nth l n v) n = Some v.
Proof.
  revert n; induction l as [|x l IH]; intros [|n] H; simpl in *; try lia; auto.
  apply IH; lia.
Qed.

Lemma set_nth_other {A : Type} (l : list A) (n m : nat) (v : A) :
  n <> m -> nth_error (set_nth l n v) m = nth_error l m.
Proof.
  revert n m; induction l as [|x l IH]; intros [|n] [|m] H; simpl; auto; try congruence.
Qed.

Lemma update_spec {A : Type} (l : list A) (i : Z) (v : A) :
  0 <= i < len l ->
  exists l', update l i v = Ok l' /\ len l' = len l /\ index l' i = Ok v /\
    forall j, j <> i -> index l' j = index l j.
Proof.
  intros Hi. unfold update. destruct (index_total l i Hi) as (old & ->). cbn [bind].
  eexists; split; [reflexivity|]. unfold len in *. split; [rewrite set_nth_length; reflexivity|].
  split.
  - apply index_Ok. split; [lia|]. apply set_nth_same. lia.
  - intros j Hj. unfold index. destruct (Z.ltb_spec j 0); [reflexivity|].
    rewrite set_nth_other by lia. reflexivity.
Qed.

Lemma setY_spec (pixels : grid) (h w y x v : Z) (p : GrayPixel) :
  rect pixels h w -> at2 pixels y x = Ok p ->
  exists pixels', setY pixels y x v = Ok pixels' /\ rect pixels' h w /\
    at2 pixels' y x = Ok (GrayPixel.mk v (GrayPixel.a p)) /\
    forall y' x', (y', x') <> (y, x) -> at2 pixels' y' x' = at2 pixels y' x'.
Proof.
  intros Hrect Hp. pose proof Hrect as [Hh Hw].
  unfold at2 in Hp. inv_bind Hp. rename u into row.
  pose proof (index_bounds _ _ _ Hm) as Hy. pose proof (index_bounds _ _ _ Hp) as Hx.
  unfold setY. rewrite Hm. cbn [bind]. rewrite Hp. cbn [bind].
  destruct (update_spec row x (GrayPixel.mk v (GrayPixel.a p)) Hx)
    as (row' & -> & Hlen' & Hsame & Hother). cbn [bind].
  destruct (update_spec pixels y row' Hy) as (pixels' & -> & Hlen2 & Hsame2 & Hother2).
  exists pixels'. split; [reflexivity|]. split; [|split].
  - split; [lia|]. intros r Hin. destruct (In_index _ _ Hin) as (j & Hj).
    destruct (Z.eq_dec j y) as [->|Hne].
    + rewrite Hsame2 in Hj. injection Hj as <-. rewrite Hlen'. apply Hw.
      eapply index_In; eassumption.
    + rewrite (Hother2 j Hne) in Hj. apply Hw. eapply index_In; eassumption.
  - unfold at2. rewrite Hsame2. cbn [bind]. exact Hsame.
  - intros y' x' Hne. unfold at2. destruct (Z.eq_dec y' y) as [->|Hy'].
    + rewrite Hsame2, Hm. cbn [bind]. apply Hother. congruence.
    + rewrite (Hother2 y' Hy'). reflexivity.
Qed.

(** ** Coordinate sets *)

Lemma Point_eqb_eq (p q : Point) : Point_eqb p q = true <-> p = q.
Proof.
  destruct p as [px' py], q as [qx qy]. unfold Point_eqb; simpl.
  rewrite andb_true_iff, !Z.eqb_eq. split; [intros [-> ->]; reflexivity | intros [= -> ->]; auto].
Qed.

Lemma Contains_In (s : mapset.Set_) (p : Point) : mapset.Contains s p = true <-> In p s.
Proof.
  unfold mapset.Contains. rewrite existsb_exists. split.
  - intros (q & Hq & Heq). apply Point_eqb_eq in Heq. subst; assumption.
  - intros H. exists p. split; [assumption | apply Point_eqb_eq; reflexivity].
Qed.

Lemma Add_In (s : mapset.Set_) (p q : Point) :
  In q (mapset.Add s p) <-> In q s \/ q = p.
Proof.
  unfold mapset.Add. destruct (mapset.Contains s p) eqn:E.
  - apply Contains_In in E. split; [auto | intros [H | ->]; assumption].
  - rewrite in_app_iff. simpl. intuition congruence.
Qed.

Lemma Intersect_nonempty (s t : mapset.Set_) :
  (mapset.Cardinality (mapset.Intersect s t) >? 0) = true <->
  exists p, In p s /\ In p t.
Proof.
  unfold mapset.Cardinality, mapset.Intersect, len. rewrite Z.gtb_ltb, Z.ltb_lt. split.
  - intros H. destruct (filter (mapset.Contains t) s) as [|p l] eqn:E; [simpl in H; lia|].
    assert (Hin : In p (filter (mapset.Contains t) s)) by (rewrite E; left; reflexivity).
    apply filter_In in Hin as [Hs Ht]. apply Contains_In in Ht. eauto.
  - intros (p & Hs & Ht).
    assert (Hin : In p (filter (mapset.Contains t) s)).
    { apply filter_In. split; [assumption | apply Contains_In; assumption]. }
    destruct (filter (mapset.Contains t) s); [destruct Hin | simpl; lia].
Qed.

(** ** Double threshold *)

Lemma doublethreshold_loop (pixels : grid) (high low : float) :
  doublethreshold pixels high low =
  foldM (fun st y =>
           row0 <- index (fst (fst st)) 0 ;;
           foldM (thresholdCell high low y) st (upto 0 (len row0)))
        (pixels, mapset.NewSet, mapset.NewSet) (upto 0 (len pixels)).
Proof. reflexivity. Qed.

Section DoubleThreshold.

Variables (pixels : grid) (h w : Z) (high low : float).
Hypothesis Hrect : rect pixels h w.

Local Abbreviation Inv := (thresholdInv pixels h w high low).

Lemma thresholdInv_ext (done done' : Z -> Z -> Prop) st :
  (forall x y, 0 <= y < h -> 0 <= x < w -> (done x y <-> done' x y)) ->
  Inv done st -> Inv done' st.
Proof.
  intros Hext (Hr & Hsets & Hcells). split; [assumption|]. split; [assumption|].
  intros x y p Hp. destruct (at2_bounds _ _ _ _ _ _ Hrect Hp) as [Hy Hx].
  destruct (Hcells x y p Hp) as [Hnot Hdone]. split; intros Hd.
  - apply Hnot. rewrite (Hext x y Hy Hx). assumption.
  - apply Hdone. rewrite (Hext x y Hy Hx). assumption.
Qed.

Lemma mkPoint_inj (x y x' y' : Z) : mkPoint x y = mkPoint x' y' <-> x = x' /\ y = y'.
Proof. split; [intros [= -> ->]; auto | intros [-> ->]; reflexivity]. Qed.

Lemma thresholdCell_step (done : Z -> Z -> Prop) st (x y : Z) :
  Inv done st -> 0 <= y < h -> 0 <= x < w -> ~ done x y ->
  exists st', thresholdCell high low y st x = Ok st' /\
    Inv (fun x' y' => done x' y' \/ (x' = x /\ y' = y)) st'.
Proof.
  intros (Hr & Hsets & Hcells) Hy Hx Hnd. destruct st as [[g s] wk]. cbn [fst snd] in *.
  destruct (at2_total pixels h w y x Hrect Hy Hx) as (p & Hp).
  destruct (Hcells x y p Hp) as [Hnot _]. destruct (Hnot Hnd) as (Hg & Hns & Hnw).
  unfold thresholdCell. rewrite Hg. cbn [bind].
  assert (Hframe : forall g' s' wk',
    rect g' h w ->
    (forall pt, In pt s' \/ In pt wk' -> In pt s \/ In pt wk \/ pt = mkPoint x y) ->
    (forall x' y', (x', y') <> (x, y) ->
       at2 g' y' x' = at2 g y' x' /\
       (In (mkPoint x' y') s' <-> In (mkPoint x' y') s) /\
       (In (mkPoint x' y') wk' <-> In (mkPoint x' y') wk)) ->
    thresholdOutcome high low (g', s', wk') x y p ->
    Inv (fun x' y' => done x' y' \/ (x' = x /\ y' = y)) (g', s', wk')).
  { intros g' s' wk' Hr' Hsub Hoth Hout. split; [exact Hr'|]. split.
    - intros pt Hpt. destruct (Hsub pt Hpt) as [H|[H| ->]]; [apply Hsets; auto ..|].
      exists p. exact Hp.
    - cbn [fst snd]. intros x' y' p' Hp'.
      destruct (Z.eq_dec x' x) as [->|Hxne]; [destruct (Z.eq_dec y' y) as [->|Hyne]|].
      + assert (p' = p) by congruence. subst p'. split; [intros Hc; exfalso; apply Hc; auto|].
        intros _. exact Hout.
      + destruct (Hoth x y') as (Eg & Es & Ew); [congruence|].
        destruct (Hcells x y' p' Hp') as [Hn Hd]. split.
        * intros Hc. assert (Hc' : ~ done x y') by tauto.
          destruct (Hn Hc') as (Ha & Hb & Hd'). rewrite Eg. tauto.
        * intros [Hc | [_ Hc]]; [|congruence]. specialize (Hd Hc).
          unfold thresholdOutcome, keptStrong, keptWeak, zeroed in *.
          rewrite Eg. destruct (fgtb (float64_of_uint8 (GrayPixel.y p')) high); [tauto|].
          destruct (fgtb high (float64_of_uint8 (GrayPixel.y p')) &&
                    fgtb (float64_of_uint8 (GrayPixel.y p')) low); tauto.
      + destruct (Hoth x' y') as (Eg & Es & Ew); [congruence|].
        destruct (Hcells x' y' p' Hp') as [Hn Hd]. split.
        * intros Hc. assert (Hc' : ~ done x' y') by tauto.
          destruct (Hn Hc') as (Ha & Hb & Hd'). rewrite Eg. tauto.
        * intros [Hc | [Hc _]]; [|congruence]. specialize (Hd Hc).
          unfold thresholdOutcome, keptStrong, keptWeak, zeroed in *.
          rewrite Eg. destruct (fgtb (float64_of_uint8 (GrayPixel.y p')) high); [tauto|].
          destruct (fgtb high (float64_of_uint8 (GrayPixel.y p')) &&
                    fgtb (float64_of_uint8 (GrayPixel.y p')) low); tauto. }
  assert (Hpt : forall x' y', (x', y') <> (x, y) -> mkPoint x' y' <> mkPoint x y).
  { intros x' y' Hne Heq. apply mkPoint_inj in Heq as [-> ->]. congruence. }
  destruct (fgtb (float64_of_uint8 (GrayPixel.y p)) high) eqn:Estrong.
  - eexists. split; [reflexivity|]. apply Hframe.
    + exact Hr.
    + intros pt [H|H]; [apply Add_In in H as [H| ->]; auto | auto].
    + intros x' y' Hne. split; [reflexivity|]. split; [|reflexivity].
      rewrite Add_In. specialize (Hpt _ _ Hne). tauto.
    + unfold thresholdOutcome. rewrite Estrong. unfold keptStrong.
      rewrite Add_In. auto.
  - destruct (fgtb high (float64_of_uint8 (GrayPixel.y p)) && fgtb (float64_of_uint8 (GrayPixel.y p)) low)
      eqn:Eweak.
    + eexists. split; [reflexivity|]. apply Hframe.
      * exact Hr.
      * intros pt [H|H]; [auto | apply Add_In in H as [H| ->]; auto].
      * intros x' y' Hne. split; [reflexivity|]. split; [reflexivity|].
        rewrite Add_In. specialize (Hpt _ _ Hne). tauto.
      * unfold thresholdOutcome. rewrite Estrong, Eweak. unfold keptWeak.
        rewrite Add_In. auto.
    + destruct (setY_spec g h w y x 0 p Hr Hg) as (g' & -> & Hr' & Hsame & Hother).
      cbn [bind]. eexists. split; [reflexivity|]. apply Hframe.
      * exact Hr'.
      * intros pt [H|H]; auto.
      * intros x' y' Hne. split; [|split; reflexivity]. apply Hother. congruence.
      * unfold thresholdOutcome. rewrite Estrong, Eweak. unfold zeroed. auto.
Qed.

(** The stage is defined on every rectangular grid; on return every cell has
    been visited. *)
Lemma doublethreshold_inv :
  exists out, doublethreshold pixels high low = Ok out /\
    Inv (fun _ _ => True) out.
Proof.
  rewrite doublethreshold_loop. pose proof Hrect as [Hh Hw]. rewrite Hh.
  destruct (foldM_upto_total (fun y st => Inv (fun _ y' => y' < y) st)
              (fun st y => row0 <- index (fst (fst st)) 0 ;;
                           foldM (thresholdCell high low y) st (upto 0 (len row0)))
              h) with (s0 := (pixels, mapset.NewSet, mapset.NewSet))
    as (out & Hout & Hinv).
  - rewrite <- Hh. apply len_nonneg.
  - split; [exact Hrect|]. split; [intros pt [[]|[]]|].
    intros x y p Hp. destruct (at2_bounds _ _ _ _ _ _ Hrect Hp) as [Hy Hx].
    split; [intros _; cbn; auto | intros Hc; lia].
  - intros y st Hy Hinv.
    destruct (rect_row0 _ _ _ (proj1 Hinv)) as (row0 & -> & Hw0); [lia|]. cbn [bind].
    rewrite Hw0.
    destruct (foldM_upto_total
                (fun x st => Inv (fun x' y' => y' < y \/ (y' = y /\ x' < x)) st)
                (thresholdCell high low y) w) with (s0 := st) as (st' & Hst' & Hinv').
    + destruct (Z.le_gt_cases 0 w) as [H0|H0]; [assumption|].
      destruct (rect_row0 _ _ _ Hrect) as (r & Hr & Hlen); [lia|].
      pose proof (len_nonneg r). lia.
    + apply (thresholdInv_ext (fun _ y' => y' < y)); [|assumption]. intros; lia.
    + intros x st1 Hx Hinv1.
      destruct (thresholdCell_step _ st1 x y Hinv1 Hy Hx) as (st2 & Hst2 & Hinv2); [lia|].
      exists st2. split; [assumption|].
      eapply thresholdInv_ext; [|exact Hinv2]. intros x' y' Hy' Hx'. cbv beta. lia.
    + exists st'. split; [assumption|].
      eapply thresholdInv_ext; [|exact Hinv']. intros x' y' Hy' Hx'. cbv beta. lia.
  - exists out. split; [assumption|].
    eapply thresholdInv_ext; [|exact Hinv]. intros x' y' Hy' Hx'. cbv beta. split; [tauto | lia].
Qed.

End DoubleThreshold.

(** *** C5: the three-way classification *)

Lemma SFcompare_Eq_sym (u v : SpecFloat.spec_float) :
  SpecFloat.SFcompare u v = Some Eq -> SpecFloat.SFcompare v u = Some Eq.
Proof.
  destruct u as [su|su| |su mu eu], v as [sv|sv| |sv mv ev]; simpl;
    try discriminate; try reflexivity;
    try (destruct su; discriminate); try (destruct sv; discriminate).
  - destruct su, sv; try discriminate; reflexivity.
  - destruct su, sv; try discriminate;
      (destruct (Z.compare eu ev) eqn:E; try discriminate;
       apply Z.compare_eq in E; subst ev; rewrite Z.compare_refl;
       intros H; injection H as H;
       destruct (Pos.compare_cont Eq mu mv) eqn:E2; try discriminate;
       apply Pos.compare_eq in E2; subst mv;
       change (Pos.compare_cont Eq mu mu) with (Pos.compare mu mu);
       rewrite Pos.compare_refl; reflexivity).
Qed.

(** Two float64 values that compare equal are not ordered either way. *)
Lemma float_eqb_not_gtb (u v : float) :
  (u =? v)%float = true -> fgtb u v = false /\ fgtb v u = false.
Proof.
  unfold fgtb. rewrite FloatAxioms.eqb_spec, !FloatAxioms.ltb_spec.
  unfold SpecFloat.SFeqb, SpecFloat.SFltb.
  destruct (SpecFloat.SFcompare (FloatOps.Prim2SF u) (FloatOps.Prim2SF v)) as [[| |]|] eqn:E; try discriminate.
  intros _. rewrite (SFcompare_Eq_sym _ _ E). split; reflexivity.
Qed.

Lemma thresholdOutcome_rule (high low : float) out (x y : Z) (p : GrayPixel) :
  thresholdOutcome high low out x y p -> thresholdRule high low out x y p.
Proof.
  unfold thresholdOutcome, thresholdRule.
  destruct (fgtb (float64_of_uint8 (GrayPixel.y p)) high); [auto|].
  destruct (fgtb high (float64_of_uint8 (GrayPixel.y p)));
    destruct (fgtb (float64_of_uint8 (GrayPixel.y p)) low); cbn [andb]; auto 10.
Qed.

Lemma exclusive_outcomes out (x y : Z) (p : GrayPixel) : exclusiveOutcomes out x y p.
Proof.
  destruct out as [[g s] wk]. unfold exclusiveOutcomes, keptStrong, keptWeak, zeroed. tauto.
Qed.

(** C5, as stated, fails at its last clause: with [low = 5 > high = 3] a
    pixel of magnitude 5 equals [low] and is Strong, since the first test
    [5 > high] succeeds. *)
Lemma boundaryIsSuppressed_counterexample :
  ~ boundaryIsSuppressed [[px 5]] 3 5.
Proof.
  intros (out & Hout & H).
  vm_compute in Hout. injection Hout as <-.
  destruct (H 0 0 (px 5)) as (Hns & _).
  - reflexivity.
  - right. reflexivity.
  - apply Hns. left. reflexivity.
Qed.

(** C5 (amended). On every rectangular grid the stage returns, and every
    coordinate gets exactly one of three outcomes, decided by strict
    comparisons: Strong (magnitude > high; the pixel is kept), Weak
    (low < magnitude < high; kept), or neither (intensity zeroed in place).
    A magnitude equal to [high] is zeroed; a magnitude equal to [low] is
    zeroed when it does not exceed [high], and is Strong when it does. *)
Theorem doublethreshold_partition (pixels : grid) (h w : Z) (high low : float) :
  rect pixels h w ->
  exists out, doublethreshold pixels high low = Ok out /\
    rect (fst (fst out)) h w /\ thresholdPartition pixels high low out.
Proof.
  intros Hrect.
  destruct (doublethreshold_inv pixels h w high low Hrect) as (out & Hout & Hr & Hsets & Hcells).
  exists out. split; [assumption|]. split; [assumption|]. split; [assumption|].
  intros x y p Hp m. destruct (Hcells x y p Hp) as [_ Hdone]. specialize (Hdone I).
  split; [apply thresholdOutcome_rule; assumption|].
  split; [apply exclusive_outcomes|].
  unfold thresholdOutcome in Hdone. fold m in Hdone.
  split; [|split].
  - intros Heq. destruct (float_eqb_not_gtb m high Heq) as [E1 E2].
    rewrite E1, E2 in Hdone. exact Hdone.
  - intros Heq Hle. destruct (float_eqb_not_gtb m low Heq) as [E1 _].
    rewrite Hle, E1, andb_false_r in Hdone. exact Hdone.
  - intros Heq Hgt. rewrite Hgt in Hdone. exact Hdone.
Qed.

Lemma doublethreshold_partition_witness :
  exists out, doublethreshold edge3 20 5 = Ok out /\
    rect (fst (fst out)) 3 3 /\ thresholdPartition edge3 20 5 out.
Proof.
  apply (doublethreshold_partition edge3 3 3).
  split; [reflexivity|]. intros row [<-|[<-|[<-|[]]]]; reflexivity.
Defined.

(** ** Hysteresis *)

Lemma fold_Add_In {A : Type} (c : A -> bool) (f : A -> Point) (l : list A)
  (acc : mapset.Set_) (pt : Point) :
  In pt (fold_left (fun acc j => if c j then mapset.Add acc (f j) else acc) l acc) <->
  In pt acc \/ exists j, In j l /\ c j = true /\ pt = f j.
Proof.
  revert acc; induction l as [|j l IH]; intros acc; simpl.
  - split; [auto | intros [H | (j & [] & _)]; assumption].
  - rewrite IH. destruct (c j) eqn:Ec.
    + rewrite Add_In. split.
      * intros [[H | ->] | (j' & Hin & Hc & ->)]; eauto 6.
      * intros [H | (j' & [<- | Hin] & Hc & ->)]; eauto 6.
    + split.
      * intros [H | (j' & Hin & Hc & ->)]; eauto 6.
      * intros [H | (j' & [<- | Hin] & Hc & ->)]; [auto | congruence | eauto 6].
Qed.

(** The set that [getAdjacentPixels] builds: the loops stop before [y + 1]
    and [x + 1], and the test drops the row and the column of the centre,
    which leaves the upper-left diagonal cell alone. *)
Lemma getAdjacentPixels_spec (pixels : grid) (x y : Z) (s : mapset.Set_) :
  getAdjacentPixels pixels x y = Ok s ->
  exists row0, index pixels 0 = Ok row0 /\
    forall pt, In pt s <->
      pt = mkPoint (x - 1) (y - 1) /\ 1 <= x <= len row0 /\ 1 <= y <= len pixels.
Proof.
  unfold getAdjacentPixels. intros H. inv_bind H. rename u into row0.
  exists row0. split; [assumption|]. injection H as <-. intros pt.
  pose proof (len_nonneg row0) as Hw. pose proof (len_nonneg pixels) as Hh.
  set (inner := fun (i : Z) (acc : mapset.Set_) =>
    fold_left (fun acc j => if negb (i =? y) && negb (j =? x)
                            then mapset.Add acc (mkPoint j i) else acc)
              (upto (Z.max 0 (x - 1)) (Z.min (len row0) (x + 1))) acc).
  assert (Hinner : forall i acc q, In q (inner i acc) <->
            In q acc \/ (i <> y /\ q = mkPoint (x - 1) i /\ 1 <= x <= len row0)).
  { intros i acc q. unfold inner.
    rewrite (fold_Add_In (fun j => negb (i =? y) && negb (j =? x)) (fun j => mkPoint j i)).
    split; (intros [H | H]; [left; assumption | right]).
    - destruct H as (j & Hj & Hc & ->). apply upto_In in Hj.
      apply andb_true_iff in Hc as [Hi Hjx].
      apply negb_true_iff, Z.eqb_neq in Hi, Hjx.
      assert (j = x - 1) by lia. subst j. repeat split; [assumption | lia | lia].
    - destruct H as (Hi & -> & Hx). exists (x - 1). split; [apply upto_In; lia|].
      split; [|reflexivity]. apply andb_true_iff.
      split; apply negb_true_iff, Z.eqb_neq; lia. }
  assert (Houter : forall l acc q,
            In q (fold_left (fun acc i => inner i acc) l acc) <->
            In q acc \/ exists i, In i l /\ i <> y /\ q = mkPoint (x - 1) i /\ 1 <= x <= len row0).
  { induction l as [|i l IH]; intros acc q; simpl.
    - split; [auto | intros [H | (i & [] & _)]; assumption].
    - rewrite IH, Hinner. split.
      + intros [[H | (Hi & -> & Hx)] | (i' & Hin & Hi & -> & Hx)]; eauto 8.
      + intros [H | (i' & [<- | Hin] & Hi & -> & Hx)]; eauto 8. }
  apply (iff_trans (Houter (upto (Z.max 0 (y - 1)) (Z.min (len pixels) (y + 1)))
                           mapset.NewSet pt)).
  split.
  - intros [[] | (i & Hi & Hne & -> & Hx)]. apply upto_In in Hi.
    assert (i = y - 1) by lia. subst i. repeat split; lia.
  - intros (-> & Hx & Hy). right. exists (y - 1). split; [apply upto_In; lia|].
    split; [lia|]. split; [reflexivity | assumption].
Qed.

Lemma getAdjacentPixels_total (pixels : grid) (x y : Z) :
  0 < len pixels -> exists s, getAdjacentPixels pixels x y = Ok s.
Proof.
  intros H. unfold getAdjacentPixels.
  destruct (index_total pixels 0) as (row0 & ->); [lia|]. cbn [bind]. eauto.
Qed.

Lemma Point_eq_dec (p q : Point) : {p = q} + {p <> q}.
Proof. decide equality; apply Z.eq_dec. Defined.

Lemma edgeTracking_loop (pixels : grid) (strong weak : mapset.Set_) :
  edgeTracking pixels strong weak = foldM trackPoint (pixels, strong) weak.
Proof. reflexivity. Qed.

(** The grid that hysteresis leaves: every weak coordinate is zeroed, every
    other pixel is untouched; alpha is kept everywhere. *)
Lemma edgeTracking_grid (h w : Z) (weak : mapset.Set_) :
  forall (pixels : grid) (strong : mapset.Set_),
  rect pixels h w ->
  (forall pt, In pt weak -> exists p, at2 pixels (Y pt) (X pt) = Ok p) ->
  exists pixels' strong', edgeTracking pixels strong weak = Ok (pixels', strong') /\
    rect pixels' h w /\
    forall x y p, at2 pixels y x = Ok p ->
      (In (mkPoint x y) weak -> at2 pixels' y x = Ok (GrayPixel.mk 0 (GrayPixel.a p))) /\
      (~ In (mkPoint x y) weak -> at2 pixels' y x = Ok p).
Proof.
  induction weak as [|pt weak IH]; intros pixels strong Hrect Hweak.
  - exists pixels, strong. split; [reflexivity|]. split; [assumption|].
    intros x y p Hp. split; [intros [] | auto].
  - rewrite edgeTracking_loop. cbn [foldM]. unfold trackPoint at 1.
    destruct (Hweak pt (or_introl eq_refl)) as (p0 & Hp0).
    destruct (at2_bounds _ _ _ _ _ _ Hrect Hp0) as [Hy0 Hx0].
    destruct (getAdjacentPixels_total pixels (X pt) (Y pt)) as (nb & ->);
      [rewrite (proj1 Hrect); lia|].
    cbn [bind].
    destruct (setY_spec pixels h w (Y pt) (X pt) 0 p0 Hrect Hp0)
      as (pixels1 & -> & Hrect1 & Hsame & Hother).
    cbn [bind].
    set (strong1 := if mapset.Cardinality (mapset.Intersect strong nb) >? 0
                    then mapset.Add strong pt else strong).
    destruct (IH pixels1 strong1 Hrect1) as (pixels' & strong' & Hrun & Hrect' & Hcells).
    { intros q Hq. destruct (Hweak q (or_intror Hq)) as (pq & Hpq).
      destruct (at2_bounds _ _ _ _ _ _ Hrect Hpq) as [Hyq Hxq].
      apply (at2_total pixels1 h w); assumption. }
    rewrite edgeTracking_loop in Hrun. exists pixels', strong'.
    split; [exact Hrun|]. split; [assumption|].
    intros x y p Hp.
    destruct (Z.eq_dec x (X pt)) as [Hx|Hx]; [destruct (Z.eq_dec y (Y pt)) as [Hy|Hy]|].
    + subst x y. assert (p = p0) by congruence. subst p0.
      destruct (Hcells _ _ _ Hsame) as [Hin Hnin]. cbn [GrayPixel.a] in *.
      split; [|intros Hc; exfalso; apply Hc; left; destruct pt; reflexivity].
      intros _. destruct (in_dec Point_eq_dec (mkPoint (X pt) (Y pt)) weak) as [Hw|Hw]; auto.
    + assert (Hp1 : at2 pixels1 y x = Ok p) by (rewrite Hother; [assumption | congruence]).
      destruct (Hcells _ _ _ Hp1) as [Hin Hnin]. split.
      * intros [Heq | Hw]; [subst pt; simpl in Hy; congruence | auto].
      * intros Hc. apply Hnin. intros Hw. apply Hc. right. assumption.
    + assert (Hp1 : at2 pixels1 y x = Ok p) by (rewrite Hother; [assumption | congruence]).
      destruct (Hcells _ _ _ Hp1) as [Hin Hnin]. split.
      * intros [Heq | Hw]; [subst pt; simpl in Hx; congruence | auto].
      * intros Hc. apply Hnin. intros Hw. apply Hc. right. assumption.
Qed.

Lemma at2_outside {A : Type} (g : list (list A)) (h w y x : Z) :
  rect g h w -> ~ (0 <= y < h /\ 0 <= x < w) -> at2 g y x = Panic IndexOutOfRange.
Proof.
  intros Hrect Hout. destruct (at2 g y x) as [v|e] eqn:E.
  - exfalso. apply Hout. eapply at2_bounds; eassumption.
  - apply at2_Panic in E. congruence.
Qed.

(** The grid that hysteresis returns does not depend on the order in which
    the Weak Set is traversed, nor on the Strong Set. *)
Lemma edgeTracking_order_irrelevant (h w : Z) (pixels : grid)
  (strong1 strong2 weak1 weak2 : mapset.Set_) (out1 out2 : grid) (s1 s2 : mapset.Set_) :
  rect pixels h w ->
  (forall pt, In pt weak1 -> exists p, at2 pixels (Y pt) (X pt) = Ok p) ->
  Permutation weak1 weak2 ->
  edgeTracking pixels strong1 weak1 = Ok (out1, s1) ->
  edgeTracking pixels strong2 weak2 = Ok (out2, s2) ->
  forall y x, at2 out1 y x = at2 out2 y x.
Proof.
  intros Hrect Hweak Hperm H1 H2 y x.
  destruct (edgeTracking_grid h w weak1 pixels strong1 Hrect Hweak) as (o1 & t1 & E1 & R1 & C1).
  destruct (edgeTracking_grid h w weak2 pixels strong2 Hrect) as (o2 & t2 & E2 & R2 & C2).
  { intros pt Hpt. apply Hweak. eapply Permutation_in; [apply Permutation_sym|]; eassumption. }
  rewrite H1 in E1. injection E1 as <- <-. rewrite H2 in E2. injection E2 as <- <-.
  destruct (at2 pixels y x) as [p|e] eqn:Ep.
  - destruct (C1 x y p Ep) as [Hin1 Hnin1]. destruct (C2 x y p Ep) as [Hin2 Hnin2].
    destruct (in_dec Point_eq_dec (mkPoint x y) weak1) as [Hw|Hw].
    + rewrite (Hin1 Hw). symmetry. apply Hin2. eapply Permutation_in; eassumption.
    + rewrite (Hnin1 Hw). symmetry. apply Hnin2. intros Hc. apply Hw.
      eapply Permutation_in; [apply Permutation_sym|]; eassumption.
  - assert (Hout : ~ (0 <= y < h /\ 0 <= x < w)).
    { intros [Hy Hx]. destruct (at2_total pixels h w y x Hrect Hy Hx) as (p & Hp). congruence. }
    rewrite (at2_outside out1 h w y x R1 Hout), (at2_outside out2 h w y x R2 Hout). reflexivity.
Qed.

(** ** The pipeline *)

Lemma CannyEdgeDetect_stages (pixels : grid) (blur : bool) (minRatio maxRatio : float) :
  CannyEdgeDetect pixels blur minRatio maxRatio =
  (nms <- suppressedMagnitudes pixels blur ;; thresholdAndTrack nms minRatio maxRatio).
Proof.
  unfold CannyEdgeDetect, suppressedMagnitudes, thresholdAndTrack.
  destruct (if blur then gaussianBlur pixels 5 else Ok pixels) as [p0|e]; [|reflexivity].
  cbn [bind]. destruct (sobel p0) as [[mag dirs]|e]; [|reflexivity]. cbn [bind].
  destruct (nonMaximumSuppression mag dirs); reflexivity.
Qed.

Lemma nonMaximumSuppression_rect (pixels : grid) (directions : list (list R)) (out : grid) :
  nonMaximumSuppression pixels directions = Ok out ->
  exists h w, 0 < h /\ rect out h w.
Proof.
  intros H. pose proof H as H'. rewrite nonMaximumSuppression_loop in H'. inv_bind H'.
  destruct u; [discriminate|].
  destruct (negb (len pixels =? len directions)); [discriminate Hm|].
  inv_bind Hm. rename u into row0. clear Hm.
  exists (len pixels), (len row0). split.
  - apply index_bounds in Hm0. lia.
  - apply (gridLoop_rect (fun _ => index pixels 0) (nmsCell pixels directions)
             (len pixels) (len row0) out (len_nonneg pixels)); [|exact H'].
    intros y row _ Hrow. congruence.
Qed.

(** Thresholding and tracking together: a pixel strictly above [high] is
    returned as it is, every other pixel is returned with intensity 0. *)
Lemma threshold_then_track (pixels : grid) (h w : Z) (high low : float)
  (pixels3 : grid) (strong weak : mapset.Set_) (out : grid) (strong' : mapset.Set_) :
  rect pixels h w ->
  doublethreshold pixels high low = Ok (pixels3, strong, weak) ->
  edgeTracking pixels3 strong weak = Ok (out, strong') ->
  rect out h w /\
  forall x y p, at2 pixels y x = Ok p ->
    at2 out y x =
    Ok (if fgtb (float64_of_uint8 (GrayPixel.y p)) high then p
        else GrayPixel.mk 0 (GrayPixel.a p)).
Proof.
  intros Hrect Hdt Het.
  destruct (doublethreshold_inv pixels h w high low Hrect) as (st & Hst & Hr3 & Hsets & Hcells).
  rewrite Hdt in Hst. injection Hst as <-. cbn [fst snd] in *.
  destruct (edgeTracking_grid h w weak pixels3 strong Hr3) as (out1 & s1 & Hrun & Hrout & Hout).
  { intros pt Hpt. destruct (Hsets pt (or_intror Hpt)) as (p & Hp).
    destruct (at2_bounds _ _ _ _ _ _ Hrect Hp) as [Hy Hx].
    apply (at2_total pixels3 h w); assumption. }
  rewrite Het in Hrun. injection Hrun as <- <-.
  split; [assumption|]. intros x y p Hp.
  destruct (Hcells x y p Hp) as [_ Hdone]. specialize (Hdone I).
  unfold thresholdOutcome, keptStrong, keptWeak, zeroed in Hdone.
  destruct (fgtb (float64_of_uint8 (GrayPixel.y p)) high).
  - destruct Hdone as (_ & Hnw & H3). apply (Hout _ _ _ H3). assumption.
  - destruct (fgtb high (float64_of_uint8 (GrayPixel.y p)) && fgtb (float64_of_uint8 (GrayPixel.y p)) low).
    + destruct Hdone as (Hw & _ & H3). apply (Hout _ _ _ H3). assumption.
    + destruct Hdone as (_ & Hnw & H3). apply (Hout _ _ _ H3). assumption.
Qed.

(** *** C1: what the output consists of *)

Lemma CannyEdgeDetect_output (pixels : grid) (blur : bool) (minRatio maxRatio : float)
  (out : grid) :
  CannyEdgeDetect pixels blur minRatio maxRatio = Ok out ->
  exists nms max h w,
    suppressedMagnitudes pixels blur = Ok nms /\ maxPixelValue nms = Ok max /\
    rect nms h w /\ rect out h w /\
    forall x y p, at2 nms y x = Ok p ->
      at2 out y x =
      Ok (if fgtb (float64_of_uint8 (GrayPixel.y p)) (maxRatio * float64_of_uint8 max) then p
          else GrayPixel.mk 0 (GrayPixel.a p)).
Proof.
  rewrite CannyEdgeDetect_stages. intros H. inv_bind H. rename u into nms.
  unfold thresholdAndTrack in H. inv_bind H. rename u into max. inv_bind H.
  destruct u as [[pixels3 strong] weak]. inv_bind H. destruct u as [out1 strong'].
  injection H as ->.
  assert (Hnr : exists h w, rect nms h w).
  { unfold suppressedMagnitudes in Hm. inv_bind Hm. inv_bind Hm. destruct u0 as [mag dirs].
    destruct (nonMaximumSuppression_rect _ _ _ Hm) as (h & w & _ & Hr). eauto. }
  destruct Hnr as (h & w & Hnr).
  destruct (threshold_then_track nms h w _ _ _ _ _ _ _ Hnr Hm1 Hm2) as [Hrout Hcells].
  exists nms, max, h, w. auto.
Qed.

(** C1 (amended). The grid returned by [CannyEdgeDetect] has the shape of
    the suppressed-magnitude grid; a pixel whose suppressed magnitude is
    strictly above [maxRatio * max] is returned unchanged, with that
    magnitude as its intensity, and every other pixel has intensity 0 and
    keeps its alpha.  So each returned pixel is the suppressed pixel at its
    coordinate, or that pixel with intensity 0. *)
Theorem canny_strong_kept_else_zero (pixels : grid) (blur : bool) (minRatio maxRatio : float)
  (out : grid) :
  CannyEdgeDetect pixels blur minRatio maxRatio = Ok out ->
  strongKeptElseZero pixels blur maxRatio out.
Proof.
  intros H.
  destruct (CannyEdgeDetect_output _ _ _ _ _ H) as (nms & max & h & w & Hn & Hmax & Hrn & Hro & Hc).
  exists nms, max. split; [assumption|]. split; [assumption|].
  split; [rewrite (proj1 Hrn), (proj1 Hro); reflexivity|]. split.
  - intros x y o Ho. destruct (at2_bounds _ _ _ _ _ _ Hro Ho) as [Hy Hx].
    destruct (at2_total nms h w y x Hrn Hy Hx) as (p & Hp). exists p. split; [assumption|].
    rewrite (Hc x y p Hp) in Ho. injection Ho as <-.
    destruct (fgtb _ _); [left | right]; reflexivity.
  - intros x y p Hp high m. rewrite (Hc x y p Hp). fold high. fold m. split.
    + intros Hgt. rewrite Hgt. reflexivity.
    + intros Hle. rewrite Hle. reflexivity.
Qed.

(** The output for [edge3] with ratios 1/4 and 1/2 (both exact in binary64):
    the edge column keeps its magnitude 160. *)
Lemma canny_edge3 : CannyEdgeDetect edge3 false 0.25 0.5 = Ok edge3_nms.
Proof.
  rewrite CannyEdgeDetect_stages. unfold suppressedMagnitudes. cbn [bind].
  rewrite sobel_edge3. cbn [bind]. rewrite nms_edge3. cbn [bind].
  vm_compute. reflexivity.
Qed.

(** C1, as stated, fails: on [edge3] the returned grid holds intensity 160. *)
Lemma binaryOutput_counterexample : ~ binaryOutput edge3 false 0.25 0.5.
Proof.
  intros H.
  destruct (H eq_refl eq_refl edge3_nms canny_edge3 [px 0; px 160; px 0] (px 160)) as [H0 | H0].
  - left; reflexivity.
  - right; left; reflexivity.
  - discriminate H0.
  - discriminate H0.
Qed.

Lemma canny_strong_kept_else_zero_witness :
  strongKeptElseZero edge3 false 0.5 edge3_nms.
Proof.
  apply (canny_strong_kept_else_zero edge3 false 0.25 0.5 edge3_nms).
  exact canny_edge3.
Defined.

(** *** C4: a single bright pixel *)

(** Both Sobel kernels have weight 0 at their centre, and with the padding
    every window of [spot3] holds the bright pixel either at its centre or
    at places whose weights cancel: all responses are 0. *)
Lemma sobelField_spot3 : sobelField spot3 = Ok blank3_field.
Proof. vm_compute. reflexivity. Qed.

Lemma suppressedMagnitudes_spot3 : suppressedMagnitudes spot3 false = Ok blank3.
Proof.
  unfold suppressedMagnitudes. cbn [bind]. rewrite sobel_field, sobelField_spot3. cbn [bind].
  rewrite (nms_horizontal _ _ 3 3).
  - vm_compute. reflexivity.
  - apply rect_map. split; [reflexivity|]. intros row [<-|[<-|[<-|[]]]]; reflexivity.
  - apply rect_map. split; [reflexivity|]. intros row [<-|[<-|[<-|[]]]]; reflexivity.
  - lia.
  - apply sobelAngle_degenerate. vm_compute. reflexivity.
Qed.

Lemma canny_spot3 : CannyEdgeDetect spot3 false ratio_0_2 ratio_0_6 = Ok blank3.
Proof.
  rewrite CannyEdgeDetect_stages, suppressedMagnitudes_spot3. cbn [bind].
  vm_compute. reflexivity.
Qed.

(** C4, as stated, fails: the centre of the output is 0, not 255. *)
Lemma spotSurvives_counterexample : ~ spotSurvives.
Proof.
  intros (out & Hout & (c & Hc & Hy) & _).
  rewrite canny_spot3 in Hout. injection Hout as <-.
  vm_compute in Hc. injection Hc as <-. discriminate Hy.
Qed.

(** C4 (amended). For the 3x3 grid with a single 255 at its centre, ratios
    0.2 and 0.6 and no blur, the magnitudes handed to the double threshold
    are 0 everywhere, their maximum is 0, no coordinate is Strong or Weak,
    and all nine pixels of the output have intensity 0. *)
Theorem canny_spot3_blank :
  suppressedMagnitudes spot3 false = Ok blank3 /\
  maxPixelValue blank3 = Ok 0 /\
  doublethreshold blank3 (ratio_0_6 * float64_of_uint8 0) (ratio_0_2 * float64_of_uint8 0)
    = Ok (blank3, [], []) /\
  CannyEdgeDetect spot3 false ratio_0_2 ratio_0_6 = Ok blank3.
Proof.
  split; [exact suppressedMagnitudes_spot3|].
  split; [vm_compute; reflexivity|].
  split; [vm_compute; reflexivity|].
  exact canny_spot3.
Qed.

(** *** C10: the output is opaque *)

Lemma suppressedMagnitudes_alpha (pixels : grid) (blur : bool) (nms : grid) :
  suppressedMagnitudes pixels blur = Ok nms ->
  forall y x p, at2 nms y x = Ok p -> GrayPixel.a p = 255.
Proof.
  unfold suppressedMagnitudes. intros H. inv_bind H. inv_bind H. destruct u0 as [mag dirs].
  intros y x o Ho.
  destruct (nonMaximumSuppression_pixels _ _ _ H y x o Ho)
    as (r & p & q & Hr & _ & [[_ ->] | [_ ->]] & _); [reflexivity|].
  destruct (sobel_cells _ _ _ Hm0) as (field & _ & -> & _).
  rewrite at2_map in Hr. inv_bind Hr. injection Hr as <-. reflexivity.
Qed.

(** C10. Every pixel of a grid returned by [CannyEdgeDetect] has alpha 255,
    whatever the alpha values of the input, the blur flag and the ratios. *)
Theorem canny_alpha_opaque (pixels : grid) (blur : bool) (minRatio maxRatio : float)
  (out : grid) :
  CannyEdgeDetect pixels blur minRatio maxRatio = Ok out -> allOpaque out.
Proof.
  intros H row p Hrow Hp.
  destruct (CannyEdgeDetect_output _ _ _ _ _ H) as (nms & max & h & w & Hn & _ & Hrn & Hro & Hc).
  destruct (In_at2 _ _ _ Hrow Hp) as (y & x & Hat).
  destruct (at2_bounds _ _ _ _ _ _ Hro Hat) as [Hy Hx].
  destruct (at2_total nms h w y x Hrn Hy Hx) as (q & Hq).
  rewrite (Hc x y q Hq) in Hat. injection Hat as <-.
  pose proof (suppressedMagnitudes_alpha _ _ _ Hn _ _ _ Hq) as Ha.
  destruct (fgtb (float64_of_uint8 (GrayPixel.y q)) (maxRatio * float64_of_uint8 max)); assumption.
Qed.

Lemma canny_edge3_translucent :
  CannyEdgeDetect edge3_translucent false 0.25 0.5 = Ok edge3_nms.
Proof.
  rewrite CannyEdgeDetect_stages. unfold suppressedMagnitudes. cbn [bind].
  assert (Hf : sobelField edge3_translucent = Ok edge3_field) by (vm_compute; reflexivity).
  rewrite sobel_field, Hf. cbn [bind]. rewrite nms_edge3. cbn [bind].
  vm_compute. reflexivity.
Qed.

Lemma canny_alpha_opaque_witness : allOpaque edge3_nms.
Proof.
  apply (canny_alpha_opaque edge3_translucent false 0.25 0.5 edge3_nms).
  exact canny_edge3_translucent.
Defined.

(** *** C2: the neighbourhood that hysteresis inspects *)

(** C2 (evaluation at the failing input). In a 3x3 grid the weak coordinate
    (1, 1) has the strong coordinate (2, 1) among its eight neighbours, yet
    [getAdjacentPixels] returns the single coordinate (0, 0) and
    [edgeTracking] leaves the Strong Set as it was. *)
Theorem hysteresis_inspects_one_diagonal :
  adjacent8 3 3 1 1 (mkPoint 2 1) = true /\
  getAdjacentPixels spot3 1 1 = Ok [mkPoint 0 0] /\
  edgeTracking spot3 [mkPoint 2 1] [mkPoint 1 1] = Ok (spot3_tracked, [mkPoint 2 1]).
Proof.
  split; [reflexivity|]. split; vm_compute; reflexivity.
Qed.

(** The promotion rule of one iteration: the weak coordinate joins the
    Strong Set exactly when the set built by [getAdjacentPixels], which is
    the upper-left diagonal cell or nothing, meets the Strong Set. *)
Lemma trackPoint_promotes (pixels pixels' : grid) (strong strong' : mapset.Set_)
  (weakPoint : Point) :
  trackPoint (pixels, strong) weakPoint = Ok (pixels', strong') ->
  exists neighbours row0,
    getAdjacentPixels pixels (X weakPoint) (Y weakPoint) = Ok neighbours /\
    index pixels 0 = Ok row0 /\
    (forall pt, In pt strong' <->
       In pt strong \/ (pt = weakPoint /\ exists q, In q strong /\ In q neighbours)) /\
    ((exists q, In q strong /\ In q neighbours) <->
       In (mkPoint (X weakPoint - 1) (Y weakPoint - 1)) strong /\
       1 <= X weakPoint <= len row0 /\ 1 <= Y weakPoint <= len pixels).
Proof.
  unfold trackPoint. intros H. inv_bind H. rename u into nb. inv_bind H.
  injection H as <- <-.
  destruct (getAdjacentPixels_spec _ _ _ _ Hm) as (row0 & Hrow0 & Hnb).
  exists nb, row0. split; [exact Hm|]. split; [assumption|]. split.
  - intros pt.
    destruct (mapset.Cardinality (mapset.Intersect strong nb) >? 0) eqn:E.
    + apply Intersect_nonempty in E. rewrite Add_In. intuition.
    + split; [auto|]. intros [Hin | [_ Hq]]; [assumption|].
      apply Intersect_nonempty in Hq. congruence.
  - split.
    + intros (q & Hs & Hq). apply Hnb in Hq as (-> & Hx & Hy). auto.
    + intros (Hs & Hx & Hy). eexists. split; [exact Hs|]. apply Hnb. auto.
Qed.

(** ** The pipeline returns *)

Lemma readNeighbours_total (pixels : grid) (h w x y : Z) (n : Z * Z * Z * Z) :
  rect pixels h w -> 0 <= y < h -> 0 <= x < w ->
  exists pq, readNeighbours pixels h w x y n = Ok pq.
Proof.
  intros Hrect Hy Hx. destruct n as [[[pY pX] qY] qX]. unfold readNeighbours.
  assert (Hclamp : forall c v n, 0 <= c < n ->
            0 <= (if (v <? 0) || (v >=? n) then c else v) < n).
  { intros c v n Hc. destruct (Z.ltb_spec v 0); [assumption|].
    destruct (Z.geb_spec v n); cbn [orb]; lia. }
  destruct (at2_total pixels h w _ _ Hrect (Hclamp y pY h Hy) (Hclamp x pX w Hx)) as (p & ->).
  destruct (at2_total pixels h w _ _ Hrect (Hclamp y qY h Hy) (Hclamp x qX w Hx)) as (q & ->).
  cbn [bind]. eauto.
Qed.

Lemma nonMaximumSuppression_total (pixels : grid) (directions : list (list R)) (h w : Z) :
  rect pixels h w -> rect directions h w -> 0 < h ->
  (forall y x d, at2 directions y x = Ok d -> (-90 <= d <= 90)%R) ->
  exists out, nonMaximumSuppression pixels directions = Ok out /\ rect out h w.
Proof.
  intros Hp Hd Hh Hrange. rewrite nonMaximumSuppression_loop.
  destruct (rect_row0 _ _ _ Hp Hh) as (row0 & Hrow0 & Hw0).
  destruct (rect_row0 _ _ _ Hd Hh) as (drow0 & Hdrow0 & Hdw0).
  assert (Hmis : (if negb (len pixels =? len directions) then Ok true
                  else row0 <- index pixels 0 ;;
                       drow0 <- index directions 0 ;;
                       Ok (negb (len row0 =? len drow0))) = Ok false).
  { rewrite (proj1 Hp), (proj1 Hd), Z.eqb_refl. cbn [negb].
    rewrite Hrow0, Hdrow0. cbn [bind]. rewrite Hw0, Hdw0, Z.eqb_refl. reflexivity. }
  rewrite Hmis. cbn [bind]. rewrite (proj1 Hp).
  destruct (gridLoop_total (fun _ : Z => index pixels 0) (nmsCell pixels directions) h)
    as (out & Hout).
  { intros y Hy. exists row0. split; [assumption|]. rewrite Hw0. intros x Hx.
    unfold nmsCell. destruct (at2_total pixels h w y x Hp Hy Hx) as (r & ->). cbn [bind].
    unfold getPixelInGradientDirection. rewrite Hrow0. cbn [bind].
    destruct (at2_total directions h w y x Hd Hy Hx) as (d & Hdv). rewrite Hdv. cbn [bind].
    destruct (gradientNeighbours_total d x y (Hrange _ _ _ Hdv)) as (n & ->). cbn [bind].
    rewrite (proj1 Hp), Hw0.
    destruct (readNeighbours_total pixels h w x y n Hp Hy Hx) as ([p q] & ->). cbn [bind].
    destruct ((GrayPixel.y p >? GrayPixel.y r) || (GrayPixel.y q >? GrayPixel.y r)); eauto. }
  exists out. split; [exact Hout|].
  apply (gridLoop_rect (fun _ : Z => index pixels 0) (nmsCell pixels directions) h w out);
    [lia | | assumption].
  intros y row _ Hrow. congruence.
Qed.

Lemma maxPixelValue_total (pixels : grid) (h w : Z) :
  rect pixels h w -> exists max, maxPixelValue pixels = Ok max.
Proof.
  intros Hrect. unfold maxPixelValue. apply foldM_total. intros max y Hy.
  apply upto_In in Hy. rewrite (proj1 Hrect) in Hy.
  destruct (rect_row0 _ _ _ Hrect) as (row0 & -> & Hw0); [lia|]. cbn [bind].
  apply foldM_total. intros max' x Hx. apply upto_In in Hx. rewrite Hw0 in Hx.
  destruct (at2_total pixels h w y x Hrect Hy Hx) as (p & ->). cbn [bind]. eauto.
Qed.

Lemma getPascalTriangleRow_4 : getPascalTriangleRow 4 = Ok (map inject_Z [1; 4; 6; 4; 1]).
Proof. reflexivity. Qed.

Lemma kernel5_weights :
  kernel5 = [(1 # 16); (4 # 16); (6 # 16); (4 # 16); (1 # 16)]%Q.
Proof. reflexivity. Qed.

Lemma gaussianBlur_5 (pixels : grid) :
  gaussianBlur pixels 5 = gridLoop (index pixels) (blurCell pixels kernel5) (len pixels).
Proof. reflexivity. Qed.

Lemma innerProduct_total (v kernel : VecDense) :
  len v = len kernel -> exists s, innerProduct v kernel = Ok s.
Proof.
  intros H. unfold innerProduct. rewrite H, Z.eqb_refl. cbn [negb].
  apply foldM_total. intros acc i Hi. apply upto_In in Hi.
  destruct (index_total v i) as (a & ->); [lia|].
  destruct (index_total kernel i) as (b & ->); [lia|]. cbn [bind]. eauto.
Qed.

Lemma gaussianBlur_total (pixels : grid) (h w : Z) :
  rect pixels h w -> 3 <= h -> 3 <= w ->
  exists out, gaussianBlur pixels 5 = Ok out /\ rect out h w.
Proof.
  intros Hrect Hh Hw. rewrite gaussianBlur_5. pose proof Hrect as [Hlen Hrows].
  destruct (gridLoop_total (index pixels) (blurCell pixels kernel5) (len pixels)) as (out & Hout).
  { intros y Hy. destruct (index_total pixels y Hy) as (row & Hrow).
    exists row. split; [assumption|]. intros x Hx.
    assert (Hxw : 0 <= x < w)
      by (rewrite <- (Hrows row); [assumption | eapply index_In; eassumption]).
    unfold blurCell. change (len kernel5) with 5.
    destruct (getPixelVector_spec pixels h w y x 5 2 VERTICAL) as (vv & -> & Hlv & _);
      try assumption; try lia.
    destruct (getPixelVector_spec pixels h w y x 5 2 HORIZONTAL) as (vh & -> & Hlh & _);
      try assumption; try lia.
    cbn [bind].
    destruct (innerProduct_total vv kernel5) as (sv & ->); [rewrite Hlv; reflexivity|].
    destruct (innerProduct_total vh kernel5) as (sh & ->); [rewrite Hlh; reflexivity|].
    cbn [bind]. eauto. }
  exists out. split; [assumption|]. rewrite <- Hlen.
  apply (gridLoop_rect (index pixels) (blurCell pixels kernel5) (len pixels) w out
           (len_nonneg pixels)); [|exact Hout].
  intros y row _ Hrow. apply Hrows. eapply index_In; eassumption.
Qed.

(** On a rectangular grid with at least two rows and columns (three when the
    blur is on) the pipeline returns a grid of the same shape. *)
Lemma CannyEdgeDetect_total (pixels : grid) (h w : Z) (blur : bool)
  (minRatio maxRatio : float) :
  rect pixels h w ->
  (if blur then 3 else 2) <= h -> (if blur then 3 else 2) <= w ->
  exists out, CannyEdgeDetect pixels blur minRatio maxRatio = Ok out /\ rect out h w.
Proof.
  intros Hrect Hh Hw. rewrite CannyEdgeDetect_stages. unfold suppressedMagnitudes.
  assert (Hblur : exists p0, (if blur then gaussianBlur pixels 5 else Ok pixels) = Ok p0 /\
                             rect p0 h w).
  { destruct blur; [apply gaussianBlur_total; assumption | eauto]. }
  destruct Hblur as (p0 & -> & Hr0). cbn [bind].
  assert (Hh2 : 2 <= h) by (destruct blur; lia).
  assert (Hw2 : 2 <= w) by (destruct blur; lia).
  destruct (sobel_total p0 h w Hr0 Hh2 Hw2) as (mag & dirs & Hs & Hrm & Hrd).
  rewrite Hs. cbn [bind].
  destruct (nonMaximumSuppression_total mag dirs h w Hrm Hrd) as (nms & -> & Hrn); [lia | |].
  { intros y x d Hd. destruct (sobel_cells _ _ _ Hs) as (field & _ & _ & ->).
    rewrite at2_map in Hd. inv_bind Hd. injection Hd as <-. apply gradientAngle_range. }
  cbn [bind]. unfold thresholdAndTrack.
  destruct (maxPixelValue_total nms h w Hrn) as (max & ->). cbn [bind].
  destruct (doublethreshold_inv nms h w (maxRatio * float64_of_uint8 max) (minRatio * float64_of_uint8 max) Hrn)
    as ([[pixels3 strong] weak] & -> & Hr3 & Hsets & _). cbn [bind fst snd] in *.
  destruct (edgeTracking_grid h w weak pixels3 strong Hr3) as (out & s' & -> & Hro & _).
  { intros pt Hpt. destruct (Hsets pt (or_intror Hpt)) as (p & Hp).
    destruct (at2_bounds _ _ _ _ _ _ Hrn Hp) as [Hy Hx].
    apply (at2_total pixels3 h w); assumption. }
  cbn [bind]. eauto.
Qed.

(** * Further properties *)

(** ** The maximum *)

(** The loops keep the largest intensity seen so far. *)
Lemma maxPixelValue_inv (pixels : grid) (h w : Z) :
  rect pixels h w -> exists m, maxPixelValue pixels = Ok m /\ isMaximumOf pixels m.
Proof.
  intros Hrect. pose proof Hrect as [Hh Hrows]. unfold maxPixelValue. rewrite Hh.
  set (seen := fun (done : Z -> Z -> Prop) (m : Z) =>
         0 <= m /\
         (forall y x p, done y x -> at2 pixels y x = Ok p -> GrayPixel.y p <= m) /\
         (m = 0 \/ exists y x p, at2 pixels y x = Ok p /\ GrayPixel.y p = m)).
  destruct (foldM_upto_total (fun y m => seen (fun y' _ => y' < y) m)
              (fun max y => row0 <- index pixels 0 ;;
                 foldM (fun max x => px <- at2 pixels y x ;;
                          let pixVal := GrayPixel.y px in
                          Ok (if pixVal >? max then pixVal else max))
                       max (upto 0 (len row0)))
              h) with (s0 := 0) as (m & Hm & Hinv).
  - rewrite <- Hh. apply len_nonneg.
  - split; [lia|]. split; [|left; reflexivity].
    intros y x p Hd Hp. destruct (at2_bounds _ _ _ _ _ _ Hrect Hp). lia.
  - intros y m Hy (H0 & Hle & Hatt).
    destruct (rect_row0 _ _ _ Hrect) as (row0 & -> & Hw0); [lia|]. cbn [bind]. rewrite Hw0.
    destruct (foldM_upto_total (fun x m => seen (fun y' x' => y' < y \/ (y' = y /\ x' < x)) m)
                (fun max x => px <- at2 pixels y x ;;
                          let pixVal := GrayPixel.y px in
                          Ok (if pixVal >? max then pixVal else max))
                w) with (s0 := m) as (m' & Hm' & Hinv').
    + rewrite <- Hw0. apply len_nonneg.
    + split; [assumption|]. split; [|assumption].
      intros y' x' p [Hd | [_ Hd]] Hp; [eauto|].
      destruct (at2_bounds _ _ _ _ _ _ Hrect Hp). lia.
    + intros x m1 Hx (H1 & Hle1 & Hatt1).
      destruct (at2_total pixels h w y x Hrect Hy Hx) as (p & Hp). rewrite Hp. cbn [bind].
      eexists. split; [reflexivity|]. cbv zeta.
      destruct (Z.gtb_spec (GrayPixel.y p) m1) as [Hgt|Hngt].
      * split; [lia|]. split; [|right; eauto].
        intros y' x' p' Hd Hp'.
        destruct (Z.eq_dec y' y) as [->|Hne]; [destruct (Z.eq_dec x' x) as [->|Hne]|].
        -- assert (p' = p) by congruence. subst. lia.
        -- assert (GrayPixel.y p' <= m1) by (apply (Hle1 y x' p'); [right; lia | assumption]). lia.
        -- assert (GrayPixel.y p' <= m1) by (apply (Hle1 y' x' p'); [lia | assumption]). lia.
      * split; [lia|]. split; [|assumption].
        intros y' x' p' Hd Hp'.
        destruct (Z.eq_dec y' y) as [->|Hne]; [destruct (Z.eq_dec x' x) as [->|Hne]|].
        -- assert (p' = p) by congruence. subst. lia.
        -- apply (Hle1 y x' p'); [right; lia | assumption].
        -- apply (Hle1 y' x' p'); [lia | assumption].
    + exists m'. split; [assumption|]. destruct Hinv' as (H1 & Hle1 & Hatt1).
      split; [assumption|]. split; [|assumption].
      intros y' x' p Hd Hp. destruct (at2_bounds _ _ _ _ _ _ Hrect Hp).
      apply (Hle1 y' x' p); [lia | assumption].
  - exists m. split; [assumption|]. destruct Hinv as (H0 & Hle & Hatt).
    split; [assumption|]. split; [|assumption].
    intros y x p Hp. destruct (at2_bounds _ _ _ _ _ _ Hrect Hp). apply (Hle y x p); [lia | assumption].
Qed.

(** X1. On a rectangular grid [maxPixelValue] returns a value that no
    intensity exceeds and that is the intensity of some pixel, or 0; it is a
    [uint8] when the intensities are. *)
Theorem maxPixelValue_is_maximum (pixels : grid) (h w : Z) :
  rect pixels h w ->
  exists m, maxPixelValue pixels = Ok m /\ isMaximumOf pixels m /\
    (uint8Grid pixels -> uint8 m).
Proof.
  intros Hrect. destruct (maxPixelValue_inv pixels h w Hrect) as (m & Hm & Hmax).
  exists m. split; [assumption|]. split; [assumption|].
  intros Hu8. destruct Hmax as (H0 & _ & [-> | (y & x & p & Hp & <-)]).
  - unfold uint8. lia.
  - destruct (at2_In _ _ _ _ Hp) as (row & Hrow & Hin). exact (Hu8 row p Hrow Hin).
Qed.

Lemma maxPixelValue_is_maximum_witness :
  exists m, maxPixelValue edge3 = Ok m /\ isMaximumOf edge3 m /\
    (uint8Grid edge3 -> uint8 m).
Proof.
  apply (maxPixelValue_is_maximum edge3 3 3).
  split; [reflexivity|]. intros row [<-|[<-|[<-|[]]]]; reflexivity.
Defined.

(** ** Equality of grids *)

Lemma list_index_ext {A : Type} (l1 l2 : list A) :
  len l1 = len l2 -> (forall i, 0 <= i < len l1 -> index l1 i = index l2 i) -> l1 = l2.
Proof.
  revert l2; induction l1 as [|a l1 IH]; intros [|b l2] Hlen Hidx;
    unfold len in Hlen; simpl in Hlen; try lia; [reflexivity|].
  f_equal.
  - specialize (Hidx 0). rewrite !index_cons_0 in Hidx.
    assert (E0 : Ok a = Ok b) by (apply Hidx; unfold len; simpl; lia). congruence.
  - apply IH; [unfold len; lia|]. intros i Hi.
    specialize (Hidx (i + 1)). rewrite !index_cons_S in Hidx by lia.
    replace (i + 1 - 1) with i in Hidx by lia. apply Hidx. unfold len in *. simpl. lia.
Qed.

(** Two grids of one shape that agree at every coordinate are equal. *)
Lemma grid_ext {A : Type} (g1 g2 : list (list A)) (h w : Z) :
  rect g1 h w -> rect g2 h w -> (forall y x, at2 g1 y x = at2 g2 y x) -> g1 = g2.
Proof.
  intros [H1 R1] [H2 R2] Hat. apply list_index_ext; [lia|]. intros y Hy.
  destruct (index_total g1 y Hy) as (r1 & E1).
  destruct (index_total g2 y) as (r2 & E2); [lia|].
  rewrite E1, E2. f_equal.
  assert (L1 : len r1 = w) by (apply R1; eapply index_In; eassumption).
  assert (L2 : len r2 = w) by (apply R2; eapply index_In; eassumption).
  apply list_index_ext; [lia|]. intros x Hx.
  specialize (Hat y x). unfold at2 in Hat. rewrite E1, E2 in Hat. exact Hat.
Qed.

(** ** Hysteresis: the grid *)

(** X2. When every weak coordinate lies in the grid, [edgeTracking] returns;
    the grid keeps its shape, every weak pixel has intensity 0 afterwards
    (its alpha kept), promoted or not, and every other pixel is untouched. *)
Theorem hysteresis_zeroes_weak (h w : Z) (pixels : grid) (strong weak : mapset.Set_) :
  rect pixels h w ->
  (forall pt, In pt weak -> exists p, at2 pixels (Y pt) (X pt) = Ok p) ->
  exists out strong', edgeTracking pixels strong weak = Ok (out, strong') /\
    rect out h w /\ weakZeroed pixels weak out.
Proof. intros Hrect Hweak. exact (edgeTracking_grid h w weak pixels strong Hrect Hweak). Qed.

Lemma hysteresis_zeroes_weak_witness :
  exists out strong', edgeTracking spot3 [mkPoint 0 0] [mkPoint 1 1] = Ok (out, strong') /\
    rect out 3 3 /\ weakZeroed spot3 [mkPoint 1 1] out.
Proof.
  apply (hysteresis_zeroes_weak 3 3 spot3); [exact rect_spot3|].
  intros pt [<-|[]]. eexists. reflexivity.
Defined.

(** X3. The grid that [edgeTracking] returns is the same for every order
    in which the Weak Set is traversed and for every Strong Set. *)
Theorem hysteresis_grid_order_free (h w : Z) (pixels : grid)
  (strong1 strong2 weak1 weak2 : mapset.Set_) :
  rect pixels h w ->
  (forall pt, In pt weak1 -> exists p, at2 pixels (Y pt) (X pt) = Ok p) ->
  Permutation weak1 weak2 ->
  sameGridFor pixels strong1 strong2 weak1 weak2.
Proof.
  intros Hrect Hweak Hperm.
  destruct (edgeTracking_grid h w weak1 pixels strong1 Hrect Hweak) as (o1 & t1 & E1 & R1 & _).
  destruct (edgeTracking_grid h w weak2 pixels strong2 Hrect) as (o2 & t2 & E2 & R2 & _).
  { intros pt Hpt. apply Hweak. eapply Permutation_in; [apply Permutation_sym|]; eassumption. }
  exists o1, t1, t2. split; [assumption|]. rewrite E2. do 2 f_equal.
  apply (grid_ext o2 o1 h w R2 R1). intros y x. symmetry.
  apply (edgeTracking_order_irrelevant h w pixels strong1 strong2 weak1 weak2 o1 o2 t1 t2);
    assumption.
Qed.

Lemma hysteresis_grid_order_free_witness :
  sameGridFor spot3 [mkPoint 0 0] [] [mkPoint 1 1; mkPoint 2 2] [mkPoint 2 2; mkPoint 1 1].
Proof.
  apply (hysteresis_grid_order_free 3 3 spot3); [exact rect_spot3 | |].
  - intros pt [<-|[<-|[]]]; eexists; reflexivity.
  - apply perm_swap.
Defined.

(** ** Hysteresis: the neighbourhood and the Strong Set *)

Lemma Add_NoDup (s : mapset.Set_) (p : Point) : NoDup s -> NoDup (mapset.Add s p).
Proof.
  intros H. unfold mapset.Add. destruct (mapset.Contains s p) eqn:E; [assumption|].
  apply NoDup_app; [assumption | repeat constructor; intros [] |].
  intros q Hq [<- | []]. apply Contains_In in Hq. congruence.
Qed.

Lemma fold_Add_NoDup {A : Type} (c : A -> bool) (f : A -> Point) (l : list A)
  (acc : mapset.Set_) :
  NoDup acc ->
  NoDup (fold_left (fun acc j => if c j then mapset.Add acc (f j) else acc) l acc).
Proof.
  revert acc; induction l as [|j l IH]; intros acc H; simpl; [assumption|].
  apply IH. destruct (c j); [apply Add_NoDup|]; assumption.
Qed.

Lemma getAdjacentPixels_NoDup (pixels : grid) (x y : Z) (s : mapset.Set_) :
  getAdjacentPixels pixels x y = Ok s -> NoDup s.
Proof.
  unfold getAdjacentPixels. intros H. inv_bind H. injection H as <-.
  generalize (upto (Z.max 0 (y - 1)) (Z.min (len pixels) (y + 1))).
  assert (Hnil : NoDup mapset.NewSet) by constructor. revert Hnil.
  generalize mapset.NewSet. intros acc Hacc l. revert acc Hacc.
  induction l as [|i l IH]; intros acc Hacc; simpl; [assumption|].
  apply IH.
  apply (fold_Add_NoDup (fun j => negb (i =? y) && negb (j =? x)) (fun j => mkPoint j i)).
  assumption.
Qed.

(** X4. On a non-empty rectangular grid [getAdjacentPixels] returns a set
    with at most one member: the upper-left diagonal neighbour [(x-1, y-1)],
    present exactly when [1 <= x <= width] and [1 <= y <= height]. *)
Theorem getAdjacentPixels_upper_left (pixels : grid) (h w x y : Z) :
  rect pixels h w -> 0 < h ->
  exists s, getAdjacentPixels pixels x y = Ok s /\ upperLeftOnly w h x y s.
Proof.
  intros Hrect Hh.
  destruct (getAdjacentPixels_total pixels x y) as (s & Hs); [rewrite (proj1 Hrect); lia|].
  exists s. split; [assumption|].
  destruct (getAdjacentPixels_spec _ _ _ _ Hs) as (row0 & Hrow0 & Hmem).
  destruct (rect_row0 _ _ _ Hrect Hh) as (row0' & Hrow0' & Hw0).
  assert (row0' = row0) by congruence. subst row0'.
  rewrite Hw0, (proj1 Hrect) in Hmem. split; [exact Hmem|].
  pose proof (getAdjacentPixels_NoDup _ _ _ _ Hs) as Hnd.
  unfold mapset.Cardinality, len.
  destruct s as [|p [|q s]]; simpl; try lia. exfalso.
  assert (Hp : p = mkPoint (x - 1) (y - 1)) by (apply Hmem; left; reflexivity).
  assert (Hq : q = mkPoint (x - 1) (y - 1)) by (apply Hmem; right; left; reflexivity).
  subst p q. inversion Hnd as [|? ? Hnin _]. apply Hnin. left. reflexivity.
Qed.

Lemma getAdjacentPixels_upper_left_witness :
  exists s, getAdjacentPixels spot3 1 1 = Ok s /\ upperLeftOnly 3 3 1 1 s.
Proof.
  apply (getAdjacentPixels_upper_left spot3 3 3 1 1); [exact rect_spot3 | lia].
Defined.

Lemma trackPoint_strong (pixels pixels' : grid) (strong strong' : mapset.Set_) (pt0 : Point) :
  trackPoint (pixels, strong) pt0 = Ok (pixels', strong') ->
  forall pt, In pt strong' <->
    In pt strong \/ (pt = pt0 /\ In (mkPoint (X pt0 - 1) (Y pt0 - 1)) strong /\
                     exists row0, index pixels 0 = Ok row0 /\
                       1 <= X pt0 <= len row0 /\ 1 <= Y pt0 <= len pixels).
Proof.
  intros H pt. destruct (trackPoint_promotes _ _ _ _ _ H) as (nb & row0 & _ & Hrow0 & Hs & Hq).
  rewrite Hs, Hq. split.
  - intros [Hin | [-> (Hd & Hx & Hy)]]; [auto|]. right. split; [reflexivity|]. eauto.
  - intros [Hin | (-> & Hd & row0' & Hrow0' & Hx & Hy)]; [auto|].
    right. split; [reflexivity|]. assert (row0' = row0) by congruence. subst. auto.
Qed.

(** X5. The Strong Set that [edgeTracking] returns contains the one it was
    given; every coordinate it gained is a weak coordinate whose upper-left
    diagonal neighbour is in the returned set. *)
Theorem edgeTracking_strong_grows (weak : mapset.Set_) :
  forall (pixels : grid) (strong : mapset.Set_) (pixels' : grid) (strong' : mapset.Set_),
  edgeTracking pixels strong weak = Ok (pixels', strong') ->
  grownWithin strong weak strong'.
Proof.
  induction weak as [|pt0 weak IH]; intros pixels strong pixels' strong' H.
  - injection H as <- <-. intros pt. split; auto.
  - rewrite edgeTracking_loop in H. cbn [foldM] in H. inv_bind H.
    destruct u as [pixels1 strong1]. rewrite <- edgeTracking_loop in H.
    pose proof (trackPoint_strong _ _ _ _ _ Hm) as Hstep.
    specialize (IH _ _ _ _ H). intros pt. destruct (IH pt) as [Hmono Hnew]. split.
    + intros Hin. apply Hmono. apply Hstep. auto.
    + intros Hin. destruct (Hnew Hin) as [H1 | [Hw Hd]].
      * apply Hstep in H1 as [H1 | (-> & Hd & _)]; [auto|].
        right. split; [left; reflexivity|]. apply (proj1 (IH _)). apply Hstep. auto.
      * right. split; [right; assumption | assumption].
Qed.

Lemma edgeTracking_strong_grows_witness :
  grownWithin [mkPoint 0 0] [mkPoint 1 1] [mkPoint 0 0; mkPoint 1 1].
Proof.
  apply (edgeTracking_strong_grows [mkPoint 1 1] spot3 [mkPoint 0 0] spot3_tracked).
  vm_compute. reflexivity.
Defined.

(** ** The lower threshold *)

Lemma thresholdAndTrack_low_irrelevant (nms : grid) (h w : Z) (lo1 lo2 hi : float) :
  rect nms h w -> thresholdAndTrack nms lo1 hi = thresholdAndTrack nms lo2 hi.
Proof.
  intros Hrect. unfold thresholdAndTrack.
  destruct (maxPixelValue_total nms h w Hrect) as (max & ->). cbn [bind].
  set (high := (hi * float64_of_uint8 max)%float).
  assert (Hrun : forall low, exists out,
            ('(pixels, strong, weak) <- doublethreshold nms high low ;;
             '(pixels0, _) <- edgeTracking pixels strong weak ;; Ok pixels0) = Ok out /\
            rect out h w /\
            forall x y p, at2 nms y x = Ok p ->
              at2 out y x = Ok (if fgtb (float64_of_uint8 (GrayPixel.y p)) high then p
                                else GrayPixel.mk 0 (GrayPixel.a p))).
  { intros low.
    destruct (doublethreshold_inv nms h w high low Hrect)
      as ([[pixels3 strong] weak] & Hdt & Hr3 & Hsets & _). cbn [fst snd] in *.
    destruct (edgeTracking_grid h w weak pixels3 strong Hr3) as (out & s' & Het & Hro & _).
    { intros pt Hpt. destruct (Hsets pt (or_intror Hpt)) as (p & Hp).
      destruct (at2_bounds _ _ _ _ _ _ Hrect Hp) as [Hy Hx].
      apply (at2_total pixels3 h w); assumption. }
    exists out. rewrite Hdt. cbn [bind]. rewrite Het. cbn [bind]. split; [reflexivity|].
    exact (threshold_then_track nms h w high low pixels3 strong weak out s' Hrect Hdt Het). }
  destruct (Hrun (lo1 * float64_of_uint8 max)%float) as (o1 & -> & R1 & C1).
  destruct (Hrun (lo2 * float64_of_uint8 max)%float) as (o2 & -> & R2 & C2).
  f_equal. apply (grid_ext o1 o2 h w R1 R2). intros y x.
  destruct (at2 nms y x) as [p|e] eqn:Ep.
  - rewrite (C1 x y p Ep), (C2 x y p Ep). reflexivity.
  - assert (Hout : ~ (0 <= y < h /\ 0 <= x < w)).
    { intros [Hy Hx]. destruct (at2_total nms h w y x Hrect Hy Hx) as (p & Hp). congruence. }
    rewrite (at2_outside o1 h w y x R1 Hout), (at2_outside o2 h w y x R2 Hout). reflexivity.
Qed.

(** X6. The result of [CannyEdgeDetect], grid or panic, does not depend on
    [minRatio]. *)
Theorem canny_minRatio_irrelevant (pixels : grid) (blur : bool) (lo1 lo2 hi : float) :
  CannyEdgeDetect pixels blur lo1 hi = CannyEdgeDetect pixels blur lo2 hi.
Proof.
  rewrite !CannyEdgeDetect_stages.
  destruct (suppressedMagnitudes pixels blur) as [nms|e] eqn:E; [|reflexivity]. cbn [bind].
  unfold suppressedMagnitudes in E. inv_bind E. inv_bind E. destruct u0 as [mag dirs].
  destruct (nonMaximumSuppression_rect _ _ _ E) as (h & w & _ & Hr).
  apply (thresholdAndTrack_low_irrelevant nms h w). exact Hr.
Qed.

(** ** The upper threshold at its extremes *)

(** Every suppressed magnitude is a [uint8]. *)
Lemma suppressedMagnitudes_uint8 (pixels : grid) (blur : bool) (nms : grid) :
  suppressedMagnitudes pixels blur = Ok nms ->
  forall y x p, at2 nms y x = Ok p -> uint8 (GrayPixel.y p).
Proof.
  unfold suppressedMagnitudes. intros H. inv_bind H. inv_bind H. destruct u0 as [mag dirs].
  intros y x o Ho.
  destruct (nonMaximumSuppression_pixels _ _ _ H y x o Ho)
    as (r & p & q & Hr & _ & [[_ ->] | [_ ->]] & _); [unfold uint8; cbn; lia|].
  destruct (sobel_cells _ _ _ Hm0) as (field & _ & -> & _).
  rewrite at2_map in Hr. inv_bind Hr. injection Hr as <-.
  unfold sobelPixel, uint8_sqrt, uint8_of_Z, uint8. cbn [GrayPixel.y].
  apply Z.mod_pos_bound. lia.
Qed.

(** The comparisons of [doublethreshold] against [0 * max] and [1 * max],
    for all [uint8] values: checked by evaluation on binary64. *)
Lemma threshold_extremes (v m : Z) :
  uint8 v -> uint8 m ->
  fgtb (float64_of_uint8 v) (0 * float64_of_uint8 m) = (0 <? v) /\
  fgtb (float64_of_uint8 v) (1 * float64_of_uint8 m) = (m <? v).
Proof.
  intros Hv Hm.
  assert (Hall : forallb (fun m => forallb (fun v =>
            Bool.eqb (fgtb (float64_of_uint8 v) (0 * float64_of_uint8 m)) (0 <? v) &&
            Bool.eqb (fgtb (float64_of_uint8 v) (1 * float64_of_uint8 m)) (m <? v))
            (upto 0 256)) (upto 0 256) = true) by (vm_compute; reflexivity).
  rewrite forallb_forall in Hall. specialize (Hall m (proj2 (upto_In 0 256 m) Hm)).
  rewrite forallb_forall in Hall. specialize (Hall v (proj2 (upto_In 0 256 v) Hv)).
  apply andb_true_iff in Hall as [H0 H1]. apply eqb_prop in H0, H1. auto.
Qed.

Lemma canny_cells_uint8 (pixels : grid) (blur : bool) (minRatio maxRatio : float) (out : grid) :
  CannyEdgeDetect pixels blur minRatio maxRatio = Ok out ->
  exists nms max h w,
    suppressedMagnitudes pixels blur = Ok nms /\ rect nms h w /\ rect out h w /\ uint8 max /\
    forall x y p, at2 nms y x = Ok p ->
      uint8 (GrayPixel.y p) /\ GrayPixel.y p <= max /\
      at2 out y x =
      Ok (if fgtb (float64_of_uint8 (GrayPixel.y p)) (maxRatio * float64_of_uint8 max) then p
          else GrayPixel.mk 0 (GrayPixel.a p)).
Proof.
  intros H.
  destruct (CannyEdgeDetect_output _ _ _ _ _ H) as (nms & max & h & w & Hn & Hmax & Hrn & Hro & Hc).
  exists nms, max, h, w. split; [assumption|]. split; [assumption|]. split; [assumption|].
  destruct (maxPixelValue_inv nms h w Hrn) as (m' & Hm' & H0 & Hle & Hatt).
  assert (m' = max) by congruence. subst m'.
  pose proof (suppressedMagnitudes_uint8 _ _ _ Hn) as Hu8. split.
  - destruct Hatt as [-> | (y & x & p & Hp & <-)]; [unfold uint8; lia | eauto].
  - intros x y p Hp. split; [eauto|]. split; [eauto|]. apply Hc. exact Hp.
Qed.

(** X7. With [maxRatio = 1] no magnitude exceeds the upper threshold: the
    output of [CannyEdgeDetect] is 0 everywhere. *)
Theorem canny_maxRatio_one_blank (pixels : grid) (blur : bool) (minRatio : float) (out : grid) :
  CannyEdgeDetect pixels blur minRatio 1 = Ok out -> blank out.
Proof.
  intros H.
  destruct (canny_cells_uint8 _ _ _ _ _ H) as (nms & max & h & w & _ & Hrn & Hro & Hm & Hc).
  intros row o Hrow Ho. destruct (In_at2 _ _ _ Hrow Ho) as (y & x & Hat).
  destruct (at2_bounds _ _ _ _ _ _ Hro Hat) as [Hy Hx].
  destruct (at2_total nms h w y x Hrn Hy Hx) as (p & Hp).
  destruct (Hc x y p Hp) as (Hu & Hle & Hout). rewrite Hout in Hat.
  rewrite (proj2 (threshold_extremes _ _ Hu Hm)) in Hat.
  destruct (Z.ltb_spec max (GrayPixel.y p)); [lia|]. injection Hat as <-. reflexivity.
Qed.

Lemma canny_edge3_one : CannyEdgeDetect edge3 false 0.25 1 = Ok blank3.
Proof.
  rewrite CannyEdgeDetect_stages. unfold suppressedMagnitudes. cbn [bind].
  rewrite sobel_edge3. cbn [bind]. rewrite nms_edge3. cbn [bind].
  vm_compute. reflexivity.
Qed.

Lemma canny_maxRatio_one_blank_witness : blank blank3.
Proof.
  apply (canny_maxRatio_one_blank edge3 false 0.25 blank3). exact canny_edge3_one.
Defined.

(** X8. With [maxRatio = 0] the double threshold and hysteresis change
    nothing: [CannyEdgeDetect] returns the suppressed magnitudes, or panics
    as the stages before the threshold do. *)
Theorem canny_maxRatio_zero (pixels : grid) (blur : bool) (minRatio : float) :
  CannyEdgeDetect pixels blur minRatio 0 = suppressedMagnitudes pixels blur.
Proof.
  destruct (CannyEdgeDetect pixels blur minRatio 0) as [out|e] eqn:E.
  - destruct (canny_cells_uint8 _ _ _ _ _ E) as (nms & max & h & w & -> & Hrn & Hro & Hm & Hc).
    apply f_equal. apply (grid_ext out nms h w Hro Hrn). intros y x.
    destruct (at2 nms y x) as [p|e] eqn:Ep.
    + destruct (Hc x y p Ep) as (Hu & _ & ->).
      rewrite (proj1 (threshold_extremes _ _ Hu Hm)).
      destruct (Z.ltb_spec 0 (GrayPixel.y p)); [reflexivity|].
      destruct p as [v a]. cbn [GrayPixel.y GrayPixel.a] in *. unfold uint8 in Hu.
      f_equal. f_equal. lia.
    + pose proof (at2_Panic _ _ _ _ Ep) as ->.
      apply (at2_outside out h w y x Hro). intros [Hy Hx].
      destruct (at2_total nms h w y x Hrn Hy Hx) as (p & Hp). congruence.
  - rewrite CannyEdgeDetect_stages in E.
    destruct (suppressedMagnitudes pixels blur) as [nms|e'] eqn:En; [|cbn [bind] in E; congruence].
    exfalso. cbn [bind] in E.
    unfold suppressedMagnitudes in En. inv_bind En. inv_bind En. destruct u0 as [mag dirs].
    destruct (nonMaximumSuppression_rect _ _ _ En) as (h & w & _ & Hrn).
    unfold thresholdAndTrack in E.
    destruct (maxPixelValue_total nms h w Hrn) as (max & Hmax). rewrite Hmax in E. cbn [bind] in E.
    destruct (doublethreshold_inv nms h w (0 * float64_of_uint8 max)
                (minRatio * float64_of_uint8 max) Hrn)
      as ([[pixels3 strong] weak] & Hdt & Hr3 & Hsets & _). cbn [fst snd] in *.
    rewrite Hdt in E. cbn [bind] in E.
    destruct (edgeTracking_grid h w weak pixels3 strong Hr3) as (out & s' & Het & _).
    { intros pt Hpt. destruct (Hsets pt (or_intror Hpt)) as (p & Hp).
      destruct (at2_bounds _ _ _ _ _ _ Hrn Hp) as [Hy Hx].
      apply (at2_total pixels3 h w); assumption. }
    rewrite Het in E. discriminate E.
Qed.

(** ** The gradient in closed form *)

Lemma convolve_sobel (m : Dense) (a : Z -> Z -> Z) :
  rows m = 3 -> cols m = 3 ->
  (forall r c, 0 <= r < 3 -> 0 <= c < 3 -> At m r c = Ok (inject_Z (a r c))) ->
  exists gx gy, convolve m sobel_X = Ok gx /\ convolve m sobel_Y = Ok gy /\
    (gx == inject_Z ((a 0 0 + 2 * a 1 0 + a 2 0) - (a 0 2 + 2 * a 1 2 + a 2 2))%Z)%Q /\
    (gy == inject_Z ((a 0 0 + 2 * a 0 1 + a 0 2) - (a 2 0 + 2 * a 2 1 + a 2 2))%Z)%Q.
Proof.
  intros Hr Hc HAt. unfold convolve, Dims. rewrite Hr, Hc.
  change (rows sobel_X) with 3. change (cols sobel_X) with 3.
  change (rows sobel_Y) with 3. change (cols sobel_Y) with 3.
  cbn [Z.eqb Pos.eqb negb orb].
  change (upto 0 3) with [0; 1; 2]. cbn [foldM].
  rewrite !HAt by lia. cbn [bind].
  eval_kernel sobel_X. eval_kernel sobel_Y. cbn [bind].
  do 2 eexists. split; [reflexivity|]. split; [reflexivity|].
  unfold Z.sub. rewrite !inject_Z_plus, !inject_Z_opp, !inject_Z_plus, !inject_Z_mult.
  split; ring.
Qed.

Lemma sobelResponse_sums (pixels : grid) (h w y x : Z) :
  rect pixels h w -> 2 <= h -> 2 <= w -> 0 <= y < h -> 0 <= x < w ->
  exists r, sobelResponse pixels y x = Ok r /\
    (fst r == inject_Z (sobelSumX (window pixels h w y x)))%Q /\
    (snd r == inject_Z (sobelSumY (window pixels h w y x)))%Q.
Proof.
  intros Hrect Hh Hw Hy Hx. unfold sobelResponse.
  destruct (getSorroundingPixelMatrix_spec pixels h w y x 3 1)
    as (m & -> & Hd & _ & Hcells); try assumption; try lia.
  cbn [bind]. unfold Dims in Hd. injection Hd as Hr Hc.
  destruct (convolve_sobel m (fun r c => window pixels h w y x (r - 1) (c - 1)) Hr Hc)
    as (gx & gy & -> & -> & HX & HY).
  { intros r c Hr' Hc'. destruct (Hcells r c Hr' Hc') as (p & Hp & ->).
    unfold window, intensity.
    replace (y + (r - 1)) with (y - 1 + r) by lia.
    replace (x + (c - 1)) with (x - 1 + c) by lia. rewrite Hp. reflexivity. }
  cbn [bind]. eexists. split; [reflexivity|]. cbn [fst snd].
  split; [exact HX | exact HY].
Qed.

Lemma sobel_at (pixels mag : grid) (dirs : list (list R)) (h w y x : Z) :
  rect pixels h w -> 2 <= h -> 2 <= w -> 0 <= y < h -> 0 <= x < w ->
  sobel pixels = Ok (mag, dirs) ->
  exists r, sobelResponse pixels y x = Ok r /\
    at2 mag y x = Ok (sobelPixel r) /\ at2 dirs y x = Ok (sobelAngle r).
Proof.
  intros Hrect Hh Hw Hy Hx Hs.
  destruct (sobel_cells _ _ _ Hs) as (field & Hf & -> & ->).
  destruct (sobelResponse_total pixels h w y x Hrect Hh Hw Hy Hx) as (r & Hr).
  exists r. split; [assumption|].
  assert (Hat : at2 field y x = Ok r).
  { apply (gridLoop_at _ _ _ _ Hf). split; [rewrite (proj1 Hrect); assumption|].
    destruct (index_total pixels y) as (row & Hrow); [rewrite (proj1 Hrect); assumption|].
    exists row. split; [assumption|]. split; [|assumption].
    rewrite (proj2 Hrect row); [assumption | eapply index_In; eassumption]. }
  rewrite !at2_map, Hat. split; reflexivity.
Qed.

Lemma sobelPixel_sums (r : Q * Q) (gx gy : Z) :
  (fst r == inject_Z gx)%Q -> (snd r == inject_Z gy)%Q ->
  sobelPixel r = GrayPixel.mk (uint8_of_Z (Z.sqrt (gx * gx + gy * gy))) 255.
Proof.
  intros HX HY. unfold sobelPixel, uint8_sqrt. f_equal. f_equal. f_equal.
  assert (E : (fst r ^ 2 + snd r ^ 2 == inject_Z (gx * gx + gy * gy))%Q).
  { rewrite HX, HY, inject_Z_plus, !inject_Z_mult. ring. }
  rewrite E. apply Qfloor_Z.
Qed.

(** X9. At a pixel that is not on the border the magnitude is the integer
    square root of [gx^2 + gy^2], where [gx] is the left column minus the
    right column and [gy] the top row minus the bottom row of the eight
    neighbours, with weights 1, 2, 1 (as long as the root fits a [uint8]). *)
Theorem sobel_interior_magnitude (pixels mag : grid) (dirs : list (list R)) (h w y x : Z) :
  rect pixels h w -> sobel pixels = Ok (mag, dirs) ->
  1 <= y < h - 1 -> 1 <= x < w - 1 ->
  sobelSumX (fun dy dx => intensity pixels (y + dy) (x + dx)) ^ 2 +
  sobelSumY (fun dy dx => intensity pixels (y + dy) (x + dx)) ^ 2 < 65536 ->
  at2 mag y x =
  Ok (GrayPixel.mk
        (Z.sqrt (sobelSumX (fun dy dx => intensity pixels (y + dy) (x + dx)) ^ 2 +
                 sobelSumY (fun dy dx => intensity pixels (y + dy) (x + dx)) ^ 2)) 255).
Proof.
  intros Hrect Hs Hy Hx Hsmall.
  destruct (sobel_at pixels mag dirs h w y x Hrect) as (r & Hr & Hmag & _);
    try lia; try assumption.
  destruct (sobelResponse_sums pixels h w y x Hrect) as (r' & Hr' & HX & HY); try lia.
  assert (r' = r) by congruence. subst r'.
  rewrite Hmag, (sobelPixel_sums r _ _ HX HY).
  assert (EX : sobelSumX (window pixels h w y x) =
               sobelSumX (fun dy dx => intensity pixels (y + dy) (x + dx))).
  { unfold sobelSumX, window. rewrite !sampledIndex_inside by lia. reflexivity. }
  assert (EY : sobelSumY (window pixels h w y x) =
               sobelSumY (fun dy dx => intensity pixels (y + dy) (x + dx))).
  { unfold sobelSumY, window. rewrite !sampledIndex_inside by lia. reflexivity. }
  rewrite EX, EY.
  set (gx := sobelSumX _) in *. set (gy := sobelSumY _) in *.
  replace (gx * gx + gy * gy) with (gx ^ 2 + gy ^ 2) by ring.
  do 2 f_equal. unfold uint8_of_Z. apply Z.mod_small. split; [apply Z.sqrt_nonneg|].
  apply Z.sqrt_lt_square; lia.
Qed.

Lemma rect_edge3 : rect edge3 3 3.
Proof. split; [reflexivity|]. intros row [<-|[<-|[<-|[]]]]; reflexivity. Qed.

Lemma sobel_interior_magnitude_witness :
  at2 (map (map sobelPixel) edge3_field) 1 1 =
  Ok (GrayPixel.mk
        (Z.sqrt (sobelSumX (fun dy dx => intensity edge3 (1 + dy) (1 + dx)) ^ 2 +
                 sobelSumY (fun dy dx => intensity edge3 (1 + dy) (1 + dx)) ^ 2)) 255).
Proof.
  apply (sobel_interior_magnitude edge3 (map (map sobelPixel) edge3_field)
           (map (map sobelAngle) edge3_field) 3 3 1 1 rect_edge3 sobel_edge3); [lia | lia |].
  vm_compute. reflexivity.
Defined.

(** At the first and at the last cell of an axis the two window positions
    next to the centre read the same cell. *)
Lemma sampledIndex_first (n : Z) :
  2 <= n -> sampledIndex 0 n (0 + -1) = sampledIndex 0 n (0 + 1).
Proof. intros H. unfold sampledIndex, abs. cbn. destruct (Z.geb_spec 1 n); [lia | reflexivity]. Qed.

Lemma sampledIndex_last (n : Z) :
  2 <= n -> sampledIndex (n - 1) n (n - 1 + -1) = sampledIndex (n - 1) n (n - 1 + 1).
Proof.
  intros H. unfold sampledIndex.
  destruct (Z.ltb_spec (n - 1 + -1) 0); [lia|].
  destruct (Z.geb_spec (n - 1 + -1) n); [lia|].
  destruct (Z.ltb_spec (n - 1 + 1) 0); [lia|].
  destruct (Z.geb_spec (n - 1 + 1) n); lia.
Qed.

Lemma sobelSumX_border (pixels : grid) (h w y x : Z) :
  2 <= w -> x = 0 \/ x = w - 1 -> sobelSumX (window pixels h w y x) = 0.
Proof.
  intros Hw Hx. unfold sobelSumX, window.
  assert (E : sampledIndex x w (x + -1) = sampledIndex x w (x + 1))
    by (destruct Hx; subst x; [apply sampledIndex_first | apply sampledIndex_last]; assumption).
  rewrite E. lia.
Qed.

Lemma sobelSumY_border (pixels : grid) (h w y x : Z) :
  2 <= h -> y = 0 \/ y = h - 1 -> sobelSumY (window pixels h w y x) = 0.
Proof.
  intros Hh Hy. unfold sobelSumY, window.
  assert (E : sampledIndex y h (y + -1) = sampledIndex y h (y + 1))
    by (destruct Hy; subst y; [apply sampledIndex_first | apply sampledIndex_last]; assumption).
  rewrite E. lia.
Qed.

(** X10. On the border of the grid the padding cancels a response: the
    direction is 0 there; at the four corners the magnitude is 0 as well. *)
Theorem sobel_border (pixels mag : grid) (dirs : list (list R)) (h w y x : Z) :
  rect pixels h w -> 2 <= h -> 2 <= w -> sobel pixels = Ok (mag, dirs) ->
  0 <= y < h -> 0 <= x < w -> onBorder h w y x ->
  at2 dirs y x = Ok 0%R /\
  (atCorner h w y x -> at2 mag y x = Ok (GrayPixel.mk 0 255)).
Proof.
  intros Hrect Hh Hw Hs Hy Hx Hb.
  destruct (sobel_at pixels mag dirs h w y x Hrect Hh Hw Hy Hx Hs) as (r & Hr & Hmag & Hdir).
  destruct (sobelResponse_sums pixels h w y x Hrect Hh Hw Hy Hx) as (r' & Hr' & HX & HY).
  assert (r' = r) by congruence. subst r'. split.
  - rewrite Hdir. f_equal. unfold sobelAngle. apply gradientAngle_zero.
    apply orb_true_iff. destruct Hb as [Hb | [Hb | [Hb | Hb]]].
    + left. apply Qeq_bool_iff.
      rewrite HX, (sobelSumX_border pixels h w y x Hw); [reflexivity | auto].
    + left. apply Qeq_bool_iff.
      rewrite HX, (sobelSumX_border pixels h w y x Hw); [reflexivity | auto].
    + right. apply Qeq_bool_iff.
      rewrite HY, (sobelSumY_border pixels h w y x Hh); [reflexivity | auto].
    + right. apply Qeq_bool_iff.
      rewrite HY, (sobelSumY_border pixels h w y x Hh); [reflexivity | auto].
  - intros [Hcx Hcy]. rewrite Hmag, (sobelPixel_sums r _ _ HX HY).
    rewrite (sobelSumX_border pixels h w y x Hw Hcx), (sobelSumY_border pixels h w y x Hh Hcy).
    reflexivity.
Qed.

Lemma sobel_border_witness :
  at2 (map (map sobelAngle) edge3_field) 0 0 = Ok 0%R /\
  (atCorner 3 3 0 0 -> at2 (map (map sobelPixel) edge3_field) 0 0 = Ok (GrayPixel.mk 0 255)).
Proof.
  apply (sobel_border edge3 (map (map sobelPixel) edge3_field)
           (map (map sobelAngle) edge3_field) 3 3 0 0 rect_edge3);
    [lia | lia | exact sobel_edge3 | lia | lia | left; reflexivity].
Defined.

(** ** Small grids *)

Lemma upto_cons (lo hi : Z) : lo < hi -> upto lo hi = lo :: upto (lo + 1) hi.
Proof.
  intros H. unfold upto, zrange.
  replace (Z.to_nat (hi - lo)) with (S (Z.to_nat (hi - (lo + 1)))) by lia.
  cbn [seq map]. f_equal; [lia|].
  rewrite <- seq_shift, map_map. apply map_ext. intros k. lia.
Qed.

Lemma gridLoop_first_Panic {A B : Type} (rowOf : Z -> result (list A))
  (cell : Z -> Z -> result B) (n : Z) (row0 : list A) (e : panic) :
  0 < n -> rowOf 0 = Ok row0 -> 0 < len row0 -> cell 0 0 = Panic e ->
  gridLoop rowOf cell n = Panic e.
Proof.
  intros Hn Hrow Hlen Hcell. unfold gridLoop.
  rewrite (upto_cons 0 n Hn). cbn [mapM]. rewrite Hrow. cbn [bind].
  rewrite (upto_cons 0 (len row0) Hlen). cbn [mapM]. rewrite Hcell. reflexivity.
Qed.

Lemma intensityAt_outside (pixels : grid) (h w y x : Z) :
  rect pixels h w -> ~ (0 <= y < h /\ 0 <= x < w) ->
  intensityAt pixels y x = Panic IndexOutOfRange.
Proof.
  intros Hrect Hout. unfold intensityAt. rewrite (at2_outside pixels h w y x Hrect Hout).
  reflexivity.
Qed.

Lemma sobelField_thin (pixels : grid) (h w : Z) :
  rect pixels h w -> 1 <= h -> 1 <= w -> h = 1 \/ w = 1 ->
  sobelField pixels = Panic IndexOutOfRange.
Proof.
  intros Hrect Hh Hw Hthin.
  destruct (rect_row0 _ _ _ Hrect) as (row0 & Hrow0 & Hw0); [lia|].
  unfold sobelField. rewrite (proj1 Hrect).
  apply (gridLoop_first_Panic _ _ h row0); [lia | assumption | lia |].
  unfold sobelResponse. rewrite getSorroundingPixelMatrix_sampled.
  change (Z.rem 3 2 =? 0) with false. cbv iota. rewrite Hrow0. cbn [bind].
  change (Z.quot 3 2) with 1. change (through (0 - 1) (0 + 1)) with [-1; 0; 1].
  cbn [mapM]. change (sampledIndex 0 (len pixels) (-1)) with 1.
  change (sampledIndex 0 (len row0) (-1)) with 1.
  rewrite (intensityAt_outside pixels h w 1 1 Hrect) by lia. reflexivity.
Qed.

Lemma sobel_thin (pixels : grid) (h w : Z) :
  rect pixels h w -> 1 <= h -> 1 <= w -> h = 1 \/ w = 1 ->
  sobel pixels = Panic IndexOutOfRange.
Proof.
  intros Hrect Hh Hw Hthin. rewrite sobel_field, (sobelField_thin pixels h w); auto.
Qed.

Lemma intensityAt_total (pixels : grid) (h w y x : Z) :
  rect pixels h w -> 0 <= y < h -> 0 <= x < w -> exists q, intensityAt pixels y x = Ok q.
Proof.
  intros Hrect Hy Hx. unfold intensityAt.
  destruct (at2_total pixels h w y x Hrect Hy Hx) as (p & ->). cbn [bind]. eauto.
Qed.

Lemma gaussianBlur_small (pixels : grid) (h w : Z) :
  rect pixels h w -> 1 <= h -> 1 <= w -> h < 3 \/ w < 3 ->
  gaussianBlur pixels 5 = Panic IndexOutOfRange.
Proof.
  intros Hrect Hh Hw Hsmall.
  destruct (rect_row0 _ _ _ Hrect) as (row0 & Hrow0 & Hw0); [lia|].
  rewrite gaussianBlur_5, (proj1 Hrect).
  apply (gridLoop_first_Panic _ _ h row0); [lia | assumption | lia |].
  unfold blurCell. change (len kernel5) with 5. rewrite !getPixelVector_sampled.
  change (Z.rem 5 2 =? 0) with false. cbv iota.
  change (Z.quot 5 2) with 2. change (through (0 - 2) (0 + 2)) with [-2; -1; 0; 1; 2].
  rewrite (proj1 Hrect).
  change (sampledIndex 0 h (-2)) with 2.
  destruct (Z.lt_ge_cases h 3) as [Hh3|Hh3].
  - cbn [mapM]. change (sampledIndex 0 h (-2)) with 2.
    rewrite (intensityAt_outside pixels h w 2 0 Hrect) by lia. reflexivity.
  - destruct (mapM_total (fun i => intensityAt pixels (sampledIndex 0 h i) 0) [-2; -1; 0; 1; 2])
      as (vs & Hvs).
    { intros i Hi. apply (intensityAt_total pixels h w); [assumption | | lia].
      apply (sampledIndex_bounds 0 h 2); [lia | lia |].
      simpl in Hi. lia. }
    rewrite Hvs. cbn [bind].
    assert (Hlen : len vs = 5).
    { apply mapM_length in Hvs. unfold len. rewrite Hvs. reflexivity. }
    unfold NewVecDense at 1. rewrite Hlen. cbn [Z.leb Z.compare Z.eqb Pos.eqb negb]. cbn [bind].
    cbn [mapM]. rewrite Hrow0. cbn [bind]. rewrite Hw0.
    change (sampledIndex 0 w (-2)) with 2.
    rewrite (intensityAt_outside pixels h w 0 2 Hrect) by lia. reflexivity.
Qed.

(** X11. On a rectangular grid with at least one row and one column, but
    fewer than two rows or columns (three with the blur), [CannyEdgeDetect]
    panics with an index out of range. *)
Theorem canny_panics_on_small_grid (pixels : grid) (h w : Z) (blur : bool)
  (minRatio maxRatio : float) :
  rect pixels h w -> 1 <= h -> 1 <= w ->
  h < (if blur then 3 else 2) \/ w < (if blur then 3 else 2) ->
  CannyEdgeDetect pixels blur minRatio maxRatio = Panic IndexOutOfRange.
Proof.
  intros Hrect Hh Hw Hsmall. rewrite CannyEdgeDetect_stages. unfold suppressedMagnitudes.
  destruct blur.
  - rewrite (gaussianBlur_small pixels h w); auto.
  - cbn [bind]. rewrite (sobel_thin pixels h w); [reflexivity | assumption .. | lia].
Qed.

Lemma canny_panics_on_small_grid_witness :
  CannyEdgeDetect flat2 true ratio_0_2 ratio_0_6 = Panic IndexOutOfRange.
Proof.
  apply (canny_panics_on_small_grid flat2 2 2 true); [| lia | lia | left; lia].
  split; [reflexivity|]. intros row [<-|[<-|[]]]; reflexivity.
Defined.

Lemma grid_no_columns {A : Type} (g1 g2 : list (list A)) (h : Z) :
  rect g1 h 0 -> rect g2 h 0 -> g1 = g2.
Proof.
  intros R1 R2. apply (grid_ext g1 g2 h 0 R1 R2). intros y x.
  rewrite (at2_outside g1 h 0 y x R1), (at2_outside g2 h 0 y x R2) by lia. reflexivity.
Qed.

Lemma gridLoop_no_columns {A B : Type} (g : list (list A)) (cell : Z -> Z -> result B) (h : Z) :
  rect g h 0 -> exists out, gridLoop (index g) cell (len g) = Ok out /\ rect out h 0.
Proof.
  intros Hrect. pose proof Hrect as [Hlen Hrows].
  destruct (gridLoop_total (index g) cell (len g)) as (out & Hout).
  { intros y Hy. destruct (index_total g y Hy) as (row & Hrow). exists row.
    split; [assumption|]. intros x Hx.
    rewrite (Hrows row) in Hx by (eapply index_In; eassumption). lia. }
  exists out. split; [assumption|]. rewrite <- Hlen.
  apply (gridLoop_rect (index g) cell (len g) 0 out (len_nonneg g)); [|exact Hout].
  intros y row _ Hrow. apply Hrows. eapply index_In; eassumption.
Qed.

(** X12. A grid without rows makes [CannyEdgeDetect] panic with an index out
    of range; a grid of rows that are all empty is returned as it is. *)
Theorem canny_degenerate_grid (pixels : grid) (h : Z) (blur : bool)
  (minRatio maxRatio : float) :
  rect pixels h 0 ->
  CannyEdgeDetect pixels blur minRatio maxRatio =
  if h =? 0 then Panic IndexOutOfRange else Ok pixels.
Proof.
  intros Hrect. destruct (Z.eqb_spec h 0) as [->|Hne].
  - destruct pixels as [|row pixels]; [destruct blur; reflexivity|].
    destruct Hrect as [Hlen _]. unfold len in Hlen. simpl in Hlen. lia.
  - assert (Hh : 0 < h) by (pose proof (len_nonneg pixels); destruct Hrect; lia).
    rewrite CannyEdgeDetect_stages. unfold suppressedMagnitudes.
    assert (Hblur : (if blur then gaussianBlur pixels 5 else Ok pixels) = Ok pixels).
    { destruct blur; [|reflexivity]. rewrite gaussianBlur_5.
      destruct (gridLoop_no_columns pixels (blurCell pixels kernel5) h Hrect) as (out & -> & Hro).
      apply f_equal. apply (grid_no_columns out pixels h); assumption. }
    rewrite Hblur. cbn [bind]. rewrite sobel_field. unfold sobelField.
    destruct (gridLoop_no_columns pixels (sobelResponse pixels) h Hrect) as (field & -> & Hrf).
    cbn [bind].
    destruct (nonMaximumSuppression_total (map (map sobelPixel) field)
                (map (map sobelAngle) field) h 0) as (nms & -> & Hrn);
      [apply rect_map; assumption | apply rect_map; assumption | assumption | |].
    { intros y x d Hd.
      destruct (at2_bounds _ _ _ _ _ _ (rect_map sobelAngle field h 0 Hrf) Hd). lia. }
    cbn [bind]. unfold thresholdAndTrack.
    destruct (maxPixelValue_total nms h 0 Hrn) as (max & ->). cbn [bind].
    destruct (doublethreshold_inv nms h 0 (maxRatio * float64_of_uint8 max)
                (minRatio * float64_of_uint8 max) Hrn)
      as ([[pixels3 strong] weak] & -> & Hr3 & Hsets & _). cbn [bind fst snd] in *.
    destruct (edgeTracking_grid h 0 weak pixels3 strong Hr3) as (out & s' & -> & Hro & _).
    { intros pt Hpt. destruct (Hsets pt (or_intror Hpt)) as (p & Hp).
      destruct (at2_bounds _ _ _ _ _ _ Hrn Hp). lia. }
    cbn [bind]. apply f_equal. apply (grid_no_columns out pixels h); assumption.
Qed.

Lemma canny_degenerate_grid_witness :
  CannyEdgeDetect [[]; []] true ratio_0_2 ratio_0_6 =
  if 2 =? 0 then Panic IndexOutOfRange else Ok [[]; []].
Proof.
  apply (canny_degenerate_grid [[]; []] 2 true).
  split; [reflexivity|]. intros row [<-|[<-|[]]]; reflexivity.
Defined.

(** ** Flat images *)

Lemma innerProduct_flat (q : Q) :
  exists s, innerProduct [q; q; q; q; q] kernel5 = Ok s /\ (s == q)%Q.
Proof.
  rewrite kernel5_weights. eexists. split.
  - unfold innerProduct. change (len [q; q; q; q; q]) with 5.
    change (len [1 # 16; 4 # 16; 6 # 16; 4 # 16; 1 # 16]%Q) with 5.
    cbn [Z.eqb Pos.eqb negb]. change (upto 0 5) with [0; 1; 2; 3; 4].
    cbn [foldM]. 
    repeat match goal with
    | |- context [index ?l ?i] =>
        let t := eval cbv [index Z.ltb Z.compare Z.to_nat Pos.to_nat Pos.iter_op Nat.add
                           nth_error] in (index l i) in
        change (index l i) with t
    end.
    cbn [bind]. reflexivity.
  - ring.
Qed.

Lemma vector_flat (v : VecDense) (q : Q) :
  len v = 5 -> (forall k, 0 <= k < 5 -> index v k = Ok q) -> v = [q; q; q; q; q].
Proof.
  intros Hlen Hidx. apply list_index_ext; [rewrite Hlen; reflexivity|].
  intros i Hi. rewrite Hlen in Hi. rewrite (Hidx i Hi).
  assert (Hc : i = 0 \/ i = 1 \/ i = 2 \/ i = 3 \/ i = 4) by lia.
  destruct Hc as [->|[->|[->|[->| ->]]]]; reflexivity.
Qed.

Lemma blurCell_uniform (pixels : grid) (h w v y x : Z) :
  rect pixels h w -> 3 <= h -> 3 <= w -> uniform pixels v ->
  0 <= y < h -> 0 <= x < w ->
  blurCell pixels kernel5 y x = Ok (GrayPixel.mk (uint8_of_Z (Z.sqrt (2 * v * v))) 255).
Proof.
  intros Hrect Hh Hw Hu Hy Hx. unfold blurCell. change (len kernel5) with 5.
  assert (Hvec : forall dir, getPixelVector pixels y x 5 dir =
                             Ok (let q := inject_Z v in [q; q; q; q; q])).
  { intros dir.
    destruct (getPixelVector_spec pixels h w y x 5 2 dir) as (vec & -> & Hlen & Hcells);
      try assumption; try lia.
    f_equal. apply vector_flat; [assumption|]. intros k Hk.
    destruct (Hcells k Hk) as (p & Hp & ->). f_equal. f_equal.
    destruct dir; destruct (at2_In _ _ _ _ Hp) as (row & Hrow & Hin); exact (Hu row p Hrow Hin). }
  rewrite !Hvec. cbv zeta. cbn [bind].
  destruct (innerProduct_flat (inject_Z v)) as (s & -> & Hs). cbn [bind].
  do 3 f_equal. unfold uint8_sqrt. do 2 f_equal.
  assert (E : (s * s + s * s == inject_Z (2 * v * v))%Q).
  { rewrite Hs, !inject_Z_mult. ring. }
  rewrite E. apply Qfloor_Z.
Qed.

Lemma gaussianBlur_uniform_cells (pixels : grid) (h w v : Z) :
  rect pixels h w -> 3 <= h -> 3 <= w -> uniform pixels v ->
  exists out, gaussianBlur pixels 5 = Ok out /\ rect out h w /\
    allPixels out (GrayPixel.mk (uint8_of_Z (Z.sqrt (2 * v * v))) 255).
Proof.
  intros Hrect Hh Hw Hu.
  destruct (gaussianBlur_total pixels h w Hrect Hh Hw) as (out & Hout & Hro).
  exists out. split; [assumption|]. split; [assumption|].
  intros row p Hrow Hp. destruct (In_at2 _ _ _ Hrow Hp) as (y & x & Hat).
  destruct (at2_bounds _ _ _ _ _ _ Hro Hat) as [Hy Hx].
  rewrite gaussianBlur_5 in Hout.
  apply (gridLoop_at _ _ _ _ Hout) in Hat as (_ & _ & _ & _ & Hcell).
  rewrite (blurCell_uniform pixels h w v y x) in Hcell by assumption. congruence.
Qed.

(** X13. Blurring a flat image of intensity [v <= 180] gives a flat image of
    intensity [floor (v * sqrt 2)]: the two passes are combined by a root
    of squares, not composed. *)
Theorem gaussianBlur_uniform (pixels : grid) (h w v : Z) :
  rect pixels h w -> 3 <= h -> 3 <= w -> uniform pixels v -> 0 <= v <= 180 ->
  exists out, gaussianBlur pixels 5 = Ok out /\ rect out h w /\
    allPixels out (GrayPixel.mk (Z.sqrt (2 * v * v)) 255).
Proof.
  intros Hrect Hh Hw Hu Hv.
  destruct (gaussianBlur_uniform_cells pixels h w v Hrect Hh Hw Hu) as (out & Hout & Hro & Hall).
  exists out. split; [assumption|]. split; [assumption|].
  replace (Z.sqrt (2 * v * v)) with (uint8_of_Z (Z.sqrt (2 * v * v))); [exact Hall|].
  unfold uint8_of_Z. apply Z.mod_small. split; [apply Z.sqrt_nonneg|].
  apply Z.sqrt_lt_square; nia.
Qed.

Lemma rect_flat3 : rect flat3 3 3.
Proof. split; [reflexivity|]. intros row [<-|[<-|[<-|[]]]]; reflexivity. Qed.

Lemma uniform_flat3 : uniform flat3 100.
Proof. intros row p [<-|[<-|[<-|[]]]] [<-|[<-|[<-|[]]]]; reflexivity. Qed.

Lemma gaussianBlur_uniform_witness :
  exists out, gaussianBlur flat3 5 = Ok out /\ rect out 3 3 /\
    allPixels out (GrayPixel.mk (Z.sqrt (2 * 100 * 100)) 255).
Proof.
  apply (gaussianBlur_uniform flat3 3 3 100);
    [exact rect_flat3 | lia | lia | exact uniform_flat3 | lia].
Defined.

Lemma allPixels_uniform (g : grid) (q : GrayPixel) : allPixels g q -> uniform g (GrayPixel.y q).
Proof. intros H row p Hrow Hp. rewrite (H row p Hrow Hp). reflexivity. Qed.

Lemma sobel_uniform_mag (pixels : grid) (h w v : Z) :
  rect pixels h w -> 2 <= h -> 2 <= w -> uniform pixels v ->
  exists mag dirs, sobel pixels = Ok (mag, dirs) /\ rect mag h w /\ rect dirs h w /\ blank mag.
Proof.
  intros Hrect Hh Hw Hu.
  destruct (sobel_total pixels h w Hrect Hh Hw) as (mag & dirs & Hs & Hrm & Hrd).
  exists mag, dirs. split; [assumption|]. split; [assumption|]. split; [assumption|].
  destruct (sobel_cells _ _ _ Hs) as (field & Hf & -> & _).
  intros row p Hrow Hp. destruct (In_at2 _ _ _ Hrow Hp) as (y & x & Hat).
  rewrite at2_map in Hat. inv_bind Hat. injection Hat as <-.
  apply (gridLoop_at _ _ _ _ Hf) in Hm as (Hy & prow & Hprow & Hx & Hresp).
  pose proof Hrect as [Hlen Hrows].
  assert (Hwrow : len prow = w) by (apply Hrows; eapply index_In; eassumption).
  destruct (sobelResponse_uniform pixels h w v y x u Hrect Hh Hw Hu) as [HX HY];
    [lia | lia | assumption |].
  apply sobelPixel_zero; assumption.
Qed.

(** X14. A flat image has no edges: on a rectangular grid of one intensity
    the output of [CannyEdgeDetect] is 0 everywhere. *)
Theorem canny_uniform_blank (pixels : grid) (h w v : Z) (blur : bool)
  (minRatio maxRatio : float) :
  rect pixels h w ->
  (if blur then 3 else 2) <= h -> (if blur then 3 else 2) <= w ->
  uniform pixels v ->
  exists out, CannyEdgeDetect pixels blur minRatio maxRatio = Ok out /\
    rect out h w /\ blank out.
Proof.
  intros Hrect Hh Hw Hu.
  destruct (CannyEdgeDetect_total pixels h w blur minRatio maxRatio Hrect Hh Hw)
    as (out & Hout & Hro).
  exists out. split; [assumption|]. split; [assumption|].
  destruct (CannyEdgeDetect_output _ _ _ _ _ Hout)
    as (nms & max & h' & w' & Hn & _ & Hrn & Hro' & Hc).
  assert (Hblank : blank nms).
  { unfold suppressedMagnitudes in Hn.
    assert (Hb : exists p0 v0, (if blur then gaussianBlur pixels 5 else Ok pixels) = Ok p0 /\
                   rect p0 h w /\ uniform p0 v0).
    { destruct blur.
      - destruct (gaussianBlur_uniform_cells pixels h w v Hrect Hh Hw Hu) as (p0 & -> & Hr0 & Ha).
        exists p0. eexists. split; [reflexivity|]. split; [assumption|].
        apply allPixels_uniform. exact Ha.
      - exists pixels, v. auto. }
    destruct Hb as (p0 & v0 & Hb & Hr0 & Hu0). rewrite Hb in Hn. cbn [bind] in Hn.
    destruct (sobel_uniform_mag p0 h w v0 Hr0) as (mag & dirs & Hs & _ & _ & Hz);
      [destruct blur; lia | destruct blur; lia | assumption |].
    rewrite Hs in Hn. cbn [bind] in Hn.
    intros row o Hrow Ho. destruct (In_at2 _ _ _ Hrow Ho) as (y & x & Hat).
    destruct (nonMaximumSuppression_pixels _ _ _ Hn y x o Hat)
      as (r & p & q & Hr & _ & _ & [H0 | H0] & _); [assumption|].
    rewrite H0. destruct (at2_In _ _ _ _ Hr) as (row' & Hrow' & Hin). exact (Hz row' r Hrow' Hin). }
  intros row o Hrow Ho. destruct (In_at2 _ _ _ Hrow Ho) as (y & x & Hat).
  destruct (at2_bounds _ _ _ _ _ _ Hro' Hat) as [Hy Hx].
  destruct (at2_total nms h' w' y x Hrn Hy Hx) as (p & Hp).
  rewrite (Hc x y p Hp) in Hat. injection Hat as <-.
  destruct (fgtb _ _); [|reflexivity].
  destruct (at2_In _ _ _ _ Hp) as (row' & Hrow' & Hin). exact (Hblank row' p Hrow' Hin).
Qed.

Lemma canny_uniform_blank_witness :
  exists out, CannyEdgeDetect flat3 true ratio_0_2 ratio_0_6 = Ok out /\
    rect out 3 3 /\ blank out.
Proof.
  apply (canny_uniform_blank flat3 3 3 100 true);
    [exact rect_flat3 | lia | lia | exact uniform_flat3].
Defined.

(** ** The blur kernel *)

Lemma binomial_0 (n : nat) : binomial n 0 = 1.
Proof. destruct n; reflexivity. Qed.

Lemma binomial_gt (n : nat) : forall k, (n < k)%nat -> binomial n k = 0.
Proof.
  induction n as [|n IH]; intros [|k] H; try lia; [reflexivity|].
  cbn [binomial]. rewrite !IH by lia. reflexivity.
Qed.

Lemma binomial_diag (n : nat) : binomial n n = 1.
Proof.
  induction n as [|n IH]; [reflexivity|]. cbn [binomial].
  rewrite IH, (binomial_gt n (S n)) by lia. lia.
Qed.

Lemma binomial_pos (n : nat) : forall k, (k <= n)%nat -> 0 < binomial n k.
Proof.
  induction n as [|n IH]; intros [|k] H; try lia; try reflexivity.
  cbn [binomial]. assert (0 < binomial n k) by (apply IH; lia).
  destruct (Nat.eq_dec (S k) (S n)) as [E|E].
  - rewrite (binomial_gt n (S k)) by lia. lia.
  - assert (0 < binomial n (S k)) by (apply IH; lia). lia.
Qed.

Lemma binomial_sym (n : nat) : forall k, (k <= n)%nat -> binomial n k = binomial n (n - k).
Proof.
  induction n as [|n IH]; intros k H.
  - replace k with O by lia. reflexivity.
  - destruct k as [|k].
    + rewrite Nat.sub_0_r, binomial_0, binomial_diag. reflexivity.
    + destruct (Nat.eq_dec k n) as [->|Hne].
      * rewrite Nat.sub_diag, binomial_0, binomial_diag. reflexivity.
      * replace (S n - S k)%nat with (S (n - S k)) by lia. cbn [binomial].
        rewrite (IH k) by lia. rewrite (IH (S k)) by lia.
        replace (n - k)%nat with (S (n - S k)) by lia. lia.
Qed.

Lemma binomialSum_step (n : nat) :
  forall m, binomialSum (S n) (S m) = binomialSum n m + binomialSum n (S m).
Proof.
  induction m as [|m IH].
  - cbn [binomialSum binomial]. rewrite !binomial_0. lia.
  - change (binomialSum (S n) (S (S m)))
      with (binomialSum (S n) (S m) + binomial (S n) (S (S m))).
    rewrite IH. cbn [binomial binomialSum]. lia.
Qed.

Lemma binomialSum_row (n : nat) : binomialSum n n = 2 ^ Z.of_nat n.
Proof.
  induction n as [|n IH]; [reflexivity|].
  rewrite binomialSum_step. cbn [binomialSum]. rewrite IH, (binomial_gt n (S n)) by lia.
  rewrite Nat2Z.inj_succ, Z.pow_succ_r by lia. lia.
Qed.

Lemma fold_Qplus_acc (l : list Q) (acc : Q) :
  (fold_left Qplus l acc == acc + fold_left Qplus l 0)%Q.
Proof.
  revert acc; induction l as [|x l IH]; intros acc; cbn [fold_left]; [ring|].
  rewrite (IH (acc + x)%Q), (IH (0 + x)%Q). ring.
Qed.

Lemma fold_Qplus_scale (c : Q) (l : list Q) :
  (fold_left Qplus (map (fun w => c * w) l) 0 == c * fold_left Qplus l 0)%Q.
Proof.
  induction l as [|x l IH]; cbn [map fold_left]; [ring|].
  rewrite fold_Qplus_acc, IH, (fold_Qplus_acc l (0 + x)%Q). ring.
Qed.

Lemma pascal_row_sum (n m : nat) :
  (fold_left Qplus (map (fun i => inject_Z (binomial n (Z.to_nat i))) (zrange 0 (S m))) 0
   == inject_Z (binomialSum n m))%Q.
Proof.
  induction m as [|m IH].
  - cbn. rewrite binomial_0. reflexivity.
  - rewrite zrange_succ, map_app, fold_left_app, fold_Qplus_acc, IH.
    cbn [map fold_left binomialSum]. rewrite inject_Z_plus.
    replace (Z.to_nat (0 + Z.of_nat (S m))) with (S m) by lia. ring.
Qed.

(** X15. The normalized row [n] of Pascal's triangle is a kernel of [n + 1]
    positive weights [C(n, i) / 2^n], symmetric and summing to 1 ([n <= 52]:
    the range in which every value is exact in binary64). *)
Theorem pascal_kernel_normalised (n : Z) :
  0 <= n <= 52 ->
  exists row, getPascalTriangleRow n = Ok row /\ gaussianKernel (normalizeVec row) n.
Proof.
  intros Hn. unfold getPascalTriangleRow, NewVecDense.
  set (row := map (fun i => inject_Z (binomial (Z.to_nat n) (Z.to_nat i))) (upto 0 (n + 1))).
  assert (Hlen : len row = n + 1).
  { unfold row, len, upto. rewrite length_map, zrange_length. lia. }
  rewrite Hlen, Z.eqb_refl. destruct (Z.leb_spec (n + 1) 0) as [H0|H0]; [lia|]. cbn [negb].
  exists row. split; [reflexivity|].
  assert (Hsum : (fold_left Qplus row 0 == inject_Z (2 ^ n))%Q).
  { unfold row, upto. replace (Z.to_nat (n + 1 - 0)) with (S (Z.to_nat n)) by lia.
    rewrite pascal_row_sum, binomialSum_row, Z2Nat.id by lia. reflexivity. }
  assert (Hpow : 0 < 2 ^ n) by (apply Z.pow_pos_nonneg; lia).
  assert (Hnz : ~ (inject_Z (2 ^ n) == 0)%Q).
  { unfold Qeq. cbn. lia. }
  assert (Hentry : forall i, 0 <= i <= n ->
            index (normalizeVec row) i =
            Ok ((1 / fold_left Qplus row 0) * inject_Z (binomial (Z.to_nat n) (Z.to_nat i)))%Q).
  { intros i Hi. unfold normalizeVec. rewrite index_map.
    assert (Hidx : index (upto 0 (n + 1)) i = Ok i).
    { apply index_Ok. split; [lia|]. unfold upto.
      rewrite zrange_nth by lia. f_equal. lia. }
    assert (Hr : index row i = Ok (inject_Z (binomial (Z.to_nat n) (Z.to_nat i)))).
    { unfold row. rewrite index_map, Hidx. reflexivity. }
    rewrite Hr. reflexivity. }
  split; [|split].
  - unfold normalizeVec. rewrite len_map. exact Hlen.
  - unfold normalizeVec. rewrite fold_Qplus_scale, Hsum. field. exact Hnz.
  - intros i Hi. eexists. split; [apply Hentry; assumption|]. split; [|split].
    + rewrite Hentry by lia. do 3 f_equal.
      replace (Z.to_nat (n - i)) with (Z.to_nat n - Z.to_nat i)%nat by lia.
      symmetry. apply binomial_sym. lia.
    + rewrite Hsum.
      assert (Hb : 0 < binomial (Z.to_nat n) (Z.to_nat i)) by (apply binomial_pos; lia).
      apply Qmult_lt_0_compat.
      * unfold Qdiv. rewrite Qmult_1_l. apply Qinv_lt_0_compat. unfold Qlt. cbn. lia.
      * unfold Qlt. cbn. lia.
    + rewrite Hsum. field. exact Hnz.
Qed.

Lemma pascal_kernel_normalised_witness :
  exists row, getPascalTriangleRow 4 = Ok row /\ gaussianKernel (normalizeVec row) 4.
Proof. apply (pascal_kernel_normalised 4). lia. Defined.

(** X16. [innerProduct] does not depend on the order of its arguments: the
    same sum, or the same panic. *)
Theorem innerProduct_comm (u v : VecDense) : innerProduct u v = innerProduct v u.
Proof.
  unfold innerProduct. rewrite (Z.eqb_sym (len v) (len u)).
  destruct (Z.eqb_spec (len u) (len v)) as [E|E]; [|reflexivity]. cbn [negb].
  rewrite <- E. apply foldM_ext. intros acc i Hi. apply upto_In in Hi.
  destruct (index_total u i Hi) as (a & ->).
  destruct (index_total v i) as (b & ->); [lia|]. cbn [bind].
  rewrite (Qmult_comm_eq a b). reflexivity.
Qed.

(** ** Non-maximum suppression: local maxima and panics *)

Lemma readNeighbours_near (pixels : grid) (h w x y : Z) (n : Z * Z * Z * Z)
  (p q : GrayPixel) :
  (let '(pY, pX, qY, qX) := n in
   Z.abs (pY - y) <= 1 /\ Z.abs (pX - x) <= 1 /\ Z.abs (qY - y) <= 1 /\ Z.abs (qX - x) <= 1) ->
  readNeighbours pixels h w x y n = Ok (p, q) ->
  exists pY pX qY qX,
    at2 pixels pY pX = Ok p /\ at2 pixels qY qX = Ok q /\
    Z.abs (pY - y) <= 1 /\ Z.abs (pX - x) <= 1 /\ Z.abs (qY - y) <= 1 /\ Z.abs (qX - x) <= 1.
Proof.
  destruct n as [[[pY pX] qY] qX]. intros (H1 & H2 & H3 & H4) H. unfold readNeighbours in H.
  inv_bind H. inv_bind H. injection H as <- <-.
  do 4 eexists. split; [exact Hm|]. split; [exact Hm0|].
  repeat split;
    match goal with
    | |- Z.abs ((if ?c then _ else _) - _) <= 1 => destruct c; lia
    end.
Qed.

Lemma getPixelInGradientDirection_near (pixels : grid) (directions : list (list R))
  (x y : Z) (p q : GrayPixel) :
  getPixelInGradientDirection pixels directions x y = Ok (p, q) ->
  exists pY pX qY qX,
    at2 pixels pY pX = Ok p /\ at2 pixels qY qX = Ok q /\
    Z.abs (pY - y) <= 1 /\ Z.abs (pX - x) <= 1 /\ Z.abs (qY - y) <= 1 /\ Z.abs (qX - x) <= 1.
Proof.
  unfold getPixelInGradientDirection. intros H. inv_bind H. inv_bind H. inv_bind H.
  apply (readNeighbours_near pixels (len pixels) (len u) x y u1); [|exact H].
  unfold gradientNeighbours in Hm1.
  repeat match type of Hm1 with
  | (if ?c then _ else _) = _ => destruct c
  end; try discriminate; injection Hm1 as <-; lia.
Qed.

Lemma nonMaximumSuppression_rect_of (pixels : grid) (directions : list (list R))
  (out : grid) (h w : Z) :
  rect pixels h w -> nonMaximumSuppression pixels directions = Ok out -> rect out h w.
Proof.
  intros Hrect H. destruct (nonMaximumSuppression_shape _ _ _ H) as [Hlen Hrows].
  split; [rewrite Hlen; exact (proj1 Hrect)|].
  intros row Hin. destruct (Hrows row Hin) as (row0 & Hrow0 & ->).
  apply (proj2 Hrect). eapply index_In; eassumption.
Qed.

(** X17. Non-maximum suppression keeps every pixel that is at least as bright
    as all its neighbours, whatever the direction field. *)
Theorem nms_keeps_local_maxima (pixels : grid) (directions : list (list R)) (out : grid)
  (h w y x : Z) (r : GrayPixel) :
  rect pixels h w -> nonMaximumSuppression pixels directions = Ok out ->
  at2 pixels y x = Ok r -> localMaximum pixels y x r ->
  at2 out y x = Ok r.
Proof.
  intros Hrect Hnms Hr Hmax.
  pose proof (nonMaximumSuppression_rect_of _ _ _ _ _ Hrect Hnms) as Hro.
  destruct (at2_bounds _ _ _ _ _ _ Hrect Hr) as [Hy Hx].
  destruct (at2_total out h w y x Hro Hy Hx) as (o & Ho). rewrite Ho. f_equal.
  destruct (nonMaximumSuppression_pixels _ _ _ Hnms y x o Ho)
    as (r' & p & q & Hr' & Hpq & Hcase & _).
  assert (r' = r) by congruence. subst r'.
  destruct (getPixelInGradientDirection_near _ _ _ _ _ _ Hpq)
    as (pY & pX & qY & qX & Hp & Hq & H1 & H2 & H3 & H4).
  pose proof (Hmax pY pX p H1 H2 Hp). pose proof (Hmax qY qX q H3 H4 Hq).
  destruct Hcase as [[Hgt _] | [_ ->]]; [lia | reflexivity].
Qed.

Lemma nms_keeps_local_maxima_witness :
  at2 edge3_nms 1 1 = Ok (px 160).
Proof.
  apply (nms_keeps_local_maxima (map (map sobelPixel) edge3_field)
           (map (map sobelAngle) edge3_field) edge3_nms 3 3 1 1 (px 160)).
  - apply rect_map, rect_edge3_field.
  - exact nms_edge3.
  - reflexivity.
  - intros y' x' p Hy Hx Hp.
    assert (Hc : (y' = 0 \/ y' = 1 \/ y' = 2) /\ (x' = 0 \/ x' = 1 \/ x' = 2)) by lia.
    destruct Hc as [[->|[->| ->]] [->|[->| ->]]]; vm_compute in Hp; injection Hp as <-;
      vm_compute; discriminate.
Defined.

(** X18. When the numbers of rows differ, or the first rows differ in length,
    [nonMaximumSuppression] panics with the dimension error. *)
Theorem nms_dimension_mismatch (pixels : grid) (directions : list (list R)) :
  len pixels <> len directions \/
  (exists row0 drow0, index pixels 0 = Ok row0 /\ index directions 0 = Ok drow0 /\
     len row0 <> len drow0) ->
  nonMaximumSuppression pixels directions = Panic DimensionMismatch.
Proof.
  intros H. rewrite nonMaximumSuppression_loop.
  destruct (Z.eqb_spec (len pixels) (len directions)) as [E|E]; cbn [negb]; [|reflexivity].
  destruct H as [H | (row0 & drow0 & -> & -> & H)]; [contradiction|]. cbn [bind].
  destruct (Z.eqb_spec (len row0) (len drow0)); [contradiction | reflexivity].
Qed.

Lemma nms_dimension_mismatch_witness :
  nonMaximumSuppression flat2 [[0%R; 0%R; 0%R]; [0%R; 0%R; 0%R]] = Panic DimensionMismatch.
Proof.
  apply nms_dimension_mismatch. right. exists [px 9; px 9], [0%R; 0%R; 0%R].
  split; [reflexivity|]. split; [reflexivity|]. discriminate.
Defined.

(** X19. A direction outside [-90, 90] makes the neighbour selection panic. *)
Theorem invalid_direction_panics (pixels : grid) (directions : list (list R))
  (x y : Z) (d : R) :
  0 < len pixels -> at2 directions y x = Ok d -> (d < -90 \/ 90 < d)%R ->
  getPixelInGradientDirection pixels directions x y = Panic InvalidDirection.
Proof.
  intros Hh Hd Hout. unfold getPixelInGradientDirection.
  destruct (index_total pixels 0) as (row0 & ->); [lia|]. cbn [bind]. rewrite Hd. cbn [bind].
  assert (E : gradientNeighbours d x y = Panic InvalidDirection).
  { unfold gradientNeighbours, Rgeb, Rltb, Rleb.
    split_Rdec; cbn [andb]; try reflexivity; exfalso; lra. }
  rewrite E. reflexivity.
Qed.

Lemma invalid_direction_panics_witness :
  getPixelInGradientDirection [[px 0]] [[91%R]] 0 0 = Panic InvalidDirection.
Proof.
  apply (invalid_direction_panics [[px 0]] [[91%R]] 0 0 91%R);
    [reflexivity | reflexivity | right; lra].
Defined.

(** ** Where the stages are defined *)

(** X20. On a rectangular grid with at least three rows and three columns
    the 5-tap blur returns a grid of the same shape with alpha 255
    everywhere; with fewer rows or columns it panics with an index out of
    range. *)
Theorem gaussianBlur_domain (pixels : grid) (h w : Z) :
  rect pixels h w -> 1 <= h -> 1 <= w -> blurDomain pixels h w.
Proof.
  intros Hrect Hh Hw. split.
  - intros [Hh3 Hw3].
    destruct (gaussianBlur_total pixels h w Hrect Hh3 Hw3) as (out & Hout & Hro).
    exists out. split; [assumption|]. split; [assumption|].
    intros row p Hrow Hp. destruct (In_at2 _ _ _ Hrow Hp) as (y & x & Hat).
    rewrite gaussianBlur_5 in Hout.
    apply (gridLoop_at _ _ _ _ Hout) in Hat as (_ & _ & _ & _ & Hcell).
    unfold blurCell in Hcell. inv_bind Hcell. inv_bind Hcell. inv_bind Hcell. inv_bind Hcell.
    injection Hcell as <-. reflexivity.
  - intros Hsmall. apply (gaussianBlur_small pixels h w); assumption.
Qed.

Lemma gaussianBlur_domain_witness : blurDomain flat2 2 2.
Proof.
  apply (gaussianBlur_domain flat2 2 2); [| lia | lia].
  split; [reflexivity|]. intros row [<-|[<-|[]]]; reflexivity.
Defined.

(** X21. On a rectangular grid with at least two rows and two columns
    [sobel] returns magnitudes and directions of the same shape, every
    magnitude pixel with alpha 255; with a single row or a single column it
    panics with an index out of range. *)
Theorem sobel_domain (pixels : grid) (h w : Z) :
  rect pixels h w -> 1 <= h -> 1 <= w -> sobelDomain pixels h w.
Proof.
  intros Hrect Hh Hw. split.
  - intros [Hh2 Hw2].
    destruct (sobel_total pixels h w Hrect Hh2 Hw2) as (mag & dirs & Hs & Hrm & Hrd).
    exists mag, dirs. split; [assumption|]. split; [assumption|]. split; [assumption|].
    destruct (sobel_cells _ _ _ Hs) as (field & _ & -> & _).
    intros row p Hrow Hp. destruct (In_at2 _ _ _ Hrow Hp) as (y & x & Hat).
    rewrite at2_map in Hat. inv_bind Hat. injection Hat as <-. reflexivity.
  - intros Hthin. apply (sobel_thin pixels h w); assumption.
Qed.

Lemma sobel_domain_witness : sobelDomain row5 1 5.
Proof.
  apply (sobel_domain row5 1 5); [| lia | lia].
  split; [reflexivity|]. intros row [<-|[]]; reflexivity.
Defined.

(** X22. On a rectangular grid with at least two rows and two columns (three
    with the blur) [CannyEdgeDetect] returns a grid of the same shape, all of
    whose intensities are [uint8] values. *)
Theorem canny_returns_same_shape (pixels : grid) (h w : Z) (blur : bool)
  (minRatio maxRatio : float) :
  rect pixels h w ->
  (if blur then 3 else 2) <= h -> (if blur then 3 else 2) <= w ->
  exists out, CannyEdgeDetect pixels blur minRatio maxRatio = Ok out /\
    rect out h w /\ uint8Grid out.
Proof.
  intros Hrect Hh Hw.
  destruct (CannyEdgeDetect_total pixels h w blur minRatio maxRatio Hrect Hh Hw)
    as (out & Hout & Hro).
  exists out. split; [assumption|]. split; [assumption|].
  destruct (canny_cells_uint8 _ _ _ _ _ Hout) as (nms & max & h' & w' & _ & Hrn & Hro' & _ & Hc).
  intros row o Hrow Ho. destruct (In_at2 _ _ _ Hrow Ho) as (y & x & Hat).
  destruct (at2_bounds _ _ _ _ _ _ Hro' Hat) as [Hy Hx].
  destruct (at2_total nms h' w' y x Hrn Hy Hx) as (p & Hp).
  destruct (Hc x y p Hp) as (Hu & _ & Hcell). rewrite Hcell in Hat. injection Hat as <-.
  destruct (fgtb _ _); [exact Hu | unfold uint8; cbn; lia].
Qed.

Lemma canny_returns_same_shape_witness :
  exists out, CannyEdgeDetect spot3 true ratio_0_2 ratio_0_6 = Ok out /\
    rect out 3 3 /\ uint8Grid out.
Proof.
  apply (canny_returns_same_shape spot3 3 3 true); [exact rect_spot3 | lia | lia].
Defined.

(** ** Colours (main.go) *)

Lemma grayModel_grey (c a : Z) :
  0 <= c < 65536 -> grayModel (mkColor c c c a) = Z.shiftr c 8.
Proof.
  intros Hc. unfold grayModel, uint8_of_Z. cbn [red green blue].
  change (Z.shiftl 1 15) with 32768. rewrite !Z.shiftr_div_pow2 by lia.
  change (2 ^ 32) with 4294967296. change (2 ^ 24) with 16777216. change (2 ^ 8) with 256.
  rewrite (Z.mod_small (19595 * c + 38470 * c + 7471 * c + 32768)) by lia.
  assert (E : (19595 * c + 38470 * c + 7471 * c + 32768) / 16777216 = c / 256).
  { pose proof (Z.mod_pos_bound c 256 ltac:(lia)) as Hm.
    pose proof (Z.div_mod c 256 ltac:(lia)) as Hd.
    symmetry. apply Z.div_unique with (r := (c mod 256) * 65536 + 32768); lia. }
  rewrite E. apply Z.mod_small. split; [apply Z.div_pos; lia|].
  apply Z.div_lt_upper_bound; lia.
Qed.

(** X23. A colour whose three channels are equal is converted to the high
    byte of that channel, and its alpha to the high byte of the alpha. *)
Theorem rgbaToGrayPixel_grey (c a : Z) :
  0 <= c < 65536 -> 0 <= a < 65536 ->
  rgbaToGrayPixel (mkColor c c c a) = GrayPixel.mk (Z.shiftr c 8) (Z.shiftr a 8).
Proof.
  intros Hc Ha. unfold rgbaToGrayPixel. cbv zeta. rewrite (grayModel_grey c a Hc).
  cbn [alpha]. f_equal. unfold uint8_of_Z. rewrite Z.shiftr_div_pow2 by lia.
  change (2 ^ 8) with 256. apply Z.mod_small. split; [apply Z.div_pos; lia|].
  apply Z.div_lt_upper_bound; lia.
Qed.

Lemma rgbaToGrayPixel_grey_witness :
  rgbaToGrayPixel (mkColor 65535 65535 65535 32768) =
  GrayPixel.mk (Z.shiftr 65535 8) (Z.shiftr 32768 8).
Proof. apply (rgbaToGrayPixel_grey 65535 32768); lia. Defined.

(** The channels of a grey are 257 times its intensity. *)
Lemma GrayRGBA_channels (v : Z) :
  0 <= v < 256 -> GrayRGBA v = mkColor (257 * v) (257 * v) (257 * v) 65535.
Proof.
  intros Hv. unfold GrayRGBA. cbv zeta.
  assert (E : Z.lor v (Z.shiftl v 8) = 257 * v).
  { assert (Hall : forallb (fun u => Z.lor u (Z.shiftl u 8) =? 257 * u) (upto 0 256) = true)
      by (vm_compute; reflexivity).
    rewrite forallb_forall in Hall. apply Z.eqb_eq, Hall, upto_In. exact Hv. }
  rewrite E. reflexivity.
Qed.

Lemma rgbaToGrayPixel_Gray (v : Z) :
  0 <= v < 256 -> rgbaToGrayPixel (GrayRGBA v) = GrayPixel.mk v 255.
Proof.
  intros Hv. rewrite (GrayRGBA_channels v Hv). unfold rgbaToGrayPixel. cbv zeta.
  rewrite (grayModel_grey (257 * v) 65535) by lia. cbn [alpha].
  change (uint8_of_Z (Z.shiftr 65535 8)) with 255. f_equal.
  rewrite Z.shiftr_div_pow2 by lia. change (2 ^ 8) with 256.
  symmetry. apply Z.div_unique with (r := v); lia.
Qed.

(** ** Images (main.go) *)

Lemma PointIn_bounds (x y w h : Z) :
  PointIn (mkPoint x y) (mkRectangle (mkPoint 0 0) (mkPoint w h)) = true <->
  0 <= x < w /\ 0 <= y < h.
Proof.
  unfold PointIn. cbn [X Y Min Max]. rewrite !andb_true_iff, !Z.leb_le, !Z.ltb_lt. lia.
Qed.

Lemma offset_bounds (h w y x : Z) : 0 <= y < h -> 0 <= x < w -> 0 <= y * w + x < w * h.
Proof. intros Hy Hx. nia. Qed.

Lemma offset_inj (w y x y' x' : Z) :
  0 <= x < w -> 0 <= x' < w -> y * w + x = y' * w + x' -> y = y' /\ x = x'.
Proof. intros Hx Hx' E. assert (y = y') by nia. subst. lia. Qed.

Lemma SetGray_step (pixels : grid) (h w : Z) (done : Z -> Z -> Prop) (img : Gray)
  (y x : Z) (p : GrayPixel) :
  rect pixels h w -> imageInv pixels h w done img -> at2 pixels y x = Ok p ->
  exists img', SetGray img x y (GrayPixel.y p) = Ok img' /\
    imageInv pixels h w (fun y' x' => done y' x' \/ (y' = y /\ x' = x)) img'.
Proof.
  intros Hrect (Hb & Hs & Hl & Hcells) Hp.
  destruct (at2_bounds _ _ _ _ _ _ Hrect Hp) as [Hy Hx].
  unfold SetGray. rewrite Hb.
  rewrite (proj2 (PointIn_bounds x y w h)) by auto. cbn [negb].
  unfold PixOffset. rewrite Hb, Hs. cbn [X Y Min].
  replace ((y - 0) * w + (x - 0) * 1) with (y * w + x) by lia.
  destruct (update_spec (Pix img) (y * w + x) (GrayPixel.y p)) as (pix & -> & Hl' & Hsame & Hother).
  { rewrite Hl. apply offset_bounds; assumption. }
  cbn [bind]. eexists. split; [reflexivity|].
  split; [reflexivity|]. split; [reflexivity|]. cbn [Pix]. split; [lia|].
  intros y' x' p' Hd Hp'. destruct (at2_bounds _ _ _ _ _ _ Hrect Hp') as [Hy' Hx'].
  destruct (Z.eq_dec (y' * w + x') (y * w + x)) as [E|E].
  - apply offset_inj in E as [-> ->]; [|assumption..].
    assert (p' = p) by congruence. subst. exact Hsame.
  - rewrite (Hother _ E). destruct Hd as [Hd | [-> ->]]; [eauto | contradiction].
Qed.

Lemma imageInv_ext (pixels : grid) (h w : Z) (done done' : Z -> Z -> Prop) (img : Gray) :
  rect pixels h w ->
  (forall y x, 0 <= y < h -> 0 <= x < w -> done' y x -> done y x) ->
  imageInv pixels h w done img -> imageInv pixels h w done' img.
Proof.
  intros Hrect Hext (Hb & Hs & Hl & Hcells). repeat split; try assumption.
  intros y x p Hd Hp. destruct (at2_bounds _ _ _ _ _ _ Hrect Hp) as [Hy Hx].
  apply Hcells; auto.
Qed.

Lemma getImageFromArray_inv (pixels : grid) (h w : Z) :
  rect pixels h w -> 1 <= h ->
  exists img, getImageFromArray pixels = Ok img /\ imageInv pixels h w (fun _ _ => True) img.
Proof.
  intros Hrect Hh. pose proof Hrect as [Hlen Hrows].
  destruct (rect_row0 _ _ _ Hrect) as (row0 & Hrow0 & Hw0); [lia|].
  assert (Hw : 0 <= w) by (rewrite <- Hw0; apply len_nonneg).
  unfold getImageFromArray. rewrite Hrow0. cbn [bind]. cbv zeta. rewrite Hw0, Hlen.
  assert (Hrect0 : Rect 0 0 w h = mkRectangle (mkPoint 0 0) (mkPoint w h)).
  { unfold Rect. destruct (Z.gtb_spec 0 w); [lia|]. destruct (Z.gtb_spec 0 h); [lia|]. reflexivity. }
  rewrite Hrect0.
  destruct (foldM_upto_total (fun y img => imageInv pixels h w (fun y' _ => y' < y) img)
              (fun img y => row <- index pixels y ;;
                 foldM (fun img x => p <- at2 pixels y x ;; SetGray img x y (GrayPixel.y p))
                       img (upto 0 (len row)))
              h) with (s0 := NewGray (mkRectangle (mkPoint 0 0) (mkPoint w h)))
    as (img & Himg & Hinv).
  - lia.
  - unfold imageInv, NewGray, Dx, Dy. cbn [X Y Min Max Bounds Stride Pix].
    split; [reflexivity|]. split; [lia|]. split.
    + unfold len. rewrite repeat_length, Z2Nat.id by nia. ring.
    + intros y x p Hd Hp. destruct (at2_bounds _ _ _ _ _ _ Hrect Hp). lia.
  - intros y img0 Hy Hinv0.
    destruct (index_total pixels y) as (row & Hrow); [lia|]. rewrite Hrow. cbn [bind].
    assert (Hwr : len row = w) by (apply Hrows; eapply index_In; eassumption). rewrite Hwr.
    destruct (foldM_upto_total
                (fun x img => imageInv pixels h w (fun y' x' => y' < y \/ (y' = y /\ x' < x)) img)
                (fun img x => p <- at2 pixels y x ;; SetGray img x y (GrayPixel.y p))
                w) with (s0 := img0) as (img1 & Himg1 & Hinv1).
    + assumption.
    + apply (imageInv_ext pixels h w (fun y' _ => y' < y)); [assumption | | assumption].
      intros y' x' Hy' Hx' H; cbv beta in *; lia.
    + intros x img2 Hx Hinv2.
      destruct (at2_total pixels h w y x Hrect Hy Hx) as (p & Hp). rewrite Hp. cbn [bind].
      destruct (SetGray_step pixels h w _ img2 y x p Hrect Hinv2 Hp) as (img3 & -> & Hinv3).
      exists img3. split; [reflexivity|].
      eapply imageInv_ext; [assumption | | exact Hinv3].
      intros y' x' Hy' Hx' H. cbv beta in *. lia.
    + exists img1. split; [assumption|].
      eapply imageInv_ext; [assumption | | exact Hinv1].
      intros y' x' Hy' Hx' H. cbv beta in *. lia.
  - exists img. split; [assumption|].
    eapply imageInv_ext; [assumption | | exact Hinv].
    intros y' x' Hy' _ _. cbv beta. lia.
Qed.

Lemma opaqueCopy_at (pixels : grid) (y x : Z) :
  at2 (opaqueCopy pixels) y x =
  (p <- at2 pixels y x ;; Ok (GrayPixel.mk (GrayPixel.y p) 255)).
Proof. unfold opaqueCopy. apply at2_map. Qed.

(** X24. Writing a non-empty rectangular grid of [uint8] intensities with
    [getImageFromArray] and reading the image back with [getPixelArray]
    returns the grid, with alpha 255 everywhere. *)
Theorem image_round_trip (pixels : grid) (h w : Z) :
  rect pixels h w -> 1 <= h -> uint8Grid pixels -> roundTrip pixels.
Proof.
  intros Hrect Hh Hu8.
  destruct (getImageFromArray_inv pixels h w Hrect Hh) as (img & Himg & Hb & Hs & Hl & Hcells).
  exists img. split; [assumption|].
  assert (Hw : 0 <= w).
  { destruct (rect_row0 _ _ _ Hrect) as (row0 & _ & <-); [lia | apply len_nonneg]. }
  assert (Hcell : forall y x, 0 <= y < h -> 0 <= x < w ->
            exists p, at2 pixels y x = Ok p /\
              (pixel <- GrayAt img x y ;; Ok (rgbaToGrayPixel pixel)) =
              Ok (GrayPixel.mk (GrayPixel.y p) 255)).
  { intros y x Hy Hx. destruct (at2_total pixels h w y x Hrect Hy Hx) as (p & Hp).
    exists p. split; [assumption|]. unfold GrayAt. rewrite Hb.
    rewrite (proj2 (PointIn_bounds x y w h)) by auto. cbn [negb].
    unfold PixOffset. rewrite Hb, Hs. cbn [X Y Min].
    replace ((y - 0) * w + (x - 0) * 1) with (y * w + x) by lia.
    rewrite (Hcells y x p I Hp). cbn [bind]. f_equal. apply rgbaToGrayPixel_Gray.
    destruct (at2_In _ _ _ _ Hp) as (row & Hrow & Hin). exact (Hu8 row p Hrow Hin). }
  unfold getPixelArray. rewrite Hb. cbn [X Y Max]. cbv zeta.
  destruct (mapM_total
              (fun y => mapM (fun x => pixel <- GrayAt img x y ;; Ok (rgbaToGrayPixel pixel))
                             (upto 0 w)) (upto 0 h)) as (out & Hout).
  { intros y Hy. apply upto_In in Hy. apply mapM_total. intros x Hx. apply upto_In in Hx.
    destruct (Hcell y x Hy Hx) as (p & _ & ->). eauto. }
  rewrite Hout. apply f_equal.
  assert (Hro : rect out h w).
  { split; [rewrite (mapM_upto_len _ _ _ Hout); lia|].
    intros row Hin. destruct (In_index _ _ Hin) as (y & Hrow).
    apply (mapM_upto_index _ _ _ Hout) in Hrow as [_ Hrow].
    rewrite (mapM_upto_len _ _ _ Hrow). lia. }
  apply (grid_ext out (opaqueCopy pixels) h w Hro); [apply rect_map; assumption|].
  intros y x. rewrite opaqueCopy_at.
  destruct (at2 pixels y x) as [p|e] eqn:Ep.
  - cbn [bind]. destruct (at2_bounds _ _ _ _ _ _ Hrect Ep) as [Hy Hx].
    destruct (Hcell y x Hy Hx) as (p' & Hp' & Hc). assert (p' = p) by congruence. subst p'.
    unfold at2.
    destruct (index_total out y) as (row & Hrow); [rewrite (proj1 Hro); assumption|].
    rewrite Hrow. cbn [bind].
    apply (mapM_upto_index _ _ _ Hout) in Hrow as [_ Hrow].
    apply (mapM_upto_index _ _ _ Hrow). split; [assumption | exact Hc].
  - cbn [bind]. pose proof (at2_Panic _ _ _ _ Ep) as ->.
    apply (at2_outside out h w y x Hro). intros [Hy Hx].
    destruct (at2_total pixels h w y x Hrect Hy Hx) as (p & Hp). congruence.
Qed.

Lemma image_round_trip_witness : roundTrip edge3.
Proof.
  apply (image_round_trip edge3 3 3); [| lia |].
  - split; [reflexivity|]. intros row [<-|[<-|[<-|[]]]]; reflexivity.
  - intros row p [<-|[<-|[<-|[]]]] [<-|[<-|[<-|[]]]]; unfold uint8; cbn; lia.
Defined.

(** ** The output format (main.go) *)

Lemma extScan_dot (sep : Z -> bool) (r : list Z) :
  forall s, extScan sep r s = [] \/ exists t, extScan sep r s = 46 :: t.
Proof.
  induction r as [|c r IH]; intros s; cbn [extScan]; [auto|].
  destruct (sep c); [auto|]. destruct (Z.eqb_spec c 46) as [->|_]; [eauto | apply IH].
Qed.

(** X25. [writeImage] encodes as JPEG with quality 95 whatever the output
    path: [filepath.Ext] is empty or starts with a dot, so it never equals
    ["png"]. *)
Theorem writeImage_always_jpeg (sep : Z -> bool) (path : gostring) :
  writeImage_encoder sep path = JpegEncode 95.
Proof.
  unfold writeImage_encoder. cbv zeta.
  destruct (list_eq_dec Z.eq_dec (Ext sep path) png) as [E|E]; [|reflexivity].
  unfold Ext in E. destruct (extScan_dot sep (rev path) []) as [H | (t & H)];
    rewrite H in E; discriminate E.
Qed.
